(** * daisy.scheduler: a shallow embedding of [Scheduler] and its properties

    The development follows [daisy/scheduler.py] method by method.  The
    scheduler is a Python object whose attributes are mutated in place and
    whose methods may raise; it is embedded as a record [Scheduler] threaded
    through a small state-and-exception monad [M].  A raised exception keeps
    the state reached at the point of the raise, as mutation of a Python
    object does.

    The collaborators [daisy.dependency_graph], [daisy.task] and
    [daisy.block] are imported by the module but are not part of it; they
    are modelled at their interface (sections 3 and 6 of the specification)
    and every result is stated for an arbitrary dependency graph. *)

From stdpp Require Import base option gmap sets list strings pretty.

From Stdlib Require Import ZArith Lia.

#[local] Open Scope Z_scope.
#[local] Set Warnings "-clear-no-such-hyp".

(** * Part I: the program

    Every definition of this part is the translation of a piece of
    [scheduler.py], or of a collaborator's interface as the specification
    gives it. *)

(** ** Python values used by the scheduler *)

(** Task ids are hashable keys of the per-task dictionaries. *)
Abbreviation TaskId := string.

(** A block id is subscripted in [update_failed_surface] ([block_id[0]] is
    used as a task id): it is a tuple whose first component is the id of the
    owning task. *)
Abbreviation BlockId := (string * Z)%type.

(** Modelled from the spec: [BlockStatus] of [daisy.block], the four
    statuses PENDING, PROCESSING, SUCCESS, FAILED of section 3. *)
Inductive BlockStatus := PENDING | PROCESSING | SUCCESS | FAILED.

#[export] Instance BlockStatus_eq_dec : EqDecision BlockStatus.
Proof. solve_decision. Defined.

(** Modelled from the spec: [Block] of [daisy.block], with the three
    attributes the scheduler reads or writes ([task_id], [block_id],
    [status]). *)
Module Block.

Record t := mk { task_id : TaskId; block_id : BlockId; status : BlockStatus }.

Definition with_status (st : BlockStatus) (b : t) : t :=
  {| task_id := task_id b; block_id := block_id b; status := st |}.

(** Modelled from the spec: blocks are hashable and comparable by
    [(task_id, block_id)]; the mutable status takes no part in it. *)
Definition ident (b : t) : TaskId * BlockId := (task_id b, block_id b).

Definition eqb (a b : t) : bool := bool_decide (ident a = ident b).

End Block.

(** What is stored in, or looked up in, a Python set, or handed to the
    dependency graph.  [completed_surface] is filled with block ids
    ([add(block_id)]) and [update_ready_queue] asks it about ids
    ([up.block_id in ...]); [update_complete_surface] asks it about, and
    removes from it, the elements of [upstream(...)] and [downstream(...)],
    which are block objects (the same module reads them through [.block_id]
    and [.task_id]).  A block object and a block id (a tuple) are different
    Python values, neither hashes nor compares as the other, so the two kinds
    of key are kept apart; a block object counts through its
    [(task_id, block_id)]. *)
Inductive Key :=
  | KId (i : BlockId)
  | KBlock (b : TaskId * BlockId).

#[export] Instance Key_eq_dec : EqDecision Key.
Proof. solve_decision. Defined.

#[export] Instance Key_countable : Countable Key.
Proof.
  refine (inj_countable'
            (λ k, match k with KId i => inl i | KBlock b => inr b end)
            (λ x, match x with inl i => KId i | inr b => KBlock b end) _).
  by intros [].
Defined.

Definition key_of_block (b : Block.t) : Key := KBlock (Block.ident b).

(** Exceptions the module can raise.  [KeyboardInterrupt] stands for the
    exceptions that derive from [BaseException] only, which an
    [except Exception] clause does not catch. *)
Inductive PyExc :=
  | KeyError | IndexError | AttributeError | NotImplementedError
  | StopIteration | UnboundLocalError | RuntimeError | KeyboardInterrupt.

#[export] Instance PyExc_eq_dec : EqDecision PyExc.
Proof. solve_decision. Defined.

Definition is_Exception (e : PyExc) : bool :=
  match e with KeyboardInterrupt => false | _ => true end.

(** The result of running a piece of Python: a value, a raised exception, or
    no result within the given number of iterations ([Diverge], for the two
    places where the source loops or recurses without a static bound). *)
Inductive Outcome (A : Type) :=
  | Ret (a : A)
  | Raise (e : PyExc)
  | Diverge.

Arguments Ret {A} a.

Arguments Raise {A} e.

Arguments Diverge {A}.

(** A lazily produced sequence of blocks (a generator): [next] yields the
    element at the current position and advances; an exhausted generator
    stays exhausted. *)
Record BlockIterator := mkIter {
  source : nat → option Block.t;
  position : nat
}.

Definition iter_next (it : BlockIterator) : option Block.t * BlockIterator :=
  match source it (position it) with
  | Some b => (Some b, mkIter (source it) (S (position it)))
  | None => (None, it)
  end.

Definition iter_of_list (l : list Block.t) : BlockIterator :=
  mkIter (λ n, l !! n) 0.

(** Modelled from the spec: [Task] of [daisy.task] (section 6): its id, the
    tasks it requires, and the pre-check capability reached in the source as
    [task._daisy.pre_check(block)], which returns a boolean or raises. *)
Module Task.
#[local] Unset Elimination Schemes.

Inductive t := mk {
  task_id : TaskId;
  requires : list t;
  pre_check : Block.t → Outcome bool
}.

End Task.

(** Modelled from the spec: [DependencyGraph] of [daisy.dependency_graph]
    (section 6), immutable once built.  [roots] maps a root task to its
    declared block count and its block source; [upstream] and [downstream]
    return the immediate neighbours as blocks.  The scheduler calls the two
    with block ids and, in two places, with block objects, hence [Key]. *)
Record DependencyGraph := mkGraph {
  roots : gmap TaskId (Z * BlockIterator);
  num_blocks : TaskId → Z;
  upstream : Key → list Block.t;
  downstream : Key → list Block.t
}.

(** ** [TaskState] and [TaskBlocks] *)

Record TaskState := mkTaskState {
  started : bool;
  ready_count : Z;
  total_block_count : Z;
  completed_count : Z;
  failed_count : Z;
  orphaned_count : Z;
  processing_count : Z
}.

(** [TaskState.__init__] *)
Definition TaskState_new : TaskState := mkTaskState false 0 0 0 0 0 0.

Definition set_started (v : bool) (ts : TaskState) : TaskState :=
  mkTaskState v (ready_count ts) (total_block_count ts) (completed_count ts)
    (failed_count ts) (orphaned_count ts) (processing_count ts).

Definition set_ready_count (v : Z) (ts : TaskState) : TaskState :=
  mkTaskState (started ts) v (total_block_count ts) (completed_count ts)
    (failed_count ts) (orphaned_count ts) (processing_count ts).

Definition set_total_block_count (v : Z) (ts : TaskState) : TaskState :=
  mkTaskState (started ts) (ready_count ts) v (completed_count ts)
    (failed_count ts) (orphaned_count ts) (processing_count ts).

Definition set_completed_count (v : Z) (ts : TaskState) : TaskState :=
  mkTaskState (started ts) (ready_count ts) (total_block_count ts) v
    (failed_count ts) (orphaned_count ts) (processing_count ts).

Definition set_failed_count (v : Z) (ts : TaskState) : TaskState :=
  mkTaskState (started ts) (ready_count ts) (total_block_count ts)
    (completed_count ts) v (orphaned_count ts) (processing_count ts).

Definition set_orphaned_count (v : Z) (ts : TaskState) : TaskState :=
  mkTaskState (started ts) (ready_count ts) (total_block_count ts)
    (completed_count ts) (failed_count ts) v (processing_count ts).

Definition set_processing_count (v : Z) (ts : TaskState) : TaskState :=
  mkTaskState (started ts) (ready_count ts) (total_block_count ts)
    (completed_count ts) (failed_count ts) (orphaned_count ts) v.

Record TaskBlocks := mkTaskBlocks {
  ready_queue : list Block.t;
  processing_blocks : gset BlockId;
  failed_blocks : gset BlockId;
  orphaned_blocks : gset BlockId;
  completed_blocks : gset BlockId
}.

(** [TaskBlocks.__init__] *)
Definition TaskBlocks_new : TaskBlocks := mkTaskBlocks [] ∅ ∅ ∅ ∅.

Definition set_ready_queue (v : list Block.t) (tb : TaskBlocks) : TaskBlocks :=
  mkTaskBlocks v (processing_blocks tb) (failed_blocks tb)
    (orphaned_blocks tb) (completed_blocks tb).

Definition set_processing_blocks (v : gset BlockId) (tb : TaskBlocks) : TaskBlocks :=
  mkTaskBlocks (ready_queue tb) v (failed_blocks tb)
    (orphaned_blocks tb) (completed_blocks tb).

Definition set_failed_blocks (v : gset BlockId) (tb : TaskBlocks) : TaskBlocks :=
  mkTaskBlocks (ready_queue tb) (processing_blocks tb) v
    (orphaned_blocks tb) (completed_blocks tb).

Definition set_completed_blocks (v : gset BlockId) (tb : TaskBlocks) : TaskBlocks :=
  mkTaskBlocks (ready_queue tb) (processing_blocks tb) (failed_blocks tb)
    (orphaned_blocks tb) v.

(** ** The scheduler object *)

(** What the two [logger] calls of the module emit. *)
Inductive LogRecord :=
  | LogDebugSkip (task : TaskId) (block : BlockId)
  | LogErrorPreCheck (block : Block.t) (task : TaskId) (e : PyExc).

(** The attributes assigned by [Scheduler.__init__], and two pieces of the
    world the methods act on: the records sent to the logger and the calls
    made to the tasks' [pre_check] capability.  [block_statuses] is assigned
    by the constructor and never used again; it is left out. *)
Record Scheduler := mkScheduler {
  dependency_graph : DependencyGraph;
  task_map : gmap TaskId Task.t;
  task_states : gmap TaskId TaskState;
  task_blocks : gmap TaskId TaskBlocks;
  root_tasks : gmap TaskId (Z * BlockIterator);
  completed_surface : gset Key;
  last_prechecked : gmap TaskId (option Block.t * option bool);
  log : list LogRecord;
  pre_check_calls : list (TaskId * Block.t)
}.

Definition set_task_map (v : gmap TaskId Task.t) (s : Scheduler) : Scheduler :=
  mkScheduler (dependency_graph s) v (task_states s) (task_blocks s)
    (root_tasks s) (completed_surface s) (last_prechecked s) (log s)
    (pre_check_calls s).

Definition set_task_states (v : gmap TaskId TaskState) (s : Scheduler) : Scheduler :=
  mkScheduler (dependency_graph s) (task_map s) v (task_blocks s)
    (root_tasks s) (completed_surface s) (last_prechecked s) (log s)
    (pre_check_calls s).

Definition set_task_blocks (v : gmap TaskId TaskBlocks) (s : Scheduler) : Scheduler :=
  mkScheduler (dependency_graph s) (task_map s) (task_states s) v
    (root_tasks s) (completed_surface s) (last_prechecked s) (log s)
    (pre_check_calls s).

Definition set_root_tasks (v : gmap TaskId (Z * BlockIterator)) (s : Scheduler) : Scheduler :=
  mkScheduler (dependency_graph s) (task_map s) (task_states s) (task_blocks s)
    v (completed_surface s) (last_prechecked s) (log s) (pre_check_calls s).

Definition set_completed_surface (v : gset Key) (s : Scheduler) : Scheduler :=
  mkScheduler (dependency_graph s) (task_map s) (task_states s) (task_blocks s)
    (root_tasks s) v (last_prechecked s) (log s) (pre_check_calls s).

Definition set_last_prechecked
    (v : gmap TaskId (option Block.t * option bool)) (s : Scheduler) : Scheduler :=
  mkScheduler (dependency_graph s) (task_map s) (task_states s) (task_blocks s)
    (root_tasks s) (completed_surface s) v (log s) (pre_check_calls s).

Definition set_log (v : list LogRecord) (s : Scheduler) : Scheduler :=
  mkScheduler (dependency_graph s) (task_map s) (task_states s) (task_blocks s)
    (root_tasks s) (completed_surface s) (last_prechecked s) v
    (pre_check_calls s).

Definition set_pre_check_calls (v : list (TaskId * Block.t)) (s : Scheduler) : Scheduler :=
  mkScheduler (dependency_graph s) (task_map s) (task_states s) (task_blocks s)
    (root_tasks s) (completed_surface s) (last_prechecked s) (log s) v.

(** *** Reading the three [defaultdict]s

    What a Python reader of [self.task_states[t]], [self.task_blocks[t]] and
    [self.last_prechecked[t]] sees: the stored entry, or the default the
    factory would build. *)

Definition state_of (s : Scheduler) (t : TaskId) : TaskState :=
  default TaskState_new (task_states s !! t).

Definition blocks_of (s : Scheduler) (t : TaskId) : TaskBlocks :=
  default TaskBlocks_new (task_blocks s !! t).

Definition cache_of (s : Scheduler) (t : TaskId) : option Block.t * option bool :=
  default (None, None) (last_prechecked s !! t).

(** ** The monad: state passing with exceptions *)

Definition M (A : Type) : Type := Scheduler → Outcome A * Scheduler.

#[export] Instance M_ret : MRet M := λ A a s, (Ret a, s).

#[export] Instance M_bind : MBind M := λ A B f c s,
  match c s with
  | (Ret a, s') => f a s'
  | (Raise e, s') => (Raise e, s')
  | (Diverge, s') => (Diverge, s')
  end.

Definition raise {A} (e : PyExc) : M A := λ s, (Raise e, s).

Definition diverge {A} : M A := λ s, (Diverge, s).

Definition get_self : M Scheduler := λ s, (Ret s, s).

Definition update_self (f : Scheduler → Scheduler) : M unit := λ s, (Ret (), f s).

(** [for x in l: body(x)] *)
Fixpoint for_each {A} (l : list A) (body : A → M unit) : M unit :=
  match l with
  | [] => mret ()
  | x :: l' => body x ;; for_each l' body
  end.

(** *** Subscripting the [defaultdict]s

    A missing key is first given the factory's default, then the (shared,
    mutable) entry is returned. *)

Definition task_states_item (t : TaskId) : M TaskState := λ s,
  match task_states s !! t with
  | Some ts => (Ret ts, s)
  | None => (Ret TaskState_new, set_task_states (<[t := TaskState_new]> (task_states s)) s)
  end.

Definition task_blocks_item (t : TaskId) : M TaskBlocks := λ s,
  match task_blocks s !! t with
  | Some tb => (Ret tb, s)
  | None => (Ret TaskBlocks_new, set_task_blocks (<[t := TaskBlocks_new]> (task_blocks s)) s)
  end.

Definition last_prechecked_item (t : TaskId) : M (option Block.t * option bool) := λ s,
  match last_prechecked s !! t with
  | Some c => (Ret c, s)
  | None => (Ret (None, None), set_last_prechecked (<[t := (None, None)]> (last_prechecked s)) s)
  end.

(** In-place mutation of the entry obtained by subscripting. *)
Definition task_states_mutate (t : TaskId) (f : TaskState → TaskState) : M unit :=
  ts ← task_states_item t;
  update_self (λ s, set_task_states (<[t := f ts]> (task_states s)) s).

Definition task_blocks_mutate (t : TaskId) (f : TaskBlocks → TaskBlocks) : M unit :=
  tb ← task_blocks_item t;
  update_self (λ s, set_task_blocks (<[t := f tb]> (task_blocks s)) s).

(** [set.remove(x)]: raises [KeyError] when [x] is not a member. *)
Definition set_remove `{Countable K} (x : K) (X : gset K) : Outcome (gset K) :=
  if decide (x ∈ X) then Ret (X ∖ {[x]}) else Raise KeyError.

Definition lift {A} (o : Outcome A) : M A := λ s, (o, s).

Definition logger (r : LogRecord) : M unit :=
  update_self (λ s, set_log (log s ++ [r]) s).

(** ** [Scheduler.__init__] *)

(** [self.add]: the class defines no method and assigns no attribute named
    [add], so the attribute lookup raises before anything is called. *)
Definition Scheduler_add (upstream_task : Task.t) : M unit := raise AttributeError.

Definition __init_task (task : Task.t) : M unit :=
  self ← get_self;
  if decide (task_map self !! Task.task_id task = None) then
    update_self (λ s, set_task_map (<[Task.task_id task := task]> (task_map s)) s);;
    task_states_mutate (Task.task_id task)
      (set_total_block_count (num_blocks (dependency_graph self) (Task.task_id task)));;
    match root_tasks self !! Task.task_id task with
    | Some (n, _) => task_states_mutate (Task.task_id task) (set_ready_count n)
    | None => mret ()
    end;;
    for_each (Task.requires task) Scheduler_add
  else mret ().

(** The object before the constructor body has run, with the graph built
    for the tasks. *)
Definition blank (G : DependencyGraph) : Scheduler :=
  mkScheduler G ∅ ∅ ∅ ∅ ∅ ∅ [] [].

Definition __init___body (tasks : list Task.t) : M unit :=
  self ← get_self;
  update_self (set_task_map ∅);;
  update_self (set_task_states ∅);;
  update_self (set_task_blocks ∅);;
  update_self (set_root_tasks (roots (dependency_graph self)));;
  for_each tasks __init_task;;
  update_self (set_completed_surface ∅);;
  update_self (set_last_prechecked ∅).

(** [Scheduler(tasks)].  [G] is [DependencyGraph(tasks)], built by the
    collaborator.  When the body raises, no scheduler object is obtained. *)
Definition __init__ (G : DependencyGraph) (tasks : list Task.t) : Outcome Scheduler :=
  match __init___body tasks (blank G) with
  | (Ret _, s) => Ret s
  | (Raise e, _) => Raise e
  | (Diverge, _) => Diverge
  end.

(** ** [has_next] *)

Definition has_next (task_id : TaskId) : M bool :=
  tb ← task_blocks_item task_id;
  let has_ready_block := bool_decide (0 < length (ready_queue tb))%nat in
  if has_ready_block then mret true
  else
    ts ← task_states_item task_id;
    if bool_decide (ready_count ts > 0) then
      self ← get_self;
      match root_tasks self !! task_id with
      | None => raise KeyError
      | Some (n, it) =>
          match iter_next it with
          | (Some next_block, it') =>
              update_self (λ s, set_root_tasks (<[task_id := (n, it')]> (root_tasks s)) s);;
              task_blocks_mutate task_id
                (λ tb, set_ready_queue (ready_queue tb ++ [next_block]) tb);;
              mret true
          | (None, _) => raise NotImplementedError
          end
      end
    else mret false.

(** ** [update_complete_surface], [update_ready_queue], [update_failed_surface] *)

Definition completed_surface_remove (k : Key) : M unit :=
  self ← get_self;
  X ← lift (set_remove k (completed_surface self));
  update_self (set_completed_surface X).

(** The body of the loop of [update_complete_surface], for one
    [upstream_block]. *)
Definition update_complete_surface_step (upstream_block : Block.t) : M unit :=
  self ← get_self;
  if decide (key_of_block upstream_block ∉ completed_surface self) then mret ()
  else
    let downstream_blocks :=
      downstream (dependency_graph self) (key_of_block upstream_block) in
    if forallb (λ down, bool_decide (key_of_block down ∈ completed_surface self))
         downstream_blocks
    then completed_surface_remove (key_of_block upstream_block)
    else mret ().

Definition update_complete_surface (block_id : BlockId) : M unit :=
  self ← get_self;
  let upstream_blocks := upstream (dependency_graph self) (KId block_id) in
  update_self (λ s, set_completed_surface ({[KId block_id]} ∪ completed_surface s) s);;
  for_each upstream_blocks update_complete_surface_step.

(** The body of the loop of [update_ready_queue], for one [down]. *)
Definition update_ready_queue_step (down : Block.t)
    (updated_tasks : gmap TaskId TaskState) : M (gmap TaskId TaskState) :=
  self ← get_self;
  let upstream_blocks :=
    upstream (dependency_graph self) (KId (Block.block_id down)) in
  if forallb (λ up, bool_decide (KId (Block.block_id up) ∈ completed_surface self))
       upstream_blocks
  then
    task_blocks_mutate (Block.task_id down)
      (λ tb, set_ready_queue (ready_queue tb ++ [down]) tb);;
    ts ← task_states_item (Block.task_id down);
    mret (<[Block.task_id down := ts]> updated_tasks)
  else mret updated_tasks.

Fixpoint update_ready_queue_loop (downstream_blocks : list Block.t)
    (updated_tasks : gmap TaskId TaskState) : M (gmap TaskId TaskState) :=
  match downstream_blocks with
  | [] => mret updated_tasks
  | down :: rest =>
      updated_tasks ← update_ready_queue_step down updated_tasks;
      update_ready_queue_loop rest updated_tasks
  end.

(** The mapping returned holds the [TaskState] objects themselves; nothing
    writes to a [TaskState] between the moment one is stored in the mapping
    and the return, so the mapping is given with the states' values. *)
Definition update_ready_queue (block_id : BlockId) : M (gmap TaskId TaskState) :=
  self ← get_self;
  update_ready_queue_loop (downstream (dependency_graph self) (KId block_id)) ∅.

(** [failed_blocks.append(...)]: [failed_blocks] is a [set], which has no
    attribute [append]. *)
Definition set_append (X : gset BlockId) (x : BlockId) : M unit := raise AttributeError.

(** [self.task_blocks[...].add(...)]: a [TaskBlocks] object has no attribute
    [add]. *)
Definition TaskBlocks_add (tb : TaskBlocks) (x : BlockId) : M unit := raise AttributeError.

(** The [while] loop of [update_failed_surface]; [set.pop()] takes the first
    element in the set's enumeration order.  [fuel] bounds the number of
    iterations. *)
Fixpoint update_failed_surface_loop (fuel : nat)
    (downstream_set : gset (TaskId * BlockId)) : M unit :=
  match fuel with
  | O => diverge
  | S fuel' =>
      match elements downstream_set with
      | [] => mret ()
      | orphan :: _ =>
          let downstream_set := downstream_set ∖ {[orphan]} in
          tb ← task_blocks_item orphan.1;
          TaskBlocks_add tb orphan.2;;
          task_states_mutate orphan.1
            (λ ts, set_orphaned_count (orphaned_count ts + 1) ts);;
          self ← get_self;
          update_failed_surface_loop fuel'
            (downstream_set ∪
             list_to_set (Block.ident <$>
                            downstream (dependency_graph self) (KBlock orphan)))
      end
  end.

Definition update_failed_surface (fuel : nat) (block_id : BlockId) : M unit :=
  tb ← task_blocks_item block_id.1;
  set_append (failed_blocks tb) block_id;;
  self ← get_self;
  update_failed_surface_loop fuel
    (list_to_set (Block.ident <$>
                    downstream (dependency_graph self) (KId block_id))).

(** ** [release_block] *)

Definition processing_blocks_remove (task_id : TaskId) (block_id : BlockId) : M unit :=
  tb ← task_blocks_item task_id;
  X ← lift (set_remove block_id (processing_blocks tb));
  update_self (λ s, set_task_blocks
                      (<[task_id := set_processing_blocks X tb]> (task_blocks s)) s).

(** Returns [Some] of the mapping, or [None] where the Python falls off the
    end of the function (a status other than SUCCESS or FAILED). *)
Definition release_block (fuel : nat) (block : Block.t)
    : M (option (gmap TaskId TaskState)) :=
  let task_id := Block.task_id block in
  if decide (Block.status block = SUCCESS) then
    processing_blocks_remove task_id (Block.block_id block);;
    task_blocks_mutate task_id
      (λ tb, set_completed_blocks ({[Block.block_id block]} ∪ completed_blocks tb) tb);;
    task_states_mutate task_id
      (λ ts, set_processing_count (processing_count ts - 1) ts);;
    task_states_mutate task_id
      (λ ts, set_completed_count (completed_count ts + 1) ts);;
    update_complete_surface (Block.block_id block);;
    updated_tasks ← update_ready_queue (Block.block_id block);
    mret (Some updated_tasks)
  else if decide (Block.status block = FAILED) then
    processing_blocks_remove task_id (Block.block_id block);;
    task_blocks_mutate task_id
      (λ tb, set_failed_blocks ({[Block.block_id block]} ∪ failed_blocks tb) tb);;
    task_states_mutate task_id
      (λ ts, set_processing_count (processing_count ts - 1) ts);;
    task_states_mutate task_id
      (λ ts, set_failed_count (failed_count ts + 1) ts);;
    update_failed_surface fuel (Block.block_id block);;
    mret (Some ∅)
  else mret None.

(** ** [precheck] *)

(** [try: body except Exception as e: handler(e)] *)
Definition try_except {A} (body : M A) (handler : PyExc → M A) : M A := λ s,
  match body s with
  | (Raise e, s') => if is_Exception e then handler e s' else (Raise e, s')
  | r => r
  end.

(** [try: x = body finally: final].  [final] receives the local variable
    [x]: bound when the body completed, unbound ([None]) when an exception
    is passing through.  An exception raised by [final] replaces the one in
    flight. *)
Definition try_finally {A} (body : M A) (final : option A → M unit) : M A := λ s,
  match body s with
  | (Ret a, s') =>
      match final (Some a) s' with
      | (Ret _, s'') => (Ret a, s'')
      | (Raise e, s'') => (Raise e, s'')
      | (Diverge, s'') => (Diverge, s'')
      end
  | (Raise e, s') =>
      match final None s' with
      | (Ret _, s'') => (Raise e, s'')
      | (Raise e', s'') => (Raise e', s'')
      | (Diverge, s'') => (Diverge, s'')
      end
  | (Diverge, s') => (Diverge, s')
  end.

(** [self.tasks]: the constructor assigns [task_map], [task_states],
    [task_blocks], [root_tasks], [completed_surface], [block_statuses],
    [last_prechecked] and [dependency_graph]; the class has no attribute
    named [tasks], so reading it raises. *)
Definition Scheduler_tasks : M (gmap TaskId Task.t) := raise AttributeError.

(** Calling the capability of a task: the call is recorded, and its result
    or its exception is the capability's. *)
Definition call_pre_check (task : Task.t) (block : Block.t) : M bool := λ s,
  (Task.pre_check task block,
   set_pre_check_calls (pre_check_calls s ++ [(Task.task_id task, block)]) s).

(** The guarded expression [self.tasks[task_id]._daisy.pre_check(block)],
    evaluated left to right. *)
Definition guarded_pre_check (task_id : TaskId) (block : Block.t) : M bool :=
  tasks ← Scheduler_tasks;
  match tasks !! task_id with
  | None => raise KeyError
  | Some task => call_pre_check task block
  end.

(** [cached != block], where [cached] is [None] or a block. *)
Definition differs (cached : option Block.t) (block : Block.t) : bool :=
  match cached with
  | None => true
  | Some b => negb (Block.eqb b block)
  end.

(** The value returned is the second component of the cache entry: a boolean,
    or the [None] of the default entry. *)
Definition precheck (task_id : TaskId) (block : Block.t) : M (option bool) :=
  cached ← last_prechecked_item task_id;
  (if differs cached.1 block then
     try_finally
       (try_except (guarded_pre_check task_id block)
          (λ e, logger (LogErrorPreCheck block task_id e);; mret false))
       (λ pre_check_ret,
          match pre_check_ret with
          | Some r =>
              update_self (λ s, set_last_prechecked
                 (<[task_id := (Some block, Some r)]> (last_prechecked s)) s)
          | None => raise UnboundLocalError
          end);;
     mret ()
   else mret ());;
  cached ← last_prechecked_item task_id;
  mret cached.2.

(** Truth value of what [precheck] returns. *)
Definition truthy (r : option bool) : bool :=
  match r with Some true => true | _ => false end.

(** ** [acquire_block] *)

(** [ready_queue.popleft()] *)
Definition ready_queue_popleft (task_id : TaskId) : M Block.t :=
  tb ← task_blocks_item task_id;
  match ready_queue tb with
  | [] => raise IndexError
  | block :: rest =>
      update_self (λ s, set_task_blocks
                          (<[task_id := set_ready_queue rest tb]> (task_blocks s)) s);;
      mret block
  end.

(** [fuel] bounds the depth of the recursion (and the loop of the failure
    cascade reached through [release_block]).  In the skip branch the
    assignment [block.status = BlockStatus.SUCCESS] writes to the block that
    has just left the ready queue; that block is what [release_block]
    receives. *)
Fixpoint acquire_block (fuel : nat) (task_id : TaskId) : M (option Block.t) :=
  match fuel with
  | O => diverge
  | S fuel' =>
      ready ← has_next task_id;
      if (ready : bool) then
        block ← ready_queue_popleft task_id;
        pre_check_ret ← precheck task_id block;
        if truthy pre_check_ret then
          logger (LogDebugSkip task_id (Block.block_id block));;
          let block := Block.with_status SUCCESS block in
          release_block fuel' block;;
          acquire_block fuel' task_id
        else
          task_states_mutate task_id (λ ts, set_started (started ts || true) ts);;
          task_blocks_mutate task_id
            (λ tb, set_processing_blocks
                     ({[Block.block_id block]} ∪ processing_blocks tb) tb);;
          task_states_mutate task_id
            (λ ts, set_processing_count (processing_count ts + 1) ts);;
          mret (Some block)
      else mret None
  end.

(** * Part II: the notions the properties are stated with *)

(** ** Views of a scheduler *)

(** Subscripting a [defaultdict] may create an entry, but no reader of the
    scheduler can tell: the views are those of the state before. *)
Definition touch_states (t : TaskId) (s : Scheduler) : Scheduler :=
  set_task_states (<[t := state_of s t]> (task_states s)) s.

Definition touch_blocks (t : TaskId) (s : Scheduler) : Scheduler :=
  set_task_blocks (<[t := blocks_of s t]> (task_blocks s)) s.

Definition touch_cache (t : TaskId) (s : Scheduler) : Scheduler :=
  set_last_prechecked (<[t := cache_of s t]> (last_prechecked s)) s.

(** Reduce the projections of the scheduler applied to its setters. *)
Ltac fields :=
  cbn [dependency_graph task_map task_states task_blocks root_tasks
       completed_surface last_prechecked log pre_check_calls
       set_task_map set_task_states set_task_blocks set_root_tasks
       set_completed_surface set_last_prechecked set_log set_pre_check_calls
       touch_states touch_blocks touch_cache fst snd] in *.

(** The same for [TaskState] and [TaskBlocks]. *)
Ltac tfields :=
  cbn [started ready_count total_block_count completed_count failed_count
       orphaned_count processing_count set_started set_ready_count
       set_total_block_count set_completed_count set_failed_count
       set_orphaned_count set_processing_count
       ready_queue processing_blocks failed_blocks orphaned_blocks
       completed_blocks set_ready_queue set_processing_blocks
       set_failed_blocks set_completed_blocks] in *.

(** Normalise the fields of a state built by a run of setters. *)
Ltac norm :=
  repeat (progress (fields; tfields; unfold state_of, blocks_of, cache_of;
                    rewrite ?lookup_insert_eq, ?insert_insert_eq;
                    cbn [default from_option id mret M_ret]; cbv beta iota)).

(** Two schedulers that no reader can tell apart. *)
Record same_view (s s' : Scheduler) : Prop := mkSameView {
  sv_graph : dependency_graph s' = dependency_graph s;
  sv_task_map : task_map s' = task_map s;
  sv_states : ∀ t, state_of s' t = state_of s t;
  sv_blocks : ∀ t, blocks_of s' t = blocks_of s t;
  sv_roots : root_tasks s' = root_tasks s;
  sv_surface : completed_surface s' = completed_surface s;
  sv_cache : ∀ t, cache_of s' t = cache_of s t;
  sv_log : log s' = log s;
  sv_calls : pre_check_calls s' = pre_check_calls s
}.

(** ** States reached by the methods *)

(** The state in which [acquire_block] hands out the head [b] of the ready
    queue of [t], the pre-check of [b] having been evaluated afresh. *)
Definition handed_out (t : TaskId) (b : Block.t) (rest : list Block.t)
    (s : Scheduler) : Scheduler :=
  let ts := state_of s t in
  let tb := blocks_of s t in
  set_task_states
    (<[t := set_processing_count (processing_count ts + 1)
              (set_started (started ts || true) ts)]> (task_states s))
    (set_task_blocks
       (<[t := set_processing_blocks ({[Block.block_id b]} ∪ processing_blocks tb)
                 (set_ready_queue rest tb)]> (task_blocks s))
       (set_last_prechecked (<[t := (Some b, Some false)]> (last_prechecked s))
          (set_log (log s ++ [LogErrorPreCheck b t AttributeError]) s))).

(** The state in which [release_block] stops when given a FAILED block that
    is being processed. *)
Definition failed_state (b : Block.t) (s : Scheduler) : Scheduler :=
  let t := Block.task_id b in
  let ts := state_of s t in
  let tb := blocks_of s t in
  set_task_states
    (<[t := set_failed_count (failed_count ts + 1)
              (set_processing_count (processing_count ts - 1) ts)]> (task_states s))
    (set_task_blocks
       (<[t := set_failed_blocks ({[Block.block_id b]} ∪ failed_blocks tb)
                 (set_processing_blocks (processing_blocks tb ∖ {[Block.block_id b]}) tb)]>
          (task_blocks s)) s).

(** The only keys the loop can remove are block objects; block ids stay. *)
Definition surface_shrunk (X Y : gset Key) : Prop :=
  Y ⊆ X ∧ ∀ i, KId i ∈ X → KId i ∈ Y.

(** The test of [update_ready_queue] on [down]: every immediate upstream
    block's id is in the frontier. *)
Definition is_ready (s : Scheduler) (down : Block.t) : bool :=
  forallb (λ up, bool_decide (KId (Block.block_id up) ∈ completed_surface s))
    (upstream (dependency_graph s) (KId (Block.block_id down))).

(** What [update_ready_queue] leaves alone: everything but the ready queues. *)
Record same_but_queues (s s' : Scheduler) : Prop := mkSameButQueues {
  sq_graph : dependency_graph s' = dependency_graph s;
  sq_task_map : task_map s' = task_map s;
  sq_states : ∀ t, state_of s' t = state_of s t;
  sq_processing : ∀ t, processing_blocks (blocks_of s' t) = processing_blocks (blocks_of s t);
  sq_failed : ∀ t, failed_blocks (blocks_of s' t) = failed_blocks (blocks_of s t);
  sq_orphaned : ∀ t, orphaned_blocks (blocks_of s' t) = orphaned_blocks (blocks_of s t);
  sq_completed : ∀ t, completed_blocks (blocks_of s' t) = completed_blocks (blocks_of s t);
  sq_roots : root_tasks s' = root_tasks s;
  sq_surface : completed_surface s' = completed_surface s;
  sq_cache : last_prechecked s' = last_prechecked s;
  sq_log : log s' = log s;
  sq_calls : pre_check_calls s' = pre_check_calls s
}.

(** The state [s'] and mapping [m] produced by releasing [b] as SUCCESS
    from [s]. *)
Record released (b : Block.t) (s s' : Scheduler) (m : gmap TaskId TaskState) : Prop :=
  mkReleased {
  rel_graph : dependency_graph s' = dependency_graph s;
  rel_task_map : task_map s' = task_map s;
  rel_roots : root_tasks s' = root_tasks s;
  rel_cache : last_prechecked s' = last_prechecked s;
  rel_log : log s' = log s;
  rel_calls : pre_check_calls s' = pre_check_calls s;
  rel_surface :
    surface_shrunk ({[KId (Block.block_id b)]} ∪ completed_surface s)
      (completed_surface s');
  rel_completed : ∀ t,
    completed_blocks (blocks_of s' t) =
    if decide (Block.task_id b = t)
    then {[Block.block_id b]} ∪ completed_blocks (blocks_of s t)
    else completed_blocks (blocks_of s t);
  rel_processing : ∀ t,
    processing_blocks (blocks_of s' t) =
    if decide (Block.task_id b = t)
    then processing_blocks (blocks_of s t) ∖ {[Block.block_id b]}
    else processing_blocks (blocks_of s t);
  rel_failed : ∀ t, failed_blocks (blocks_of s' t) = failed_blocks (blocks_of s t);
  rel_orphaned : ∀ t, orphaned_blocks (blocks_of s' t) = orphaned_blocks (blocks_of s t);
  rel_states : ∀ t,
    state_of s' t =
    if decide (Block.task_id b = t)
    then set_completed_count (completed_count (state_of s t) + 1)
           (set_processing_count (processing_count (state_of s t) - 1) (state_of s t))
    else state_of s t;
  rel_queue : ∀ t,
    ready_queue (blocks_of s' t) =
    ready_queue (blocks_of s t) ++
    filter (λ d, Block.task_id d = t ∧ is_ready s' d)
      (downstream (dependency_graph s) (KId (Block.block_id b)));
  rel_mapping : ∀ t,
    m !! t =
    if decide (Exists (λ d, Block.task_id d = t ∧ is_ready s' d)
                 (downstream (dependency_graph s) (KId (Block.block_id b))))
    then Some (state_of s' t) else None
}.

(** ** Frames

    [R s s'] relates the state before a computation to the state after. *)

(** A computation preserves [R] when every run, whether it returns, raises
    or runs out of fuel, ends in a state related to the one it started from. *)
Definition preserves (R : relation Scheduler) {A} (c : M A) : Prop :=
  ∀ s, R s (c s).2.

(** What [has_next], [precheck] and the hand-out branch of [acquire_block]
    write to a [TaskState] or a [TaskBlocks]: neither the [ready_count] nor
    the orphan bookkeeping nor the completed set. *)
Definition minor_state_update (f : TaskState → TaskState) : Prop :=
  ∀ ts, ready_count (f ts) = ready_count ts
        ∧ orphaned_count (f ts) = orphaned_count ts.

Definition minor_blocks_update (f : TaskBlocks → TaskBlocks) : Prop :=
  ∀ tb, completed_blocks (f tb) = completed_blocks tb
        ∧ orphaned_blocks (f tb) = orphaned_blocks tb.

(** A relation that the bookkeeping outside [release_block] respects: minor
    updates of the per-task records, and any change to the root sources,
    the pre-check cache, the log or the call record. *)
Record frame (R : relation Scheduler) : Prop := mkFrame {
  fr_preorder : PreOrder R;
  fr_states : ∀ t (f : TaskState → TaskState) s,
    minor_state_update f →
    R s (set_task_states (<[t := f (state_of s t)]> (task_states s)) s);
  fr_blocks : ∀ t (f : TaskBlocks → TaskBlocks) s,
    minor_blocks_update f →
    R s (set_task_blocks (<[t := f (blocks_of s t)]> (task_blocks s)) s);
  fr_roots : ∀ m s, R s (set_root_tasks m s);
  fr_cache : ∀ m s, R s (set_last_prechecked m s);
  fr_log : ∀ l s, R s (set_log l s);
  fr_calls : ∀ l s, R s (set_pre_check_calls l s)
}.

(** Apply a frame lemma, leaving the preorder to instance search. *)
Ltac pa l := apply l; try typeclasses eauto.

(** What no method changes: the graph, the [ready_count] of every task
    and the orphan bookkeeping. *)
Record unchanged (s s' : Scheduler) : Prop := mkUnchanged {
  un_graph : dependency_graph s' = dependency_graph s;
  un_ready_count : ∀ t, ready_count (state_of s' t) = ready_count (state_of s t);
  un_orphaned_count : ∀ t, orphaned_count (state_of s' t) = orphaned_count (state_of s t);
  un_orphaned_blocks : ∀ t, orphaned_blocks (blocks_of s' t) = orphaned_blocks (blocks_of s t)
}.

(** ** The frontier and the completed sets *)

(** The id [i] has been completed: some task holds it in [completed_blocks]. *)
Definition is_completed (s : Scheduler) (i : BlockId) : Prop :=
  map_Exists (λ _ tb, i ∈ completed_blocks tb) (task_blocks s).

#[export] Instance is_completed_dec s i : Decision (is_completed s i).
Proof. unfold is_completed. apply _. Defined.

(** The frontier holds block ids only, each of a completed block, and it
    holds the id of every completed block. *)
Record Inv (s : Scheduler) : Prop := mkInv {
  inv_surface_completed : ∀ k, k ∈ completed_surface s → ∃ i, k = KId i ∧ is_completed s i;
  inv_completed_surface : ∀ i, is_completed s i → KId i ∈ completed_surface s
}.

(** [Inv] as a relation between the state before and the state after. *)
Definition keeps_Inv (s s' : Scheduler) : Prop := Inv s → Inv s'.

(** ** Construction *)

(** The block count declared by the root descriptor of [t], 0 when [t] is
    not a root. *)
Definition root_count (rt : gmap TaskId (Z * BlockIterator)) (t : TaskId) : Z :=
  match rt !! t with Some (n, _) => n | None => 0 end.

(** The [ready_count] the constructor gives to task [t]. *)
Definition seeded (G : DependencyGraph) (tasks : list Task.t) (t : TaskId) : Z :=
  if decide (t ∈ Task.task_id <$> tasks) then root_count (roots G) t else 0.

(** While the constructor runs: the tasks registered so far carry their
    root count, the others the default 0. *)
Definition seeding (s : Scheduler) : Prop :=
  ∀ t, ready_count (state_of s t) =
       (if decide (t ∈ dom (task_map s)) then root_count (root_tasks s) t else 0)
       ∧ orphaned_count (state_of s t) = 0.

(** What registering the tasks [ids] does to the object under
    construction. *)
Record init_step (ids : gset TaskId) (s s' : Scheduler) : Prop := mkInitStep {
  is_graph : dependency_graph s' = dependency_graph s;
  is_blocks : task_blocks s' = task_blocks s;
  is_roots : root_tasks s' = root_tasks s;
  is_surface : completed_surface s' = completed_surface s;
  is_cache : last_prechecked s' = last_prechecked s;
  is_log : log s' = log s;
  is_calls : pre_check_calls s' = pre_check_calls s;
  is_dom : dom (task_map s') = ids ∪ dom (task_map s);
  is_seeding : seeding s → seeding s'
}.

(** ** Reachable states *)

(** The calls of the driving loop.  [fuel] is the bound given to the
    recursion of [acquire_block] and to the loop of the failure cascade. *)
Inductive Call :=
  | CallHasNext (task_id : TaskId)
  | CallAcquireBlock (fuel : nat) (task_id : TaskId)
  | CallReleaseBlock (fuel : nat) (block : Block.t).

(** The scheduler after a call, whether the call returned or raised. *)
Definition after (c : Call) (s : Scheduler) : Scheduler :=
  match c with
  | CallHasNext t => (has_next t s).2
  | CallAcquireBlock fuel t => (acquire_block fuel t s).2
  | CallReleaseBlock fuel b => (release_block fuel b s).2
  end.

(** The states of a scheduler built over [tasks] with graph [G] and driven
    by any sequence of calls. *)
Inductive reachable (G : DependencyGraph) (tasks : list Task.t) : Scheduler → Prop :=
  | reach_init s : __init__ G tasks = Ret s → reachable G tasks s
  | reach_call c s : reachable G tasks s → reachable G tasks (after c s).

(** ** Scenarios *)

(** A graph answers for a block and for its id alike. *)
Definition key_id (k : Key) : BlockId :=
  match k with KId i => i | KBlock b => b.2 end.

(** Three tasks in a chain: A (root, two blocks), B (one block that depends
    on both blocks of A), C (one block that depends on B's block). *)
Module Chain.

Definition a0 := Block.mk "A" ("A", 0) PENDING.

Definition a1 := Block.mk "A" ("A", 1) PENDING.

Definition b0 := Block.mk "B" ("B", 0) PENDING.

Definition c0 := Block.mk "C" ("C", 0) PENDING.

Definition graph : DependencyGraph := {|
  roots := {[ "A" := (2, iter_of_list [a0; a1]) ]};
  num_blocks := λ t,
    if decide (t = "A") then 2
    else if decide (t = "B") then 1
    else if decide (t = "C") then 1 else 0;
  upstream := λ k,
    if decide (key_id k = ("B", 0)) then [a0; a1]
    else if decide (key_id k = ("C", 0)) then [b0] else [];
  downstream := λ k,
    if decide (key_id k = ("A", 0)) then [b0]
    else if decide (key_id k = ("A", 1)) then [b0]
    else if decide (key_id k = ("B", 0)) then [c0] else []
|}.

(** The block edges come from the graph.  The tasks are given with an
    empty [requires()]; [B_requires_A] and [C_requires_B] below are the same
    tasks with their task-level requirements, over which the constructor
    raises.  The pre-check of A reports every block as already done; that of
    B raises. *)
Definition A := Task.mk "A" [] (λ _, Ret true).

Definition B := Task.mk "B" [] (λ _, Raise RuntimeError).

Definition C := Task.mk "C" [] (λ _, Ret false).

Definition tasks := [A; B; C].

Definition B_requires_A := Task.mk "B" [A] (λ _, Raise RuntimeError).

Definition C_requires_B := Task.mk "C" [B_requires_A] (λ _, Ret false).

Definition s0 : Scheduler :=
  match __init__ graph tasks with Ret s => s | _ => blank graph end.

(** The driving loop: acquire and release A's first block, acquire A's
    second block, release it. *)
Definition s1 := after (CallAcquireBlock 1 "A") s0.

Definition s2 := after (CallReleaseBlock 1 (Block.with_status SUCCESS a0)) s1.

Definition s3 := after (CallAcquireBlock 1 "A") s2.

Definition s4 := after (CallReleaseBlock 1 (Block.with_status SUCCESS a1)) s3.

End Chain.

(** One root task with a single block and no edge. *)
Module Leaf.

Definition l0 := Block.mk "L" ("L", 0) PENDING.

Definition graph : DependencyGraph := {|
  roots := {[ "L" := (1, iter_of_list [l0]) ]};
  num_blocks := λ t, if decide (t = "L") then 1 else 0;
  upstream := λ _, [];
  downstream := λ _, []
|}.

Definition L := Task.mk "L" [] (λ _, Ret false).

Definition tasks := [L].

Definition s0 : Scheduler :=
  match __init__ graph tasks with Ret s => s | _ => blank graph end.

Definition s1 := after (CallAcquireBlock 1 "L") s0.

Definition s2 := after (CallReleaseBlock 1 (Block.with_status SUCCESS l0)) s1.

End Leaf.

(** A diamond inside one task: t0 has downstream t1 and t2, both have
    downstream t3; t0 is the only block without upstream blocks. *)
Module Diamond.

Definition t0 := Block.mk "T" ("T", 0) PENDING.

Definition t1 := Block.mk "T" ("T", 1) PENDING.

Definition t2 := Block.mk "T" ("T", 2) PENDING.

Definition t3 := Block.mk "T" ("T", 3) PENDING.

Definition graph : DependencyGraph := {|
  roots := {[ "T" := (1, iter_of_list [t0]) ]};
  num_blocks := λ t, if decide (t = "T") then 4 else 0;
  upstream := λ k,
    if decide (key_id k = ("T", 1)) then [t0]
    else if decide (key_id k = ("T", 2)) then [t0]
    else if decide (key_id k = ("T", 3)) then [t1; t2] else [];
  downstream := λ k,
    if decide (key_id k = ("T", 0)) then [t1; t2]
    else if decide (key_id k = ("T", 1)) then [t3]
    else if decide (key_id k = ("T", 2)) then [t3] else []
|}.

Definition tasks := [Task.mk "T" [] (λ _, Ret false)].

Definition s0 : Scheduler :=
  match __init__ graph tasks with Ret s => s | _ => blank graph end.

Definition s1 := after (CallAcquireBlock 1 "T") s0.

(** The blocks reachable from [todo] through [downstream], by a search
    that expands every block once. *)
Fixpoint descendants (fuel : nat) (todo : list Block.t) (seen : list Block.t)
    : list Block.t :=
  match fuel with
  | O => seen
  | S fuel' =>
      match todo with
      | [] => seen
      | x :: todo' =>
          if bool_decide (Block.ident x ∈ Block.ident <$> seen)
          then descendants fuel' todo' seen
          else descendants fuel'
                 (todo' ++ downstream graph (KId (Block.block_id x)))
                 (seen ++ [x])
      end
  end.

End Diamond.

(** ** Predicates of the claims *)

(** All immediate upstream blocks of [d] have been completed. *)
Definition upstream_completed (G : DependencyGraph) (s : Scheduler) (d : Block.t) : Prop :=
  Forall (λ up, is_completed s (Block.block_id up))
    (upstream G (KId (Block.block_id d))).

#[export] Instance upstream_completed_dec G s d : Decision (upstream_completed G s d).
Proof. unfold upstream_completed. apply _. Defined.


(** ** Further notions

    States and relations used by the properties of the last part, and the
    remaining definitions of the module. *)

(** The state in which [has_next] has pulled [b] from the root source [it]
    of [t] into the (empty) ready queue. *)
Definition pulled_state (t : TaskId) (n : Z) (it : BlockIterator) (b : Block.t)
    (s : Scheduler) : Scheduler :=
  set_task_blocks
    (<[t := set_ready_queue (ready_queue (blocks_of s t) ++ [b]) (blocks_of s t)]>
       (task_blocks s))
    (set_root_tasks (<[t := (n, mkIter (source it) (S (position it)))]> (root_tasks s))
       (touch_states t s)).

(** The bookkeeping of the hand-out branch of [acquire_block]: the head [b]
    leaves the ready queue of [t], its id enters [processing_blocks]. *)
Definition hand_out (t : TaskId) (b : Block.t) (rest : list Block.t)
    (s : Scheduler) : Scheduler :=
  let ts := state_of s t in
  let tb := blocks_of s t in
  set_task_states
    (<[t := set_processing_count (processing_count ts + 1)
              (set_started (started ts || true) ts)]> (task_states s))
    (set_task_blocks
       (<[t := set_processing_blocks ({[Block.block_id b]} ∪ processing_blocks tb)
                 (set_ready_queue rest tb)]> (task_blocks s)) s).

(** What one pull from a root source does: called with an empty ready queue
    and a positive [ready_count], [has_next] moves the next block [b] of the
    source of [t] into the queue and advances the source by one. *)
Record pulled (t : TaskId) (b : Block.t) (s s' : Scheduler) : Prop := mkPulled {
  pl_graph : dependency_graph s' = dependency_graph s;
  pl_task_map : task_map s' = task_map s;
  pl_states : ∀ t', state_of s' t' = state_of s t';
  pl_empty : ready_queue (blocks_of s t) = [];
  pl_ready_count : ready_count (state_of s t) > 0;
  pl_blocks : ∀ t',
    blocks_of s' t' =
    if decide (t = t') then set_ready_queue [b] (blocks_of s t) else blocks_of s t';
  pl_roots : ∃ n it,
    root_tasks s !! t = Some (n, it) ∧ source it (position it) = Some b
    ∧ root_tasks s' = <[t := (n, mkIter (source it) (S (position it)))]> (root_tasks s);
  pl_surface : completed_surface s' = completed_surface s;
  pl_cache : last_prechecked s' = last_prechecked s;
  pl_log : log s' = log s;
  pl_calls : pre_check_calls s' = pre_check_calls s
}.

(** What handing out the head [b] of the ready queue of [t] does. *)
Record handed (t : TaskId) (b : Block.t) (s s' : Scheduler) : Prop := mkHanded {
  hd_graph : dependency_graph s' = dependency_graph s;
  hd_task_map : task_map s' = task_map s;
  hd_roots : root_tasks s' = root_tasks s;
  hd_surface : completed_surface s' = completed_surface s;
  hd_calls : pre_check_calls s' = pre_check_calls s;
  hd_blocks : ∃ rest,
    ready_queue (blocks_of s t) = b :: rest
    ∧ ∀ t', blocks_of s' t' =
            if decide (t = t')
            then set_processing_blocks
                   ({[Block.block_id b]} ∪ processing_blocks (blocks_of s t))
                   (set_ready_queue rest (blocks_of s t))
            else blocks_of s t';
  hd_states : ∀ t',
    state_of s' t' =
    if decide (t = t')
    then set_processing_count (processing_count (state_of s t) + 1)
           (set_started true (state_of s t))
    else state_of s t';
  hd_cache : ∀ t',
    cache_of s' t' = cache_of s t'
    ∨ (t' = t ∧ cache_of s' t' = (Some b, Some false));
  hd_log : log s' = log s ∨ log s' = log s ++ [LogErrorPreCheck b t AttributeError]
}.

(** The observable steps a scheduler takes: none, a pull, a hand-out, a
    successful release, the bookkeeping of a failed release, and their
    compositions. *)
Inductive effect : Scheduler → Scheduler → Prop :=
  | eff_none s s' : same_view s s' → effect s s'
  | eff_pulled t b s s' : pulled t b s s' → effect s s'
  | eff_handed t b s s' : handed t b s s' → effect s s'
  | eff_released b m s s' :
      Block.block_id b ∈ processing_blocks (blocks_of s (Block.task_id b)) →
      released b s s' m → effect s s'
  | eff_failed b s s' :
      Block.block_id b ∈ processing_blocks (blocks_of s (Block.task_id b)) →
      same_view (failed_state b s) s' → effect s s'
  | eff_trans s1 s2 s3 : effect s1 s2 → effect s2 s3 → effect s1 s3.

(** No cached pre-check answer is True. *)
Definition never_truthy (s : Scheduler) : Prop :=
  ∀ t, truthy (cache_of s t).2 = false.

(** ** Registration *)

(** The tasks the constructor registers: of the tasks that share an id,
    the first one.  [seen] holds the ids registered so far. *)
Fixpoint first_occurrences (seen : gset TaskId) (tasks : list Task.t) : list Task.t :=
  match tasks with
  | [] => []
  | x :: rest =>
      if decide (Task.task_id x ∈ seen) then first_occurrences seen rest
      else x :: first_occurrences ({[Task.task_id x]} ∪ seen) rest
  end.

(** The first task of [tasks] whose id is [t]. *)
Fixpoint first_with_id (t : TaskId) (tasks : list Task.t) : option Task.t :=
  match tasks with
  | [] => None
  | x :: rest => if decide (Task.task_id x = t) then Some x else first_with_id t rest
  end.

(** The state of [__init_task] on a task whose id is new, when the loop
    over its requirements is reached. *)
Definition register (task : Task.t) (s : Scheduler) : Scheduler :=
  let t := Task.task_id task in
  let ts := set_total_block_count (num_blocks (dependency_graph s) t) (state_of s t) in
  set_task_states
    (<[t := match root_tasks s !! t with
            | Some (n, _) => set_ready_count n ts
            | None => ts
            end]> (task_states s))
    (set_task_map (<[t := task]> (task_map s)) s).

Definition register_all (tasks : list Task.t) (s : Scheduler) : Scheduler :=
  foldl (λ s task,
           if decide (task_map s !! Task.task_id task = None) then register task s else s)
    s tasks.

(** The [TaskState] the constructor leaves for task [t]. *)
Definition seeded_state (G : DependencyGraph) (tasks : list Task.t) (t : TaskId)
    : TaskState :=
  if decide (t ∈ Task.task_id <$> tasks)
  then set_ready_count (root_count (roots G) t)
         (set_total_block_count (num_blocks G t) TaskState_new)
  else TaskState_new.

(** What [register_all] leaves in each field. *)
Record registered (tasks : list Task.t) (s s' : Scheduler) : Prop := mkRegistered {
  rg_graph : dependency_graph s' = dependency_graph s;
  rg_blocks : task_blocks s' = task_blocks s;
  rg_roots : root_tasks s' = root_tasks s;
  rg_surface : completed_surface s' = completed_surface s;
  rg_cache : last_prechecked s' = last_prechecked s;
  rg_log : log s' = log s;
  rg_calls : pre_check_calls s' = pre_check_calls s;
  rg_task_map : ∀ t,
    task_map s' !! t =
    match task_map s !! t with Some x => Some x | None => first_with_id t tasks end;
  rg_states : ∀ t,
    state_of s' t =
    if decide (task_map s !! t = None ∧ t ∈ Task.task_id <$> tasks)
    then set_ready_count
           (match root_tasks s !! t with
            | Some (n, _) => n
            | None => ready_count (state_of s t)
            end)
           (set_total_block_count (num_blocks (dependency_graph s) t) (state_of s t))
    else state_of s t
}.

(** ** What the driving loop keeps *)

(** The record [LogErrorPreCheck] of an [AttributeError]. *)
Definition is_attribute_error (r : LogRecord) : Prop :=
  ∃ b t, r = LogErrorPreCheck b t AttributeError.

(** How a later state relates to an earlier one. *)
Record progress (s s' : Scheduler) : Prop := mkProgress {
  pg_graph : dependency_graph s' = dependency_graph s;
  pg_task_map : task_map s' = task_map s;
  pg_total : ∀ t, total_block_count (state_of s' t) = total_block_count (state_of s t);
  pg_started : ∀ t, started (state_of s t) = true → started (state_of s' t) = true;
  pg_completed : ∀ t, completed_blocks (blocks_of s t) ⊆ completed_blocks (blocks_of s' t);
  pg_failed : ∀ t, failed_blocks (blocks_of s t) ⊆ failed_blocks (blocks_of s' t);
  pg_completed_count : ∀ t, completed_count (state_of s t) ≤ completed_count (state_of s' t);
  pg_failed_count : ∀ t, failed_count (state_of s t) ≤ failed_count (state_of s' t);
  pg_sources : ∀ t,
    match root_tasks s !! t with
    | Some (n, it) =>
        ∃ p, root_tasks s' !! t = Some (n, mkIter (source it) p) ∧ (position it ≤ p)%nat
    | None => root_tasks s' !! t = None
    end;
  pg_calls : pre_check_calls s' = pre_check_calls s;
  pg_log : ∃ l, log s' = log s ++ l ∧ Forall is_attribute_error l
}.

(** No counter lags behind its set. *)
Record counted (s : Scheduler) : Prop := mkCounted {
  cnt_processing : ∀ t,
    Z.of_nat (size (processing_blocks (blocks_of s t))) ≤ processing_count (state_of s t);
  cnt_completed : ∀ t,
    Z.of_nat (size (completed_blocks (blocks_of s t))) ≤ completed_count (state_of s t);
  cnt_failed : ∀ t,
    Z.of_nat (size (failed_blocks (blocks_of s t))) ≤ failed_count (state_of s t)
}.

(** Nothing of task [t] has been handed out. *)
Record untouched (s : Scheduler) (t : TaskId) : Prop := mkUntouched {
  ut_processing_count : processing_count (state_of s t) = 0;
  ut_completed_count : completed_count (state_of s t) = 0;
  ut_failed_count : failed_count (state_of s t) = 0;
  ut_processing : processing_blocks (blocks_of s t) = ∅;
  ut_completed : completed_blocks (blocks_of s t) = ∅;
  ut_failed : failed_blocks (blocks_of s t) = ∅
}.

(** The state invariants of the driving loop. *)
Record steady (s : Scheduler) : Prop := mkSteady {
  st_never_truthy : never_truthy s;
  st_counted : counted s;
  st_untouched : ∀ t, started (state_of s t) = false → untouched s t;
  st_Inv : Inv s
}.

(** A sequence of calls, run from [s]. *)
Definition run_calls (calls : list Call) (s : Scheduler) : Scheduler :=
  foldl (λ s c, after c s) s calls.

(** ** Blocks waiting in the ready queues *)

(** [d] is produced by the root source of task [t] in the graph. *)
Definition from_root_source (G : DependencyGraph) (t : TaskId) (d : Block.t) : Prop :=
  ∃ n it p, roots G !! t = Some (n, it) ∧ source it p = Some d.

(** Every block waiting in the ready queue of a task came from the root
    source of the task, or is a block of the task all of whose immediate
    upstream blocks are completed. *)
Definition queues_safe (G : DependencyGraph) (s : Scheduler) : Prop :=
  ∀ t d, d ∈ ready_queue (blocks_of s t) →
         from_root_source G t d ∨ (Block.task_id d = t ∧ upstream_completed G s d).

(** ** Printing a [TaskState] *)

(** [str(b)] for a Python [bool]. *)
Definition str_bool (b : bool) : string := if b then "True" else "False".

(** [TaskState.__str__]: [f"{self.started}, {self.ready_count}"]; an [int]
    is formatted in decimal, with a leading minus sign when negative. *)
Definition TaskState_str (ts : TaskState) : string :=
  str_bool (started ts) +:+ ", " +:+ pretty (ready_count ts).

(** [TaskState.__repr__]: [str(self)]. *)
Definition TaskState_repr (ts : TaskState) : string := TaskState_str ts.

(** ** The module-level entry points *)

(** [run_blockwise()] and [distribute()]: their bodies are a single
    [raise NotImplementedError()]. *)
Definition run_blockwise : Outcome unit := Raise NotImplementedError.

Definition distribute : Outcome unit := Raise NotImplementedError.

(** * Part III: properties *)

(** ** Running binds, reading fields through the setters *)

Lemma bind_run {A B} (c : M A) (f : A → M B) (s : Scheduler) :
  (c ≫= f) s =
  match c s with
  | (Ret a, s') => f a s'
  | (Raise e, s') => (Raise e, s')
  | (Diverge, s') => (Diverge, s')
  end.
Proof. reflexivity. Qed.

Lemma set_task_states_id s : set_task_states (task_states s) s = s.
Proof. by destruct s. Qed.

Lemma set_task_blocks_id s : set_task_blocks (task_blocks s) s = s.
Proof. by destruct s. Qed.

Lemma set_last_prechecked_id s : set_last_prechecked (last_prechecked s) s = s.
Proof. by destruct s. Qed.

(** Subscripting returns what the view shows and leaves the views as they are. *)
Lemma task_states_item_run t s :
  task_states_item t s = (Ret (state_of s t), touch_states t s).
Proof.
  unfold task_states_item, touch_states, state_of.
  destruct (task_states s !! t) as [ts|] eqn:E; simpl; [|done].
  by rewrite insert_id, set_task_states_id.
Qed.

Lemma task_blocks_item_run t s :
  task_blocks_item t s = (Ret (blocks_of s t), touch_blocks t s).
Proof.
  unfold task_blocks_item, touch_blocks, blocks_of.
  destruct (task_blocks s !! t) as [tb|] eqn:E; simpl; [|done].
  by rewrite insert_id, set_task_blocks_id.
Qed.

Lemma last_prechecked_item_run t s :
  last_prechecked_item t s = (Ret (cache_of s t), touch_cache t s).
Proof.
  unfold last_prechecked_item, touch_cache, cache_of.
  destruct (last_prechecked s !! t) as [c|] eqn:E; simpl; [|done].
  by rewrite insert_id, set_last_prechecked_id.
Qed.

(** An in-place mutation rewrites the entry seen by the view. *)
Lemma task_states_mutate_run t f s :
  task_states_mutate t f s =
  (Ret (), set_task_states (<[t := f (state_of s t)]> (task_states s)) s).
Proof.
  unfold task_states_mutate. rewrite bind_run, task_states_item_run.
  unfold update_self, touch_states. fields. by rewrite insert_insert_eq.
Qed.

Lemma task_blocks_mutate_run t f s :
  task_blocks_mutate t f s =
  (Ret (), set_task_blocks (<[t := f (blocks_of s t)]> (task_blocks s)) s).
Proof.
  unfold task_blocks_mutate. rewrite bind_run, task_blocks_item_run.
  unfold update_self, touch_blocks. fields. by rewrite insert_insert_eq.
Qed.

Lemma state_of_insert s1 s2 t v t' :
  state_of (set_task_states (<[t := v]> (task_states s1)) s2) t' =
  if decide (t = t') then v else state_of s1 t'.
Proof. unfold state_of. fields. rewrite lookup_insert. by destruct decide. Qed.

Lemma blocks_of_insert s1 s2 t v t' :
  blocks_of (set_task_blocks (<[t := v]> (task_blocks s1)) s2) t' =
  if decide (t = t') then v else blocks_of s1 t'.
Proof. unfold blocks_of. fields. rewrite lookup_insert. by destruct decide. Qed.

Lemma cache_of_insert s1 s2 t v t' :
  cache_of (set_last_prechecked (<[t := v]> (last_prechecked s1)) s2) t' =
  if decide (t = t') then v else cache_of s1 t'.
Proof. unfold cache_of. fields. rewrite lookup_insert. by destruct decide. Qed.

Lemma state_of_touch t s t' : state_of (touch_states t s) t' = state_of s t'.
Proof. unfold touch_states. rewrite state_of_insert. by destruct decide as [->|]. Qed.

Lemma blocks_of_touch t s t' : blocks_of (touch_blocks t s) t' = blocks_of s t'.
Proof. unfold touch_blocks. rewrite blocks_of_insert. by destruct decide as [->|]. Qed.

Lemma cache_of_touch t s t' : cache_of (touch_cache t s) t' = cache_of s t'.
Proof. unfold touch_cache. rewrite cache_of_insert. by destruct decide as [->|]. Qed.

Lemma state_of_touch_blocks t s t' : state_of (touch_blocks t s) t' = state_of s t'.
Proof. reflexivity. Qed.

Lemma blocks_of_touch_states t s t' : blocks_of (touch_states t s) t' = blocks_of s t'.
Proof. reflexivity. Qed.

Lemma same_view_touch_blocks t s : same_view s (touch_blocks t s).
Proof. split; try done. intros t'. apply blocks_of_touch. Qed.

Lemma same_view_touch_states t s : same_view s (touch_states t s).
Proof. split; try done. intros t'. apply state_of_touch. Qed.

Lemma same_view_touch_cache t s : same_view s (touch_cache t s).
Proof. split; try done. intros t'. apply cache_of_touch. Qed.

(** ** [precheck]: the guarded expression never reaches the capability *)

Lemma guarded_pre_check_run t b s :
  guarded_pre_check t b s = (Raise AttributeError, s).
Proof. reflexivity. Qed.

(** A block other than the cached one: the guarded evaluation raises, the
    handler logs, the cache takes [(b, False)], False is returned. *)
Lemma precheck_fresh_run t b s :
  differs (cache_of s t).1 b = true →
  precheck t b s =
  (Ret (Some false),
   set_last_prechecked (<[t := (Some b, Some false)]> (last_prechecked s))
     (set_log (log s ++ [LogErrorPreCheck b t AttributeError]) s)).
Proof.
  intros Hd. unfold precheck.
  rewrite bind_run, last_prechecked_item_run, Hd.
  unfold try_finally, try_except. rewrite !bind_run, guarded_pre_check_run.
  cbn [is_Exception]. unfold logger, update_self, touch_cache. rewrite !bind_run.
  fields. cbn [mret M_ret].
  rewrite bind_run. unfold last_prechecked_item. fields.
  rewrite lookup_insert_eq, insert_insert_eq. reflexivity.
Qed.

(** The cached block: the cached answer, and nothing else happens. *)
Lemma precheck_cached_run t b s :
  differs (cache_of s t).1 b = false →
  precheck t b s = (Ret (cache_of s t).2, s).
Proof.
  intros Hd.
  assert (touch_cache t s = s) as Hs.
  { unfold touch_cache, cache_of in *.
    destruct (last_prechecked s !! t) as [c|] eqn:E; [|done].
    by rewrite insert_id, set_last_prechecked_id. }
  unfold precheck.
  rewrite bind_run, last_prechecked_item_run, Hd, Hs.
  rewrite bind_run. cbn [mret M_ret].
  by rewrite bind_run, last_prechecked_item_run, Hs.
Qed.

Lemma differs_same b b' : Block.ident b' = Block.ident b → differs (Some b') b = false.
Proof. intros H. unfold differs, Block.eqb. by rewrite bool_decide_eq_true_2. Qed.

Lemma differs_other b b' : Block.ident b' ≠ Block.ident b → differs (Some b') b = true.
Proof. intros H. unfold differs, Block.eqb. by rewrite bool_decide_eq_false_2. Qed.

(** ** [has_next] and [acquire_block] *)

(** A non-empty ready queue: True, the root source is left alone. *)
Lemma has_next_queued_run t s :
  ready_queue (blocks_of s t) ≠ [] →
  has_next t s = (Ret true, touch_blocks t s).
Proof.
  intros Hq. unfold has_next. rewrite bind_run, task_blocks_item_run.
  destruct (ready_queue (blocks_of s t)); [done|].
  by rewrite bool_decide_eq_true_2 by (simpl; lia).
Qed.

(** An empty ready queue, a positive [ready_count] and an exhausted source:
    [StopIteration] is turned into [NotImplementedError]. *)
Lemma has_next_exhausted_run t s n it :
  ready_queue (blocks_of s t) = [] →
  ready_count (state_of s t) > 0 →
  root_tasks s !! t = Some (n, it) →
  source it (position it) = None →
  has_next t s = (Raise NotImplementedError, touch_states t (touch_blocks t s)).
Proof.
  intros Hq Hrc Hroot Hsrc. unfold has_next.
  rewrite bind_run, task_blocks_item_run, Hq.
  rewrite bool_decide_eq_false_2 by (simpl; lia).
  rewrite bind_run, task_states_item_run.
  rewrite state_of_touch_blocks, bool_decide_eq_true_2 by done.
  rewrite bind_run. unfold get_self. fields. rewrite Hroot.
  unfold iter_next. by rewrite Hsrc.
Qed.

(** [acquire_block] on a queue headed by a block that is not the cached one
    takes the hand-out branch. *)
Lemma acquire_block_fresh_run fuel t b rest s :
  ready_queue (blocks_of s t) = b :: rest →
  differs (cache_of s t).1 b = true →
  acquire_block (S fuel) t s = (Ret (Some b), handed_out t b rest s).
Proof.
  intros Hq Hd. cbn [acquire_block].
  rewrite bind_run, has_next_queued_run by (by rewrite Hq).
  unfold ready_queue_popleft.
  rewrite !bind_run, task_blocks_item_run, blocks_of_touch, Hq.
  rewrite bind_run. unfold update_self. cbn [mret M_ret].
  rewrite bind_run, precheck_fresh_run by exact Hd. cbn [truthy].
  rewrite !bind_run, task_states_mutate_run.
  rewrite bind_run, task_blocks_mutate_run.
  rewrite bind_run, task_states_mutate_run.
  cbn [mret M_ret]. f_equal.
  unfold handed_out. destruct s as [G tm tst tbl rt cs lp lg pc].
  norm. reflexivity.
Qed.

(** ** [release_block], step by step *)

(** [processing_blocks.remove]: the id leaves the set, or [KeyError] with
    nothing written. *)
Lemma processing_blocks_remove_run t i s :
  processing_blocks_remove t i s =
  if decide (i ∈ processing_blocks (blocks_of s t)) then
    (Ret (), set_task_blocks
               (<[t := set_processing_blocks (processing_blocks (blocks_of s t) ∖ {[i]})
                         (blocks_of s t)]> (task_blocks s)) s)
  else (Raise KeyError, touch_blocks t s).
Proof.
  unfold processing_blocks_remove.
  rewrite bind_run, task_blocks_item_run. unfold lift, set_remove.
  destruct (decide (i ∈ processing_blocks (blocks_of s t))); rewrite bind_run; [|done].
  unfold update_self. f_equal. destruct s. norm. reflexivity.
Qed.

(** Releasing a block whose id is not in its task's [processing_blocks]. *)
Lemma release_block_missing_run fuel b s :
  Block.status b = SUCCESS ∨ Block.status b = FAILED →
  Block.block_id b ∉ processing_blocks (blocks_of s (Block.task_id b)) →
  release_block fuel b s = (Raise KeyError, touch_blocks (Block.task_id b) s).
Proof.
  intros Hst Hnot. unfold release_block.
  destruct (decide (Block.status b = SUCCESS)) as [|Hns].
  - by rewrite bind_run, processing_blocks_remove_run, decide_False.
  - destruct Hst as [|Hf]; [done|]. rewrite decide_True by done.
    by rewrite bind_run, processing_blocks_remove_run, decide_False.
Qed.

(** The first statement of [update_failed_surface] raises. *)
Lemma update_failed_surface_run fuel i s :
  update_failed_surface fuel i s = (Raise AttributeError, touch_blocks i.1 s).
Proof.
  unfold update_failed_surface.
  by rewrite bind_run, task_blocks_item_run.
Qed.

(** The FAILED branch on a processed block: bookkeeping, then the raise of
    [update_failed_surface]. *)
Lemma release_block_failed_run fuel b s :
  Block.status b = FAILED →
  Block.block_id b ∈ processing_blocks (blocks_of s (Block.task_id b)) →
  release_block fuel b s =
  (Raise AttributeError, touch_blocks (Block.block_id b).1 (failed_state b s)).
Proof.
  intros Hst Hin. unfold release_block.
  rewrite decide_False by (rewrite Hst; done). rewrite decide_True by done.
  rewrite bind_run, processing_blocks_remove_run, decide_True by done.
  rewrite bind_run, task_blocks_mutate_run.
  rewrite bind_run, task_states_mutate_run.
  rewrite bind_run, task_states_mutate_run.
  rewrite bind_run, update_failed_surface_run.
  f_equal. unfold failed_state. destruct s. norm. reflexivity.
Qed.

Lemma release_block_other_run fuel b s :
  Block.status b ≠ SUCCESS → Block.status b ≠ FAILED →
  release_block fuel b s = (Ret None, s).
Proof. intros H1 H2. unfold release_block. by rewrite !decide_False. Qed.

(** *** The frontier update *)

Lemma set_completed_surface_id s : set_completed_surface (completed_surface s) s = s.
Proof. by destruct s. Qed.

Lemma update_complete_surface_step_run (u : Block.t) (s : Scheduler) :
  ∃ Y, update_complete_surface_step u s = (Ret (), set_completed_surface Y s)
       ∧ surface_shrunk (completed_surface s) Y.
Proof.
  unfold update_complete_surface_step. rewrite bind_run. unfold get_self.
  destruct (decide (key_of_block u ∉ completed_surface s)) as [|Hin].
  { exists (completed_surface s). rewrite set_completed_surface_id.
    split; [done|]. by split. }
  cbv zeta. destruct (forallb _ _).
  - exists (completed_surface s ∖ {[key_of_block u]}).
    unfold completed_surface_remove, get_self, lift, set_remove.
    rewrite !bind_run.
    rewrite decide_True by (destruct (decide (key_of_block u ∈ completed_surface s)); done).
    split; [done|]. split.
    { intros x Hx. by apply elem_of_difference in Hx as [? _]. }
    intros i Hi. apply elem_of_difference. split; [done|].
    unfold key_of_block. set_solver.
  - exists (completed_surface s). rewrite set_completed_surface_id.
    split; [done|]. by split.
Qed.

Lemma update_complete_surface_loop_run (ups : list Block.t) (s : Scheduler) :
  ∃ Y, for_each ups update_complete_surface_step s = (Ret (), set_completed_surface Y s)
       ∧ surface_shrunk (completed_surface s) Y.
Proof.
  revert s. induction ups as [|u ups IH]; intros s.
  - exists (completed_surface s). rewrite set_completed_surface_id.
    split; [done|]. by split.
  - cbn [for_each]. rewrite bind_run.
    destruct (update_complete_surface_step_run u s) as (Y1 & -> & Hsub1 & Hid1).
    destruct (IH (set_completed_surface Y1 s)) as (Y2 & -> & Hsub2 & Hid2).
    exists Y2. split; [done|]. fields. split.
    + by etrans.
    + intros i Hi. by apply Hid2, Hid1.
Qed.

(** [update_complete_surface] returns; it adds the id and removes at most
    block objects. *)
Lemma update_complete_surface_run i s :
  ∃ Y, update_complete_surface i s = (Ret (), set_completed_surface Y s)
       ∧ surface_shrunk ({[KId i]} ∪ completed_surface s) Y.
Proof.
  unfold update_complete_surface. rewrite bind_run. unfold get_self.
  rewrite bind_run. unfold update_self.
  destruct (update_complete_surface_loop_run
              (upstream (dependency_graph s) (KId i))
              (set_completed_surface ({[KId i]} ∪ completed_surface s) s))
    as (Y & -> & HY).
  by exists Y.
Qed.

(** *** Readiness propagation *)

Lemma same_but_queues_refl s : same_but_queues s s.
Proof. by split. Qed.

Lemma same_but_queues_trans s1 s2 s3 :
  same_but_queues s1 s2 → same_but_queues s2 s3 → same_but_queues s1 s3.
Proof.
  intros [] []. split; try congruence; intros t; etrans; eauto.
Qed.

Lemma is_ready_same s s' d : same_but_queues s s' → is_ready s' d = is_ready s d.
Proof.
  intros H. unfold is_ready.
  by rewrite (sq_graph _ _ H), (sq_surface _ _ H).
Qed.

Lemma update_ready_queue_step_run d acc s :
  update_ready_queue_step d acc s =
  if is_ready s d then
    (Ret (<[Block.task_id d := state_of s (Block.task_id d)]> acc),
     touch_states (Block.task_id d)
       (set_task_blocks
          (<[Block.task_id d :=
               set_ready_queue (ready_queue (blocks_of s (Block.task_id d)) ++ [d])
                 (blocks_of s (Block.task_id d))]> (task_blocks s)) s))
  else (Ret acc, s).
Proof.
  unfold update_ready_queue_step. rewrite bind_run. unfold get_self.
  fold (is_ready s d). destruct (is_ready s d); [|done].
  rewrite bind_run, task_blocks_mutate_run.
  by rewrite bind_run, task_states_item_run.
Qed.

Lemma update_ready_queue_step_frame d s :
  same_but_queues s
    (touch_states (Block.task_id d)
       (set_task_blocks
          (<[Block.task_id d :=
               set_ready_queue (ready_queue (blocks_of s (Block.task_id d)) ++ [d])
                 (blocks_of s (Block.task_id d))]> (task_blocks s)) s)).
Proof.
  split; try done.
  - intros t. by rewrite state_of_touch.
  - intros t. rewrite blocks_of_touch_states, blocks_of_insert. by destruct decide as [->|].
  - intros t. rewrite blocks_of_touch_states, blocks_of_insert. by destruct decide as [->|].
  - intros t. rewrite blocks_of_touch_states, blocks_of_insert. by destruct decide as [->|].
  - intros t. rewrite blocks_of_touch_states, blocks_of_insert. by destruct decide as [->|].
Qed.

(** The loop of [update_ready_queue] returns; each ready queue gains, in
    order, the blocks of [downs] that pass the test and belong to the task,
    and the mapping gains the tasks of those blocks. *)
Lemma update_ready_queue_loop_run (downs : list Block.t) :
  ∀ (acc : gmap TaskId TaskState) (s : Scheduler),
  ∃ m s', update_ready_queue_loop downs acc s = (Ret m, s')
    ∧ same_but_queues s s'
    ∧ (∀ t, ready_queue (blocks_of s' t) =
            ready_queue (blocks_of s t) ++
            filter (λ d, Block.task_id d = t ∧ is_ready s d) downs)
    ∧ (∀ t, m !! t =
            if decide (Exists (λ d, Block.task_id d = t ∧ is_ready s d) downs)
            then Some (state_of s t) else acc !! t).
Proof.
  induction downs as [|d downs IH]; intros acc s.
  - exists acc, s. split; [done|]. split; [apply same_but_queues_refl|].
    split; intros t.
    + by rewrite filter_nil, app_nil_r.
    + destruct (decide _) as [He|]; [|done]. by apply Exists_nil in He.
  - cbn [update_ready_queue_loop]. rewrite bind_run, update_ready_queue_step_run.
    destruct (is_ready s d) eqn:Hd.
    + pose proof (update_ready_queue_step_frame d s) as Hfr.
      set (s1 := touch_states _ _) in *.
      destruct (IH (<[Block.task_id d := state_of s (Block.task_id d)]> acc) s1)
        as (m & s' & -> & Hfr' & Hq & Hm).
      exists m, s'. split; [done|].
      split; [by eapply same_but_queues_trans|]. split; intros t.
      * rewrite Hq. subst s1. rewrite blocks_of_touch_states, blocks_of_insert.
        rewrite filter_cons.
        rewrite (list_filter_iff _ (λ d, Block.task_id d = t ∧ is_ready s d) downs)
          by (intros x; by rewrite (is_ready_same s)).
        destruct (decide (Block.task_id d = t)) as [<-|Hne].
        -- rewrite decide_True by (by rewrite Hd). tfields.
           by rewrite <- app_assoc.
        -- by rewrite decide_False by tauto.
      * rewrite Hm. rewrite (sq_states _ _ Hfr).
        destruct (decide (Exists (λ d0, Block.task_id d0 = t ∧ is_ready s1 d0) downs))
          as [He|He].
        -- rewrite decide_True; [done|]. apply Exists_cons_tl.
           eapply Exists_impl; [exact He|]. intros x [? ?].
           by rewrite <- (is_ready_same s s1).
        -- rewrite lookup_insert. destruct (decide (Block.task_id d = t)) as [<-|Hne].
           ++ rewrite decide_True; [done|]. apply Exists_cons_hd. by rewrite Hd.
           ++ rewrite decide_False; [done|]. rewrite Exists_cons.
              intros [[? ?]|He']; [done|]. apply He.
              eapply Exists_impl; [exact He'|]. intros x [? ?].
              by rewrite (is_ready_same s s1).
    + destruct (IH acc s) as (m & s' & -> & Hfr' & Hq & Hm).
      exists m, s'. split; [done|]. split; [done|]. split; intros t.
      * rewrite Hq, filter_cons. rewrite decide_False; [done|].
        rewrite Hd. intros [_ ?]. done.
      * rewrite Hm. destruct (decide (Exists _ downs)) as [He|He].
        -- by rewrite decide_True by (by apply Exists_cons_tl).
        -- rewrite decide_False; [done|]. rewrite Exists_cons.
           intros [[? ?]|?]; [|done]. by rewrite Hd in *.
Qed.

(** *** A successful release *)

(** The SUCCESS branch on a processed block returns, in a state described by
    [released]. *)
Lemma release_block_success_run fuel b s :
  Block.status b = SUCCESS →
  Block.block_id b ∈ processing_blocks (blocks_of s (Block.task_id b)) →
  ∃ m s', release_block fuel b s = (Ret (Some m), s') ∧ released b s s' m.
Proof.
  intros Hst Hin. unfold release_block. rewrite decide_True by done.
  rewrite bind_run, processing_blocks_remove_run, decide_True by done.
  rewrite bind_run, task_blocks_mutate_run.
  rewrite bind_run, task_states_mutate_run.
  rewrite bind_run, task_states_mutate_run.
  rewrite bind_run.
  match goal with |- context [update_complete_surface ?i ?s4] =>
    destruct (update_complete_surface_run i s4) as (Y & -> & HY);
    set (s5 := set_completed_surface Y s4) in *
  end.
  rewrite bind_run. unfold update_ready_queue. rewrite bind_run. unfold get_self.
  destruct (update_ready_queue_loop_run
              (downstream (dependency_graph s5) (KId (Block.block_id b))) ∅ s5)
    as (m & s' & -> & Hfr & Hq & Hm).
  exists m, s'. split; [done|].
  assert (∀ d, is_ready s5 d = is_ready s' d) as Hready
    by (intros d; by rewrite (is_ready_same s5 s')).
  destruct Hfr as [Hg Htm Hs Hp Hf Ho Hc Hr Hsf Hca Hl Hcl].
  split; try (by (rewrite ?Hg, ?Htm, ?Hr, ?Hca, ?Hl, ?Hcl)).
  - by rewrite Hsf.
  - intros t. rewrite Hc. subst s5. destruct s. norm.
    rewrite lookup_insert. by destruct (decide _) as [<-|].
  - intros t. rewrite Hp. subst s5. destruct s. norm.
    rewrite lookup_insert. by destruct (decide _) as [<-|].
  - intros t. rewrite Hf. subst s5. destruct s. norm.
    rewrite lookup_insert. by destruct (decide _) as [<-|].
  - intros t. rewrite Ho. subst s5. destruct s. norm.
    rewrite lookup_insert. by destruct (decide _) as [<-|].
  - intros t. rewrite Hs. subst s5. destruct s. norm.
    rewrite lookup_insert. by destruct (decide _) as [<-|].
  - intros t. rewrite Hq.
    rewrite (list_filter_iff _ (λ d, Block.task_id d = t ∧ is_ready s' d))
      by (intros x; by rewrite Hready).
    f_equal. subst s5. destruct s. norm.
    rewrite lookup_insert. by destruct (decide _) as [<-|].
  - intros t. rewrite Hm, lookup_empty, Hs.
    replace (dependency_graph s5) with (dependency_graph s) by done.
    destruct (decide (Exists (λ d, Block.task_id d = t ∧ is_ready s5 d) _)) as [He|He].
    + rewrite decide_True; [done|]. eapply Exists_impl; [exact He|].
      intros x [? ?]. by rewrite <- Hready.
    + rewrite decide_False; [done|]. intros He'. apply He.
      eapply Exists_impl; [exact He'|]. intros x [? ?]. by rewrite Hready.
Qed.

(** ** Frame lemmas *)

Section Preserves.

Context (R : relation Scheduler) `{!PreOrder R}.

Lemma preserves_mret {A} (a : A) : preserves R (mret a).
Proof. intros s. reflexivity. Qed.

Lemma preserves_raise {A} (e : PyExc) : preserves R (@raise A e).
Proof. intros s. reflexivity. Qed.

Lemma preserves_diverge {A} : preserves R (@diverge A).
Proof. intros s. reflexivity. Qed.

Lemma preserves_lift {A} (o : Outcome A) : preserves R (lift o).
Proof. intros s. reflexivity. Qed.

Lemma preserves_get_self : preserves R get_self.
Proof. intros s. reflexivity. Qed.

Lemma preserves_update_self (f : Scheduler → Scheduler) :
  (∀ s, R s (f s)) → preserves R (update_self f).
Proof. intros H s. apply H. Qed.

Lemma preserves_bind {A B} (c : M A) (f : A → M B) :
  preserves R c → (∀ a, preserves R (f a)) → preserves R (c ≫= f).
Proof.
  intros Hc Hf s. rewrite bind_run. specialize (Hc s).
  destruct (c s) as [[a|e|] s1]; simpl in *; [|done..].
  etrans; [exact Hc|apply Hf].
Qed.

Lemma preserves_for_each {A} (l : list A) (body : A → M unit) :
  (∀ x, preserves R (body x)) → preserves R (for_each l body).
Proof.
  intros Hb. induction l as [|x l IH]; cbn [for_each].
  - apply preserves_mret.
  - apply preserves_bind; [apply Hb|by intros _].
Qed.

Lemma preserves_try_except {A} (body : M A) (handler : PyExc → M A) :
  preserves R body → (∀ e, preserves R (handler e)) → preserves R (try_except body handler).
Proof.
  intros Hb Hh s. unfold try_except. specialize (Hb s).
  destruct (body s) as [[a|e|] s1]; simpl in *; [done| |done].
  destruct (is_Exception e); [|done]. etrans; [exact Hb|apply Hh].
Qed.

Lemma preserves_try_finally {A} (body : M A) (final : option A → M unit) :
  preserves R body → (∀ x, preserves R (final x)) → preserves R (try_finally body final).
Proof.
  intros Hb Hf s. unfold try_finally. specialize (Hb s).
  destruct (body s) as [[a|e|] s1]; simpl in *; [| |done].
  - specialize (Hf (Some a) s1).
    destruct (final (Some a) s1) as [[?|?|] s2]; simpl in *; by etrans.
  - specialize (Hf None s1).
    destruct (final None s1) as [[?|?|] s2]; simpl in *; by etrans.
Qed.

End Preserves.

Section Frame.

Context (R : relation Scheduler) (HR : frame R).

#[local] Instance frame_preorder : PreOrder R := fr_preorder R HR.

Lemma task_states_item_preserves t : preserves R (task_states_item t).
Proof.
  intros s. rewrite task_states_item_run.
  apply (fr_states R HR t id s). done.
Qed.

Lemma task_blocks_item_preserves t : preserves R (task_blocks_item t).
Proof.
  intros s. rewrite task_blocks_item_run.
  apply (fr_blocks R HR t id s). done.
Qed.

Lemma last_prechecked_item_preserves t : preserves R (last_prechecked_item t).
Proof. intros s. rewrite last_prechecked_item_run. apply (fr_cache R HR). Qed.

Lemma task_states_mutate_preserves t f :
  minor_state_update f →
  preserves R (task_states_mutate t f).
Proof. intros Hf s. rewrite task_states_mutate_run. by apply (fr_states R HR). Qed.

Lemma task_blocks_mutate_preserves t f :
  minor_blocks_update f →
  preserves R (task_blocks_mutate t f).
Proof. intros Hf s. rewrite task_blocks_mutate_run. by apply (fr_blocks R HR). Qed.

Lemma logger_preserves r : preserves R (logger r).
Proof. pa preserves_update_self. intros s. apply (fr_log R HR). Qed.

Lemma has_next_preserves t : preserves R (has_next t).
Proof.
  unfold has_next.
  pa preserves_bind; [apply task_blocks_item_preserves|intros tb].
  cbv zeta. destruct (bool_decide _); [by pa preserves_mret|].
  pa preserves_bind; [apply task_states_item_preserves|intros ts].
  destruct (bool_decide _); [|by pa preserves_mret].
  pa preserves_bind; [by pa preserves_get_self|intros self].
  destruct (root_tasks self !! t) as [[n it]|]; [|by pa preserves_raise].
  destruct (iter_next it) as [[b|] it']; [|by pa preserves_raise].
  pa preserves_bind; [ |intros _].
  { pa preserves_update_self. intros s. apply (fr_roots R HR). }
  pa preserves_bind; [ |intros _; by pa preserves_mret].
  by apply task_blocks_mutate_preserves.
Qed.

Lemma ready_queue_popleft_preserves t : preserves R (ready_queue_popleft t).
Proof.
  intros s. unfold ready_queue_popleft.
  rewrite bind_run, task_blocks_item_run.
  destruct (ready_queue (blocks_of s t)) as [|b rest] eqn:Hq.
  - apply (fr_blocks R HR t id s). done.
  - rewrite bind_run. unfold update_self. cbn [mret M_ret snd].
    replace (set_task_blocks _ _) with
      (set_task_blocks
         (<[t := (λ tb, set_ready_queue rest tb) (blocks_of s t)]> (task_blocks s)) s).
    + by apply (fr_blocks R HR).
    + destruct s. norm. reflexivity.
Qed.

Lemma precheck_preserves t b : preserves R (precheck t b).
Proof.
  unfold precheck.
  pa preserves_bind; [apply last_prechecked_item_preserves|intros c].
  pa preserves_bind; [ |intros _].
  - destruct (differs _ _); [|by pa preserves_mret].
    pa preserves_bind; [ |intros _; by pa preserves_mret].
    pa preserves_try_finally; [ |].
    + pa preserves_try_except; [ |].
      * unfold guarded_pre_check, Scheduler_tasks.
        pa preserves_bind; [by pa preserves_raise|].
        intros tasks. destruct (tasks !! t); [|by pa preserves_raise].
        intros s. apply (fr_calls R HR).
      * intros e. pa preserves_bind; [apply logger_preserves|].
        intros _. by pa preserves_mret.
    + intros [r|]; [|by pa preserves_raise].
      pa preserves_update_self. intros s. apply (fr_cache R HR).
  - pa preserves_bind; [apply last_prechecked_item_preserves|intros c'].
    by pa preserves_mret.
Qed.

Lemma acquire_block_preserves :
  (∀ fuel b, preserves R (release_block fuel b)) →
  ∀ fuel t, preserves R (acquire_block fuel t).
Proof.
  intros Hrel fuel t. induction fuel as [|fuel IH]; cbn [acquire_block].
  { by pa preserves_diverge. }
  pa preserves_bind; [apply has_next_preserves|intros ready].
  destruct ready; [|by pa preserves_mret].
  pa preserves_bind; [apply ready_queue_popleft_preserves|intros b].
  pa preserves_bind; [apply precheck_preserves|intros r].
  destruct (truthy r).
  - pa preserves_bind; [apply logger_preserves|intros _].
    pa preserves_bind; [apply Hrel|intros _]. exact IH.
  - pa preserves_bind; [ |intros _].
    { by apply task_states_mutate_preserves. }
    pa preserves_bind; [ |intros _].
    { by apply task_blocks_mutate_preserves. }
    pa preserves_bind; [ |intros _; by pa preserves_mret].
    by apply task_states_mutate_preserves.
Qed.

End Frame.

(** ** What never changes: the graph, every [ready_count], the orphans *)

#[local] Instance unchanged_preorder : PreOrder unchanged.
Proof.
  split.
  - by intros s.
  - intros s1 s2 s3 [H1 H2 H3 H4] [H5 H6 H7 H8].
    split; [congruence|intros t..]; etrans; eauto.
Qed.

Lemma unchanged_frame : frame unchanged.
Proof.
  split; try (by split); [apply _|..].
  - intros t f s Hf. split; try done; intros t'; rewrite state_of_insert;
      (destruct decide as [<-|]; [apply Hf|done]).
  - intros t f s Hf. split; try done; intros t'; rewrite blocks_of_insert.
    destruct decide as [<-|]; [apply Hf|done].
Qed.

Lemma same_view_unchanged s s' : same_view s s' → unchanged s s'.
Proof. intros []. split; [done|intros t; by f_equal..]. Qed.

Lemma release_block_unchanged fuel b : preserves unchanged (release_block fuel b).
Proof.
  intros s.
  destruct (decide (Block.block_id b ∈ processing_blocks (blocks_of s (Block.task_id b))))
    as [Hin|Hout]; destruct (Block.status b) eqn:Hst.
  all: try (rewrite release_block_other_run by (by rewrite Hst); reflexivity).
  all: try (rewrite release_block_missing_run by (rewrite ?Hst; auto);
            apply same_view_unchanged, same_view_touch_blocks).
  - destruct (release_block_success_run fuel b s Hst Hin) as (m & s' & -> & Hrel).
    split; [apply Hrel|intros t; rewrite (rel_states _ _ _ _ Hrel)..|apply Hrel];
      by destruct decide as [<-|].
  - rewrite release_block_failed_run by done.
    etrans; [|apply same_view_unchanged, same_view_touch_blocks].
    split; [done|intros t; unfold failed_state..].
    + rewrite state_of_insert. by destruct decide as [<-|].
    + rewrite state_of_insert. by destruct decide as [<-|].
    + unfold blocks_of. fields. rewrite lookup_insert.
      by destruct (decide _) as [<-|].
Qed.

(** ** The frontier invariant *)

Lemma is_completed_blocks_of s i :
  is_completed s i ↔ ∃ t, i ∈ completed_blocks (blocks_of s t).
Proof.
  unfold is_completed, blocks_of. rewrite map_Exists_lookup. split.
  - intros (t & tb & Ht & Hi). exists t. by rewrite Ht.
  - intros (t & Hi). destruct (task_blocks s !! t) as [tb|] eqn:Ht; [|done].
    by exists t, tb.
Qed.

Lemma Inv_ext s s' :
  completed_surface s' = completed_surface s →
  (∀ t, completed_blocks (blocks_of s' t) = completed_blocks (blocks_of s t)) →
  Inv s → Inv s'.
Proof.
  intros Hs Hc [H1 H2].
  assert (∀ i, is_completed s' i ↔ is_completed s i) as Hi.
  { intros i. rewrite !is_completed_blocks_of. by setoid_rewrite Hc. }
  split.
  - intros k Hk. rewrite Hs in Hk. destruct (H1 k Hk) as (i & -> & ?).
    exists i. by rewrite Hi.
  - intros i. rewrite Hi, Hs. apply H2.
Qed.

#[local] Instance keeps_Inv_preorder : PreOrder keeps_Inv.
Proof. split; unfold keeps_Inv; [by intros s|intros s1 s2 s3; tauto]. Qed.

Lemma keeps_Inv_frame : frame keeps_Inv.
Proof.
  split; [apply _|unfold keeps_Inv..].
  - intros t f s _. apply Inv_ext; [done|]. intros t'. reflexivity.
  - intros t f s Hf. apply Inv_ext; [done|]. intros t'.
    rewrite blocks_of_insert. destruct decide as [<-|]; [apply Hf|done].
  - intros m s. by apply Inv_ext.
  - intros m s. by apply Inv_ext.
  - intros m s. by apply Inv_ext.
  - intros m s. by apply Inv_ext.
Qed.

Lemma same_view_keeps_Inv s s' : same_view s s' → keeps_Inv s s'.
Proof. intros []. unfold keeps_Inv. apply Inv_ext; [done|]. intros t. by f_equal. Qed.

(** A successful release keeps the frontier invariant: the id enters the
    completed set and the frontier together. *)
Lemma released_Inv b s s' m : released b s s' m → Inv s → Inv s'.
Proof.
  intros Hrel [H1 H2].
  destruct (rel_surface _ _ _ _ Hrel) as [Hsub Hid].
  assert (∀ i, is_completed s' i ↔ i = Block.block_id b ∨ is_completed s i) as Hi.
  { intros i. rewrite !is_completed_blocks_of. split.
    - intros (t & Ht). rewrite (rel_completed _ _ _ _ Hrel) in Ht.
      destruct decide; [|by eauto].
      apply elem_of_union in Ht as [Ht%elem_of_singleton|Ht]; eauto.
    - intros [->|(t & Ht)].
      + exists (Block.task_id b). rewrite (rel_completed _ _ _ _ Hrel).
        rewrite decide_True by done. set_solver.
      + exists t. rewrite (rel_completed _ _ _ _ Hrel).
        destruct decide; [|done]. set_solver. }
  split.
  - intros k Hk. apply Hsub, elem_of_union in Hk as [Hk%elem_of_singleton|Hk].
    + exists (Block.block_id b). split; [done|]. apply Hi. by left.
    + destruct (H1 k Hk) as (i & -> & ?). exists i. split; [done|].
      apply Hi. by right.
  - intros i Hc. apply Hi in Hc as [->|Hc]; apply Hid; apply elem_of_union.
    + left. by apply elem_of_singleton.
    + right. by apply H2.
Qed.

Lemma release_block_keeps_Inv fuel b : preserves keeps_Inv (release_block fuel b).
Proof.
  intros s.
  destruct (decide (Block.block_id b ∈ processing_blocks (blocks_of s (Block.task_id b))))
    as [Hin|Hout]; destruct (Block.status b) eqn:Hst.
  all: try (rewrite release_block_other_run by (by rewrite Hst); reflexivity).
  all: try (rewrite release_block_missing_run by (rewrite ?Hst; auto);
            apply same_view_keeps_Inv, same_view_touch_blocks).
  - destruct (release_block_success_run fuel b s Hst Hin) as (m & s' & -> & Hrel).
    exact (released_Inv b s s' m Hrel).
  - rewrite release_block_failed_run by done.
    etrans; [|apply same_view_keeps_Inv, same_view_touch_blocks].
    unfold keeps_Inv. apply Inv_ext; [done|]. intros t.
    unfold failed_state, blocks_of. fields. rewrite lookup_insert.
    by destruct (decide _) as [<-|].
Qed.

(** ** Construction *)

Lemma __init_task_ret task s s' :
  __init_task task s = (Ret (), s') → init_step {[Task.task_id task]} s s'.
Proof.
  unfold __init_task. rewrite bind_run. unfold get_self.
  destruct (decide (task_map s !! Task.task_id task = None)) as [Hnew|Hold].
  - rewrite bind_run. unfold update_self.
    rewrite bind_run, task_states_mutate_run. rewrite bind_run. fields.
    assert (Task.task_id task ∉ dom (task_map s)) as Hfresh
      by (by apply not_elem_of_dom).
    destruct (root_tasks s !! Task.task_id task) as [[n it]|] eqn:Hroot.
    + rewrite task_states_mutate_run.
      destruct (Task.requires task) as [|u us]; [|done].
      cbn [for_each]. intros [= <-].
      split; try done.
      { fields. by rewrite dom_insert_L. }
      intros Hs t. destruct (Hs t) as [Hr Ho]. fields. rewrite dom_insert_L.
      unfold state_of, root_count in *. fields. rewrite !lookup_insert.
      destruct (decide (Task.task_id task = t)) as [<-|Hne].
      * rewrite !decide_True by set_solver. rewrite Hroot. by split.
      * rewrite Hr. split; [|done].
        destruct (decide (t ∈ dom (task_map s))).
        -- by rewrite decide_True by set_solver.
        -- by rewrite decide_False by set_solver.
    + destruct (Task.requires task) as [|u us]; [|done].
      cbn [for_each]. intros [= <-].
      split; try done.
      { fields. by rewrite dom_insert_L. }
      intros Hs t. destruct (Hs t) as [Hr Ho]. fields. rewrite dom_insert_L.
      unfold state_of, root_count in *. fields. rewrite !lookup_insert.
      destruct (decide (Task.task_id task = t)) as [<-|Hne].
      * rewrite !decide_True by set_solver. rewrite Hroot.
        rewrite decide_False in Hr by done. by split.
      * rewrite Hr. split; [|done].
        destruct (decide (t ∈ dom (task_map s))).
        -- by rewrite decide_True by set_solver.
        -- by rewrite decide_False by set_solver.
  - intros [= <-]. split; try done.
    assert (Task.task_id task ∈ dom (task_map s)).
    { apply elem_of_dom. by destruct (task_map s !! Task.task_id task). }
    set_solver.
Qed.

Lemma __init_loop_ret tasks : ∀ s s',
  for_each tasks __init_task s = (Ret (), s') →
  init_step (list_to_set (Task.task_id <$> tasks)) s s'.
Proof.
  induction tasks as [|task tasks IH]; intros s s'; cbn [for_each].
  - intros [= <-]. split; try done. set_solver.
  - rewrite bind_run.
    destruct (__init_task task s) as [[[]|e|] s1] eqn:H1; [|done..].
    apply __init_task_ret in H1 as []. intros []%IH.
    split; try congruence; [|tauto].
    rewrite fmap_cons, list_to_set_cons. set_solver.
Qed.

(** The scheduler the constructor returns. *)
Lemma __init___ret G tasks s0 :
  __init__ G tasks = Ret s0 →
  dependency_graph s0 = G ∧ root_tasks s0 = roots G ∧ task_blocks s0 = ∅
  ∧ completed_surface s0 = ∅ ∧ last_prechecked s0 = ∅
  ∧ log s0 = [] ∧ pre_check_calls s0 = []
  ∧ ∀ t, ready_count (state_of s0 t) = seeded G tasks t
         ∧ orphaned_count (state_of s0 t) = 0.
Proof.
  unfold __init__, __init___body.
  rewrite bind_run. unfold get_self, update_self. cbv beta iota.
  do 4 (rewrite bind_run; cbv beta iota).
  rewrite bind_run. fields.
  match goal with |- context [for_each tasks __init_task ?s] => set (s1 := s) end.
  destruct (for_each tasks __init_task s1) as [[[]|e|] s2] eqn:Hloop; [|done..].
  apply __init_loop_ret in Hloop as [Hg Hb Hr Hsf Hc Hl Hcl Hdom Hseed].
  intros [= <-]. fields.
  repeat split; try (etrans; [eassumption|done]).
  - assert (seeding s1) as Hs1.
    { intros t'. split; [|done]. by rewrite decide_False by set_solver. }
    destruct (Hseed Hs1 t) as [Hrc _]. unfold state_of in *. fields.
    rewrite Hrc, Hdom, Hr. unfold seeded. subst s1. fields.
    rewrite dom_empty_L, union_empty_r_L.
    destruct (decide (t ∈ Task.task_id <$> tasks)).
    + by rewrite decide_True by (by apply elem_of_list_to_set).
    + by rewrite decide_False by (by rewrite elem_of_list_to_set).
  - assert (seeding s1) as Hs1.
    { intros t'. split; [|done]. by rewrite decide_False by set_solver. }
    by destruct (Hseed Hs1 t) as [_ Ho].
Qed.

(** ** Invariants of the reachable states *)

Lemma after_preserves (R : relation Scheduler) :
  frame R → (∀ fuel b, preserves R (release_block fuel b)) →
  ∀ c s, R s (after c s).
Proof.
  intros HR Hrel [t|fuel t|fuel b] s; cbn [after].
  - by apply has_next_preserves.
  - by apply acquire_block_preserves.
  - apply Hrel.
Qed.

(** Every reachable state has the graph of the constructor, the seeded
    [ready_count]s and no orphan. *)
Lemma reachable_unchanged G tasks s :
  reachable G tasks s →
  dependency_graph s = G
  ∧ ∀ t, ready_count (state_of s t) = seeded G tasks t
         ∧ orphaned_count (state_of s t) = 0
         ∧ orphaned_blocks (blocks_of s t) = ∅.
Proof.
  induction 1 as [s Hinit|c s _ [IHg IH]].
  - apply __init___ret in Hinit as (Hg & _ & Hb & _ & _ & _ & _ & Hs).
    split; [done|]. intros t. destruct (Hs t). repeat split; try done.
    unfold blocks_of. by rewrite Hb, lookup_empty.
  - destruct (after_preserves unchanged unchanged_frame release_block_unchanged c s)
      as [Hg Hr Ho Hob].
    split; [congruence|]. intros t. rewrite Hr, Ho, Hob. apply IH.
Qed.

(** Every reachable state satisfies the frontier invariant. *)
Lemma reachable_Inv G tasks s : reachable G tasks s → Inv s.
Proof.
  induction 1 as [s Hinit|c s _ IH].
  - apply __init___ret in Hinit as (_ & _ & Hb & Hs & _).
    split.
    + intros k. rewrite Hs. set_solver.
    + intros i. unfold is_completed. rewrite Hb. intros Hx.
      by apply map_Exists_empty in Hx.
  - by apply (after_preserves keeps_Inv keeps_Inv_frame release_block_keeps_Inv c s).
Qed.

(** ** The scenarios *)

Lemma chain_init_s0 : __init__ Chain.graph Chain.tasks = Ret Chain.s0.
Proof. vm_compute. reflexivity. Qed.

Lemma chain_reachable_s0 : reachable Chain.graph Chain.tasks Chain.s0.
Proof. apply reach_init, chain_init_s0. Qed.

Lemma chain_reachable_s1 : reachable Chain.graph Chain.tasks Chain.s1.
Proof. apply reach_call, chain_reachable_s0. Qed.

Lemma chain_reachable_s2 : reachable Chain.graph Chain.tasks Chain.s2.
Proof. apply reach_call, chain_reachable_s1. Qed.

Lemma chain_reachable_s3 : reachable Chain.graph Chain.tasks Chain.s3.
Proof. apply reach_call, chain_reachable_s2. Qed.

Lemma chain_reachable_s4 : reachable Chain.graph Chain.tasks Chain.s4.
Proof. apply reach_call, chain_reachable_s3. Qed.

Lemma leaf_init_s0 : __init__ Leaf.graph Leaf.tasks = Ret Leaf.s0.
Proof. vm_compute. reflexivity. Qed.



Lemma diamond_init_s0 : __init__ Diamond.graph Diamond.tasks = Ret Diamond.s0.
Proof. vm_compute. reflexivity. Qed.

Lemma diamond_reachable_s1 : reachable Diamond.graph Diamond.tasks Diamond.s1.
Proof. apply reach_call, reach_init, diamond_init_s0. Qed.

(** * The claims *)

(** Under the invariant, the frontier test of readiness propagation is the
    test that every upstream block is completed. *)
Lemma is_ready_upstream_completed G s d :
  Inv s → dependency_graph s = G →
  is_ready s d ↔ upstream_completed G s d.
Proof.
  intros [H1 H2] <-. unfold is_ready, upstream_completed.
  rewrite forallb_True. apply Forall_iff. intros up.
  rewrite bool_decide_spec. split.
  - intros Hk. destruct (H1 _ Hk) as (i & [= <-] & Hi). exact Hi.
  - apply H2.
Qed.






(** C3.  The failure cascade does not run.  In the diamond, releasing t0 as
    FAILED raises [AttributeError] out of [update_failed_surface] (whose
    first statement calls [append] on a set) although t1, t2 and t3 are
    downstream of t0; no block is added to an orphaned set and no
    [orphaned_count] moves, there and in every other reachable state. *)
Theorem orphan_cascade_never_runs :
  Diamond.descendants 10 (downstream Diamond.graph (KId ("T", 0))) []
    = [Diamond.t1; Diamond.t2; Diamond.t3]
  ∧ (∀ fuel s, (update_failed_surface fuel ("T", 0) s).1 = Raise AttributeError)
  ∧ (∀ fuel,
       let r := release_block fuel (Block.with_status FAILED Diamond.t0) Diamond.s1 in
       r.1 = Raise AttributeError
       ∧ ∀ t, orphaned_blocks (blocks_of r.2 t) = ∅
              ∧ orphaned_count (state_of r.2 t) = 0).
Proof.
  split; [by vm_compute|]. split.
  { intros fuel s. by rewrite update_failed_surface_run. }
  intros fuel r. split.
  - subst r. rewrite release_block_failed_run; [done|done|].
    vm_compute. reflexivity.
  - intros t.
    assert (reachable Diamond.graph Diamond.tasks r.2) as Hreach.
    { apply (reach_call _ _ (CallReleaseBlock fuel _)), diamond_reachable_s1. }
    destruct (reachable_unchanged _ _ _ Hreach) as [_ H]. by destruct (H t) as (_ & ? & ?).
Qed.

(** C4.  The skip is never taken.  In the chain, the pre-check capability of
    task A answers "already done" for every block, yet [acquire_block] hands
    A's first block to the caller: the capability is not consulted, the
    block goes to [processing_blocks], and nothing is counted as completed. *)
Theorem already_done_block_is_handed_out :
  (∀ b, Task.pre_check Chain.A b = Ret true)
  ∧ task_map Chain.s0 !! "A" = Some Chain.A
  ∧ ∀ fuel,
      let r := acquire_block (S fuel) "A" Chain.s0 in
      r.1 = Ret (Some Chain.a0)
      ∧ pre_check_calls r.2 = []
      ∧ processing_blocks (blocks_of r.2 "A") = {[ ("A", 0) ]}
      ∧ completed_blocks (blocks_of r.2 "A") = ∅
      ∧ completed_count (state_of r.2 "A") = 0
      ∧ processing_count (state_of r.2 "A") = 1.
Proof.
  split; [done|]. split; [by vm_compute|].
  intros fuel r. subst r. repeat split; by vm_compute.
Qed.

(** C5.  A pre-check that raises.  When the capability of the task raises
    on [block] and [block] is not the cached one, [precheck] returns False
    rather than raising and caches [(block, False)]; asking again for the
    same block returns the cached False and leaves the scheduler and the
    log as they are; asking for another block goes through the guarded
    evaluation again (one more record in the log) and replaces the entry.
    [acquire_block] on a queue headed by [block] returns it to the caller
    instead of raising. *)
Theorem precheck_exception_is_false s t block task e :
  task_map s !! t = Some task →
  Task.pre_check task block = Raise e →
  differs (cache_of s t).1 block = true →
  ∃ s', precheck t block s = (Ret (Some false), s')
    ∧ cache_of s' t = (Some block, Some false)
    ∧ precheck t block s' = (Ret (Some false), s')
    ∧ (∀ other, Block.ident other ≠ Block.ident block →
         ∃ s'', precheck t other s' = (Ret (Some false), s'')
           ∧ log s'' = log s' ++ [LogErrorPreCheck other t AttributeError]
           ∧ cache_of s'' t = (Some other, Some false))
    ∧ (∀ fuel rest, ready_queue (blocks_of s t) = block :: rest →
         (acquire_block (S fuel) t s).1 = Ret (Some block)).
Proof.
  intros _ _ Hd. eexists. split; [by apply precheck_fresh_run|].
  assert (∀ l, cache_of
            (set_last_prechecked (<[t:=(Some block, Some false)]> (last_prechecked s))
               (set_log l s)) t = (Some block, Some false)) as Hc.
  { intros l. rewrite (cache_of_insert s). by rewrite decide_True. }
  split; [apply Hc|]. split; [|split].
  - rewrite precheck_cached_run; rewrite Hc; [done|]. by apply differs_same.
  - intros other Hne. eexists. split.
    + apply precheck_fresh_run. rewrite Hc. by apply differs_other.
    + split; [done|]. fields. unfold cache_of. fields.
      by rewrite lookup_insert_eq.
  - intros fuel rest Hq. by rewrite (acquire_block_fresh_run fuel t block rest).
Qed.

(** C5, at an input: task B of the chain, whose capability raises, asked
    about its block in the state where that block is ready. *)
Lemma precheck_exception_is_false_witness :
  ∃ s', precheck "B" Chain.b0 Chain.s4 = (Ret (Some false), s')
    ∧ cache_of s' "B" = (Some Chain.b0, Some false)
    ∧ precheck "B" Chain.b0 s' = (Ret (Some false), s')
    ∧ (∀ other, Block.ident other ≠ Block.ident Chain.b0 →
         ∃ s'', precheck "B" other s' = (Ret (Some false), s'')
           ∧ log s'' = log s' ++ [LogErrorPreCheck other "B" AttributeError]
           ∧ cache_of s'' "B" = (Some other, Some false))
    ∧ (∀ fuel rest, ready_queue (blocks_of Chain.s4 "B") = Chain.b0 :: rest →
         (acquire_block (S fuel) "B" Chain.s4).1 = Ret (Some Chain.b0)).
Proof.
  apply (precheck_exception_is_false Chain.s4 "B" Chain.b0 Chain.B RuntimeError).
  - vm_compute. reflexivity.
  - reflexivity.
  - vm_compute. reflexivity.
Defined.

(** C6.  Releasing a block that is not being processed.  With status
    SUCCESS or FAILED and a block id that is not in the task's
    [processing_blocks], [release_block] raises [KeyError], and every view of
    the scheduler (counters, per-task collections, frontier, cache) is what it
    was before the call. *)
Theorem release_unprocessed_block_raises fuel b s :
  Block.status b = SUCCESS ∨ Block.status b = FAILED →
  Block.block_id b ∉ processing_blocks (blocks_of s (Block.task_id b)) →
  (release_block fuel b s).1 = Raise KeyError
  ∧ same_view s (release_block fuel b s).2.
Proof.
  intros Hst Hout. rewrite release_block_missing_run by done.
  split; [done|]. apply same_view_touch_blocks.
Qed.

(** C6, at an input: A's first block released before it was acquired. *)
Lemma release_unprocessed_block_raises_witness :
  (release_block 1 (Block.with_status FAILED Chain.a0) Chain.s0).1 = Raise KeyError
  ∧ same_view Chain.s0
      (release_block 1 (Block.with_status FAILED Chain.a0) Chain.s0).2.
Proof.
  apply (release_unprocessed_block_raises 1 (Block.with_status FAILED Chain.a0) Chain.s0).
  - right. reflexivity.
  - vm_compute. discriminate.
Defined.

(** C7.  Releasing a processed block as FAILED does not return.  In the
    diamond, with t0 being processed, the call moves t0's id from
    [processing_blocks] to [failed_blocks], decrements [processing_count] and
    increments [failed_count], and then raises [AttributeError] out of the
    cascade instead of returning the empty mapping. *)
Theorem release_failed_raises :
  ("T", 0) ∈ processing_blocks (blocks_of Diamond.s1 "T")
  ∧ ∀ fuel,
      let r := release_block fuel (Block.with_status FAILED Diamond.t0) Diamond.s1 in
      r.1 = Raise AttributeError
      ∧ r.1 ≠ Ret (Some ∅)
      ∧ processing_blocks (blocks_of r.2 "T") = ∅
      ∧ failed_blocks (blocks_of r.2 "T") = {[ ("T", 0) ]}
      ∧ processing_count (state_of Diamond.s1 "T") = 1
      ∧ processing_count (state_of r.2 "T") = 0
      ∧ failed_count (state_of r.2 "T") = 1.
Proof.
  assert (("T", 0) ∈ processing_blocks (blocks_of Diamond.s1 "T")) as Hin
    by (vm_compute; reflexivity).
  split; [exact Hin|]. intros fuel r. subst r.
  rewrite release_block_failed_run; [|done|exact Hin].
  repeat split; by vm_compute.
Qed.

(** C8.  The chain scenario.  Built from tasks that declare their
    requirements, the scheduler cannot be constructed ([self.add] does not
    exist).  Built from the same tasks without task-level requirements, the
    release of A's first block returns an empty mapping, and the release of
    A's second block returns a mapping with the single entry B and appends
    B's block to B's ready queue; but B's [ready_count] in that entry is the
    0 it was seeded with, not incremented. *)
Theorem chain_ready_count_not_incremented :
  __init__ Chain.graph [Chain.A; Chain.B_requires_A; Chain.C_requires_B]
    = Raise AttributeError
  ∧ (release_block 1 (Block.with_status SUCCESS Chain.a0) Chain.s1).1 = Ret (Some ∅)
  ∧ ready_queue (blocks_of Chain.s2 "B") = []
  ∧ (∃ ts, (release_block 1 (Block.with_status SUCCESS Chain.a1) Chain.s3).1
             = Ret (Some {[ "B" := ts ]})
           ∧ ts = state_of Chain.s4 "B"
           ∧ ready_count ts = 0
           ∧ ready_count ts = ready_count (state_of Chain.s0 "B"))
  ∧ ready_queue (blocks_of Chain.s4 "B") = [Chain.b0].
Proof.
  split; [by vm_compute|]. split; [by vm_compute|]. split; [by vm_compute|].
  split; [|by vm_compute].
  eexists. split; [by vm_compute|]. repeat split; by vm_compute.
Qed.

(** C9.  A fresh pre-check is always False.  For any scheduler state, task
    id and block other than the cached one, the guarded expression raises
    [AttributeError] at [self.tasks]; [precheck] swallows it, logs it,
    caches [(block, False)] and returns False, and no task capability has
    been called.  [acquire_block] on a queue headed by such a block therefore
    takes the hand-out branch, never the skip branch. *)
Theorem fresh_precheck_is_false s t block :
  differs (cache_of s t).1 block = true →
  guarded_pre_check t block s = (Raise AttributeError, s)
  ∧ (∃ s', precheck t block s = (Ret (Some false), s')
       ∧ cache_of s' t = (Some block, Some false)
       ∧ log s' = log s ++ [LogErrorPreCheck block t AttributeError]
       ∧ pre_check_calls s' = pre_check_calls s)
  ∧ (∀ fuel rest, ready_queue (blocks_of s t) = block :: rest →
       acquire_block (S fuel) t s = (Ret (Some block), handed_out t block rest s)
       ∧ pre_check_calls (handed_out t block rest s) = pre_check_calls s
       ∧ log (handed_out t block rest s)
         = log s ++ [LogErrorPreCheck block t AttributeError]).
Proof.
  intros Hd. split; [reflexivity|]. split.
  - eexists. split; [by apply precheck_fresh_run|].
    split; [|done]. rewrite (cache_of_insert s). by rewrite decide_True.
  - intros fuel rest Hq. by rewrite (acquire_block_fresh_run fuel t block rest).
Qed.

(** C9, at an input: A's first block in the freshly built chain, where the
    capability of A would have answered True. *)
Lemma fresh_precheck_is_false_witness :
  guarded_pre_check "A" Chain.a0 Chain.s0 = (Raise AttributeError, Chain.s0)
  ∧ (∃ s', precheck "A" Chain.a0 Chain.s0 = (Ret (Some false), s')
       ∧ cache_of s' "A" = (Some Chain.a0, Some false)
       ∧ log s' = log Chain.s0 ++ [LogErrorPreCheck Chain.a0 "A" AttributeError]
       ∧ pre_check_calls s' = pre_check_calls Chain.s0)
  ∧ (∀ fuel rest, ready_queue (blocks_of Chain.s0 "A") = Chain.a0 :: rest →
       acquire_block (S fuel) "A" Chain.s0
       = (Ret (Some Chain.a0), handed_out "A" Chain.a0 rest Chain.s0)
       ∧ pre_check_calls (handed_out "A" Chain.a0 rest Chain.s0)
         = pre_check_calls Chain.s0
       ∧ log (handed_out "A" Chain.a0 rest Chain.s0)
         = log Chain.s0 ++ [LogErrorPreCheck Chain.a0 "A" AttributeError]).
Proof.
  apply (fresh_precheck_is_false Chain.s0 "A" Chain.a0).
  vm_compute. reflexivity.
Defined.

Lemma update_ready_queue_ready_count i s t :
  ready_count (state_of (update_ready_queue i s).2 t) = ready_count (state_of s t).
Proof.
  unfold update_ready_queue. rewrite bind_run. unfold get_self.
  destruct (update_ready_queue_loop_run
              (downstream (dependency_graph s) (KId i)) ∅ s)
    as (m & s' & -> & Hfr & _).
  cbn [snd]. by rewrite (sq_states _ _ Hfr).
Qed.

(** C10.  [ready_count] is written by the constructor only.  In every
    reachable state each task's [ready_count] is the seeded value (the root
    descriptor's block count for a root task given to the constructor, 0
    otherwise); no call of [has_next], [acquire_block] or [release_block],
    and no readiness propagation, changes it.  So once a root task with a
    positive count has had all its blocks pulled and its ready queue is
    empty, [has_next] still finds [ready_count > 0], asks the exhausted
    source for a block and raises [NotImplementedError]. *)
Theorem ready_count_is_never_modified G tasks s :
  reachable G tasks s →
  (∀ t, ready_count (state_of s t) = seeded G tasks t)
  ∧ (∀ c t, ready_count (state_of (after c s) t) = ready_count (state_of s t))
  ∧ (∀ i t, ready_count (state_of (update_ready_queue i s).2 t)
            = ready_count (state_of s t))
  ∧ (∀ t n it,
       seeded G tasks t > 0 →
       ready_queue (blocks_of s t) = [] →
       root_tasks s !! t = Some (n, it) →
       source it (position it) = None →
       (has_next t s).1 = Raise NotImplementedError).
Proof.
  intros Hreach. destruct (reachable_unchanged _ _ _ Hreach) as [_ Hs].
  split; [intros t; apply Hs|]. split; [|split].
  - intros c t.
    by destruct (after_preserves unchanged unchanged_frame release_block_unchanged c s).
  - intros i t. apply update_ready_queue_ready_count.
  - intros t n it Hpos Hq Hroot Hsrc.
    rewrite (has_next_exhausted_run t s n it); try done.
    by destruct (Hs t) as [-> _].
Qed.

(** C10, at an input: task A of the chain after both of its blocks have
    been pulled, acquired and released. *)
Lemma ready_count_is_never_modified_witness :
  ready_count (state_of Chain.s4 "A") = 2
  ∧ ready_queue (blocks_of Chain.s4 "A") = []
  ∧ (has_next "A" Chain.s4).1 = Raise NotImplementedError.
Proof.
  destruct (ready_count_is_never_modified Chain.graph Chain.tasks Chain.s4
              chain_reachable_s4) as (Hseed & _ & _ & Hnext).
  split; [rewrite Hseed; vm_compute; reflexivity|].
  split; [vm_compute; reflexivity|].
  eapply (Hnext "A").
  - vm_compute. reflexivity.
  - vm_compute. reflexivity.
  - vm_compute. reflexivity.
  - vm_compute. reflexivity.
Defined.

(** * Part IV: the rest of the module

    Run lemmas for the cases of [has_next] and [acquire_block] that the
    claims do not need, the constructor task by task, and the relations
    between the states of the driving loop. *)

Lemma touch_blocks_id t s : is_Some (task_blocks s !! t) → touch_blocks t s = s.
Proof.
  intros [tb Htb]. unfold touch_blocks, blocks_of. rewrite Htb. cbn [default from_option id].
  by rewrite insert_id, set_task_blocks_id.
Qed.

Lemma has_next_idle_run t s :
  ready_queue (blocks_of s t) = [] →
  ¬ ready_count (state_of s t) > 0 →
  has_next t s = (Ret false, touch_states t (touch_blocks t s)).
Proof.
  intros Hq Hrc. unfold has_next.
  rewrite bind_run, task_blocks_item_run, Hq.
  rewrite bool_decide_eq_false_2 by (simpl; lia).
  rewrite bind_run, task_states_item_run.
  by rewrite state_of_touch_blocks, bool_decide_eq_false_2.
Qed.

Lemma has_next_no_source_run t s :
  ready_queue (blocks_of s t) = [] →
  ready_count (state_of s t) > 0 →
  root_tasks s !! t = None →
  has_next t s = (Raise KeyError, touch_states t (touch_blocks t s)).
Proof.
  intros Hq Hrc Hroot. unfold has_next.
  rewrite bind_run, task_blocks_item_run, Hq.
  rewrite bool_decide_eq_false_2 by (simpl; lia).
  rewrite bind_run, task_states_item_run.
  rewrite state_of_touch_blocks, bool_decide_eq_true_2 by done.
  rewrite bind_run. unfold get_self. fields. by rewrite Hroot.
Qed.

Lemma has_next_pull_run t s n it b :
  ready_queue (blocks_of s t) = [] →
  ready_count (state_of s t) > 0 →
  root_tasks s !! t = Some (n, it) →
  source it (position it) = Some b →
  has_next t s = (Ret true, pulled_state t n it b s).
Proof.
  intros Hq Hrc Hroot Hsrc. unfold has_next.
  rewrite bind_run, task_blocks_item_run, Hq.
  rewrite bool_decide_eq_false_2 by (simpl; lia).
  rewrite bind_run, task_states_item_run.
  rewrite state_of_touch_blocks, bool_decide_eq_true_2 by done.
  rewrite bind_run. unfold get_self. fields. rewrite Hroot.
  unfold iter_next. rewrite Hsrc.
  rewrite bind_run. unfold update_self.
  rewrite bind_run, task_blocks_mutate_run. cbn [mret M_ret].
  f_equal. unfold pulled_state. destruct s. norm. reflexivity.
Qed.

Lemma ready_queue_popleft_run t b rest s :
  ready_queue (blocks_of s t) = b :: rest →
  ready_queue_popleft t s =
  (Ret b, set_task_blocks (<[t := set_ready_queue rest (blocks_of s t)]> (task_blocks s)) s).
Proof.
  intros Hq. unfold ready_queue_popleft.
  rewrite bind_run, task_blocks_item_run, Hq.
  rewrite bind_run. unfold update_self. cbn [mret M_ret].
  f_equal. destruct s. norm. reflexivity.
Qed.

Lemma acquire_block_cached_run fuel t b rest s :
  ready_queue (blocks_of s t) = b :: rest →
  differs (cache_of s t).1 b = false →
  truthy (cache_of s t).2 = false →
  acquire_block (S fuel) t s = (Ret (Some b), hand_out t b rest s).
Proof.
  intros Hq Hd Ht. cbn [acquire_block].
  rewrite bind_run, has_next_queued_run by (by rewrite Hq).
  rewrite bind_run, (ready_queue_popleft_run t b rest) by (by rewrite blocks_of_touch).
  rewrite bind_run, precheck_cached_run by exact Hd.
  replace (truthy _) with false by (symmetry; exact Ht).
  rewrite !bind_run, task_states_mutate_run.
  rewrite bind_run, task_blocks_mutate_run.
  rewrite bind_run, task_states_mutate_run.
  cbn [mret M_ret]. f_equal.
  unfold hand_out. destruct s as [G tm tst tbl rt cs lp lg pc].
  norm. reflexivity.
Qed.

Lemma same_view_refl s : same_view s s.
Proof. by split. Qed.

Lemma same_view_trans s1 s2 s3 : same_view s1 s2 → same_view s2 s3 → same_view s1 s3.
Proof. intros [] []. split; try congruence; intros t; etrans; eauto. Qed.

Lemma same_view_touched t s : same_view s (touch_states t (touch_blocks t s)).
Proof.
  eapply same_view_trans; [apply same_view_touch_blocks|apply same_view_touch_states].
Qed.

Lemma pulled_state_pulled t n it b s :
  ready_queue (blocks_of s t) = [] →
  ready_count (state_of s t) > 0 →
  root_tasks s !! t = Some (n, it) →
  source it (position it) = Some b →
  pulled t b s (pulled_state t n it b s).
Proof.
  intros Hq Hrc Hroot Hsrc. unfold pulled_state. split; try done.
  - intros t'. change (state_of (touch_states t s) t' = state_of s t').
    apply state_of_touch.
  - intros t'. unfold blocks_of at 1. fields. rewrite lookup_insert, Hq.
    by destruct (decide (t = t')).
  - by exists n, it.
Qed.

Lemma has_next_effect t s : effect s (has_next t s).2.
Proof.
  destruct (ready_queue (blocks_of s t)) as [|b rest] eqn:Hq.
  - destruct (decide (ready_count (state_of s t) > 0)) as [Hrc|Hrc].
    + destruct (root_tasks s !! t) as [[n it]|] eqn:Hroot.
      * destruct (source it (position it)) as [b|] eqn:Hsrc.
        -- rewrite (has_next_pull_run t s n it b) by done.
           eapply eff_pulled. by apply pulled_state_pulled.
        -- rewrite (has_next_exhausted_run t s n it) by done.
           apply eff_none, same_view_touched.
      * rewrite has_next_no_source_run by done. apply eff_none, same_view_touched.
    + rewrite has_next_idle_run by done. apply eff_none, same_view_touched.
  - rewrite has_next_queued_run by (by rewrite Hq).
    apply eff_none, same_view_touch_blocks.
Qed.

Lemma hand_out_handed t b rest s :
  ready_queue (blocks_of s t) = b :: rest →
  handed t b s (hand_out t b rest s).
Proof.
  intros Hq. unfold hand_out. split; try done.
  - exists rest. split; [done|]. intros t'. unfold blocks_of at 1. fields.
    rewrite lookup_insert. by destruct (decide (t = t')).
  - intros t'. rewrite state_of_insert, orb_true_r. by destruct (decide (t = t')).
  - intros t'. by left.
  - by left.
Qed.

Lemma handed_out_handed t b rest s :
  ready_queue (blocks_of s t) = b :: rest →
  handed t b s (handed_out t b rest s).
Proof.
  intros Hq. unfold handed_out. split; try done.
  - exists rest. split; [done|]. intros t'. unfold blocks_of at 1. fields.
    rewrite lookup_insert. by destruct (decide (t = t')).
  - intros t'. rewrite state_of_insert, orb_true_r. by destruct (decide (t = t')).
  - intros t'. unfold cache_of. fields.
    destruct (decide (t = t')) as [<-|].
    + right. by rewrite lookup_insert_eq.
    + left. by rewrite lookup_insert_ne.
  - by right.
Qed.

(** [acquire_block] on a non-empty ready queue, no cached answer being True. *)
Lemma acquire_block_queued_handed fuel t b rest s :
  never_truthy s →
  ready_queue (blocks_of s t) = b :: rest →
  (acquire_block (S fuel) t s).1 = Ret (Some b)
  ∧ handed t b s (acquire_block (S fuel) t s).2.
Proof.
  intros Hnt Hq. destruct (differs (cache_of s t).1 b) eqn:Hd.
  - rewrite (acquire_block_fresh_run fuel t b rest) by done.
    split; [done|]. by apply handed_out_handed.
  - rewrite (acquire_block_cached_run fuel t b rest) by done.
    split; [done|]. by apply hand_out_handed.
Qed.

(** Once [has_next] has answered True, asking again changes nothing. *)
Lemma has_next_pulled_again t n it b s :
  ready_queue (blocks_of s t) = [] →
  has_next t (pulled_state t n it b s) = (Ret true, pulled_state t n it b s).
Proof.
  intros Hq.
  assert (ready_queue (blocks_of (pulled_state t n it b s) t) = [b]) as Hq'.
  { unfold pulled_state, blocks_of at 1. fields. by rewrite lookup_insert_eq, Hq. }
  rewrite has_next_queued_run by (by rewrite Hq').
  rewrite touch_blocks_id; [done|].
  unfold pulled_state. fields. by rewrite lookup_insert_eq.
Qed.

Lemma acquire_block_after_has_next fuel t s s1 :
  has_next t s = (Ret true, s1) →
  has_next t s1 = (Ret true, s1) →
  acquire_block (S fuel) t s = acquire_block (S fuel) t s1.
Proof.
  intros H1 H2. cbn [acquire_block]. by rewrite !bind_run, H1, H2.
Qed.

Lemma never_truthy_cache s s' :
  (∀ t, cache_of s' t = cache_of s t) → never_truthy s → never_truthy s'.
Proof. intros H Hs t. by rewrite H. Qed.

Lemma acquire_block_effect fuel t s :
  never_truthy s → effect s (acquire_block fuel t s).2.
Proof.
  intros Hnt. destruct fuel as [|fuel]; [apply eff_none, same_view_refl|].
  destruct (ready_queue (blocks_of s t)) as [|b rest] eqn:Hq.
  - destruct (decide (ready_count (state_of s t) > 0)) as [Hrc|Hrc].
    + destruct (root_tasks s !! t) as [[n it]|] eqn:Hroot.
      * destruct (source it (position it)) as [b|] eqn:Hsrc.
        -- rewrite (acquire_block_after_has_next fuel t s (pulled_state t n it b s)).
           2: by apply has_next_pull_run.
           2: by apply has_next_pulled_again.
           pose proof (pulled_state_pulled t n it b s Hq Hrc Hroot Hsrc) as Hp.
           eapply eff_trans; [by eapply eff_pulled|].
           eapply (eff_handed t b).
           apply (acquire_block_queued_handed fuel t b []).
           ++ apply (never_truthy_cache s); [|done]. intros t'.
              unfold cache_of. by rewrite (pl_cache _ _ _ _ Hp).
           ++ rewrite (pl_blocks _ _ _ _ Hp), decide_True by done. done.
        -- cbn [acquire_block].
           rewrite bind_run, (has_next_exhausted_run t s n it) by done.
           apply eff_none, same_view_touched.
      * cbn [acquire_block]. rewrite bind_run, has_next_no_source_run by done.
        apply eff_none, same_view_touched.
    + cbn [acquire_block]. rewrite bind_run, has_next_idle_run by done.
      apply eff_none, same_view_touched.
  - eapply (eff_handed t b). by apply (acquire_block_queued_handed fuel t b rest).
Qed.

Lemma release_block_effect fuel b s : effect s (release_block fuel b s).2.
Proof.
  destruct (decide (Block.block_id b ∈ processing_blocks (blocks_of s (Block.task_id b))))
    as [Hin|Hout]; destruct (Block.status b) eqn:Hst.
  all: try (rewrite release_block_other_run by (by rewrite Hst);
            apply eff_none, same_view_refl).
  all: try (rewrite release_block_missing_run by (rewrite ?Hst; auto);
            apply eff_none, same_view_touch_blocks).
  - destruct (release_block_success_run fuel b s Hst Hin) as (m & s' & -> & Hrel).
    by eapply eff_released.
  - rewrite release_block_failed_run by done.
    eapply eff_failed; [done|]. apply same_view_touch_blocks.
Qed.

Lemma effect_never_truthy s s' : effect s s' → never_truthy s → never_truthy s'.
Proof.
  induction 1 as [s s' Hv|t b s s' Hp|t b s s' Hh|b m s s' _ Hrel|b s s' _ Hv|];
    intros Hs; [..|by auto].
  - apply (never_truthy_cache s); [apply Hv|done].
  - apply (never_truthy_cache s); [|done]. intros t'.
    unfold cache_of. by rewrite (pl_cache _ _ _ _ Hp).
  - intros t'. destruct (hd_cache _ _ _ _ Hh t') as [->|[_ ->]]; [apply Hs|done].
  - apply (never_truthy_cache s); [|done]. intros t'.
    unfold cache_of. by rewrite (rel_cache _ _ _ _ Hrel).
  - apply (never_truthy_cache (failed_state b s)); [apply Hv|].
    apply (never_truthy_cache s); [|done]. done.
Qed.

Lemma after_effect c s : never_truthy s → effect s (after c s).
Proof.
  intros Hs. destruct c as [t|fuel t|fuel b]; cbn [after].
  - apply has_next_effect.
  - by apply acquire_block_effect.
  - apply release_block_effect.
Qed.

Lemma reachable_never_truthy G tasks s : reachable G tasks s → never_truthy s.
Proof.
  induction 1 as [s Hinit|c s _ IH].
  - apply __init___ret in Hinit as (_ & _ & _ & _ & Hc & _).
    intros t. unfold cache_of. by rewrite Hc, lookup_empty.
  - eapply effect_never_truthy; [by apply after_effect|done].
Qed.

Lemma reachable_effect G tasks s c : reachable G tasks s → effect s (after c s).
Proof. intros H. eapply after_effect, reachable_never_truthy, H. Qed.

(** ** The constructor, task by task *)

Lemma __init_task_known_run task s :
  task_map s !! Task.task_id task ≠ None →
  __init_task task s = (Ret (), s).
Proof.
  intros Hold. unfold __init_task. rewrite bind_run. unfold get_self.
  by rewrite decide_False.
Qed.

Lemma __init_task_new_run task s :
  task_map s !! Task.task_id task = None →
  __init_task task s =
  (match Task.requires task with [] => Ret () | _ => Raise AttributeError end,
   register task s).
Proof.
  intros Hnew. unfold __init_task. rewrite bind_run. unfold get_self.
  rewrite decide_True by done. rewrite bind_run. unfold update_self.
  rewrite bind_run, task_states_mutate_run. rewrite bind_run. fields.
  unfold register.
  destruct (root_tasks s !! Task.task_id task) as [[n it]|] eqn:Hroot.
  - rewrite task_states_mutate_run.
    assert (∀ l, for_each l Scheduler_add =
                 λ s, (match l with [] => Ret () | _ => Raise AttributeError end, s))
      as -> by (by intros [|u us]).
    destruct s. norm. done.
  - assert (∀ l, for_each l Scheduler_add =
                 λ s, (match l with [] => Ret () | _ => Raise AttributeError end, s))
      as -> by (by intros [|u us]).
    destruct s. norm. done.
Qed.

Lemma register_dom task s :
  dom (task_map (register task s)) = {[Task.task_id task]} ∪ dom (task_map s).
Proof. unfold register. fields. by rewrite dom_insert_L. Qed.

Lemma __init_loop_run tasks : ∀ s,
  Forall (λ x, Task.requires x = []) (first_occurrences (dom (task_map s)) tasks) →
  for_each tasks __init_task s = (Ret (), register_all tasks s).
Proof.
  induction tasks as [|x rest IH]; intros s Hall; [done|].
  cbn [for_each first_occurrences register_all foldl] in *. rewrite bind_run.
  destruct (decide (Task.task_id x ∈ dom (task_map s))) as [Hin|Hout].
  - apply elem_of_dom in Hin as [y Hy].
    rewrite __init_task_known_run by (by rewrite Hy).
    rewrite decide_False by (by rewrite Hy). by apply IH.
  - apply not_elem_of_dom in Hout. apply Forall_cons in Hall as [Hx Hall].
    rewrite __init_task_new_run, Hx, decide_True by done.
    apply IH. by rewrite register_dom.
Qed.

Lemma __init_loop_raise tasks : ∀ s,
  Exists (λ x, Task.requires x ≠ []) (first_occurrences (dom (task_map s)) tasks) →
  (for_each tasks __init_task s).1 = Raise AttributeError.
Proof.
  induction tasks as [|x rest IH]; intros s Hex;
    cbn [for_each first_occurrences] in *; [by apply Exists_nil in Hex|].
  rewrite bind_run.
  destruct (decide (Task.task_id x ∈ dom (task_map s))) as [Hin|Hout].
  - apply elem_of_dom in Hin as [y Hy].
    rewrite __init_task_known_run by (by rewrite Hy). by apply IH.
  - apply not_elem_of_dom in Hout. rewrite __init_task_new_run by done.
    destruct (Task.requires x) as [|u us] eqn:Hreq; [|done].
    apply Exists_cons in Hex as [Hx|Hex]; [done|].
    apply IH. by rewrite register_dom.
Qed.

Lemma first_occurrences_requirements seen tasks :
  Forall (λ x, Task.requires x = []) (first_occurrences seen tasks)
  ∨ Exists (λ x, Task.requires x ≠ []) (first_occurrences seen tasks).
Proof.
  induction (first_occurrences seen tasks) as [|x l [IH|IH]].
  - left. constructor.
  - destruct (Task.requires x) as [|u us] eqn:Hx.
    + left. by constructor.
    + right. apply Exists_cons_hd. by rewrite Hx.
  - right. by apply Exists_cons_tl.
Qed.

Lemma register_all_registered tasks : ∀ s, registered tasks s (register_all tasks s).
Proof.
  induction tasks as [|x rest IH]; intros s; cbn [register_all foldl].
  - split; try done.
    + intros t. by destruct (task_map s !! t).
    + intros t. rewrite decide_False; [done|]. rewrite fmap_nil. set_solver.
  - destruct (decide (task_map s !! Task.task_id x = None)) as [Hnew|Hold].
    + destruct (IH (register x s)) as [Hg Hb Hr Hsf Hc Hl Hcl Hm Hst].
      split; try done.
      * intros t. rewrite Hm. unfold register. fields. cbn [first_with_id].
        rewrite lookup_insert.
        destruct (decide (Task.task_id x = t)) as [<-|]; [by rewrite Hnew|done].
      * intros t. rewrite Hst, fmap_cons.
        assert (task_map (register x s) !! t =
                if decide (Task.task_id x = t) then Some x else task_map s !! t) as Hmap.
        { unfold register. fields. rewrite lookup_insert.
          by destruct (decide (Task.task_id x = t)). }
        change (root_tasks (register x s)) with (root_tasks s).
        change (dependency_graph (register x s)) with (dependency_graph s).
        rewrite Hmap.
        destruct (decide (Task.task_id x = t)) as [<-|Hne].
        -- rewrite decide_False by (by intros []).
           rewrite decide_True by (split; [done|set_solver]).
           unfold register, state_of at 1. fields. rewrite lookup_insert_eq.
           cbn [default from_option id].
           by destruct (root_tasks s !! Task.task_id x) as [[n it]|];
             destruct (state_of s (Task.task_id x)).
        -- assert (state_of (register x s) t = state_of s t) as ->.
           { unfold register, state_of. fields. by rewrite lookup_insert_ne. }
           destruct (decide (task_map s !! t = None ∧ t ∈ Task.task_id <$> rest))
             as [[]|Hn].
           ++ rewrite decide_True by (split; [done|set_solver]). done.
           ++ rewrite decide_False; [done|]. intros [? Hin]. apply Hn. split; [done|].
              set_solver.
    + destruct (IH s) as [Hg Hb Hr Hsf Hc Hl Hcl Hm Hst].
      split; try done.
      * intros t. rewrite Hm. cbn [first_with_id].
        destruct (task_map s !! t) eqn:Ht; [done|].
        destruct (decide (Task.task_id x = t)) as [<-|]; [done|done].
      * intros t. rewrite Hst, fmap_cons.
        destruct (decide (task_map s !! t = None ∧ t ∈ Task.task_id <$> rest))
          as [[]|Hn].
        -- rewrite decide_True by (split; [done|set_solver]). done.
        -- rewrite decide_False; [done|]. intros [Ht Hin]. apply Hn. split; [done|].
           apply elem_of_cons in Hin as [->|]; [done|done].
Qed.

(** The constructor body, run on the blank object. *)
Lemma __init___body_run G tasks :
  __init___body tasks (blank G) =
  (for_each tasks __init_task;;
   update_self (set_completed_surface ∅);;
   update_self (set_last_prechecked ∅))
    (set_root_tasks (roots G) (blank G)).
Proof.
  unfold __init___body.
  rewrite bind_run. unfold get_self, update_self. cbv beta iota.
  do 4 (rewrite bind_run; cbv beta iota). done.
Qed.

(** ** Invariants of the driving loop *)

Lemma failed_state_states b s t :
  state_of (failed_state b s) t =
  if decide (Block.task_id b = t)
  then set_failed_count (failed_count (state_of s t) + 1)
         (set_processing_count (processing_count (state_of s t) - 1) (state_of s t))
  else state_of s t.
Proof.
  unfold failed_state. rewrite state_of_insert.
  by destruct (decide (Block.task_id b = t)) as [<-|].
Qed.

Lemma failed_state_blocks b s t :
  blocks_of (failed_state b s) t =
  if decide (Block.task_id b = t)
  then set_failed_blocks ({[Block.block_id b]} ∪ failed_blocks (blocks_of s t))
         (set_processing_blocks (processing_blocks (blocks_of s t) ∖ {[Block.block_id b]})
            (blocks_of s t))
  else blocks_of s t.
Proof.
  unfold failed_state, blocks_of at 1. fields. rewrite lookup_insert.
  by destruct (decide (Block.task_id b = t)) as [<-|].
Qed.

Lemma progress_refl s : progress s s.
Proof.
  split; try done.
  - intros t. destruct (root_tasks s !! t) as [[n [src p]]|]; [|done]. by exists p.
  - exists []. by rewrite app_nil_r.
Qed.

Lemma progress_trans s1 s2 s3 : progress s1 s2 → progress s2 s3 → progress s1 s3.
Proof.
  intros H12 H23. split.
  - by rewrite (pg_graph _ _ H23), (pg_graph _ _ H12).
  - by rewrite (pg_task_map _ _ H23), (pg_task_map _ _ H12).
  - intros t. by rewrite (pg_total _ _ H23), (pg_total _ _ H12).
  - intros t Ht. by apply (pg_started _ _ H23), (pg_started _ _ H12).
  - intros t. etrans; [apply (pg_completed _ _ H12)|apply (pg_completed _ _ H23)].
  - intros t. etrans; [apply (pg_failed _ _ H12)|apply (pg_failed _ _ H23)].
  - intros t. etrans; [apply (pg_completed_count _ _ H12)|apply (pg_completed_count _ _ H23)].
  - intros t. etrans; [apply (pg_failed_count _ _ H12)|apply (pg_failed_count _ _ H23)].
  - intros t. pose proof (pg_sources _ _ H12 t) as Ha.
    pose proof (pg_sources _ _ H23 t) as Hb.
    destruct (root_tasks s1 !! t) as [[n it]|].
    + destruct Ha as (p & Ha & Hp). rewrite Ha in Hb. destruct Hb as (p' & Hb & Hp').
      exists p'. split; [done|]. simpl in Hp'. lia.
    + by rewrite Ha in Hb.
  - by rewrite (pg_calls _ _ H23), (pg_calls _ _ H12).
  - destruct (pg_log _ _ H12) as (l & Hl & Hfl), (pg_log _ _ H23) as (l' & Hl' & Hfl').
    exists (l ++ l'). split; [by rewrite Hl', Hl, app_assoc|by apply Forall_app].
Qed.

Lemma same_view_progress s s' : same_view s s' → progress s s'.
Proof.
  intros Hv. split.
  - apply Hv.
  - apply Hv.
  - intros t. by rewrite (sv_states _ _ Hv).
  - intros t. by rewrite (sv_states _ _ Hv).
  - intros t. by rewrite (sv_blocks _ _ Hv).
  - intros t. by rewrite (sv_blocks _ _ Hv).
  - intros t. by rewrite (sv_states _ _ Hv).
  - intros t. by rewrite (sv_states _ _ Hv).
  - intros t. rewrite (sv_roots _ _ Hv).
    destruct (root_tasks s !! t) as [[n [src p]]|]; [|done]. by exists p.
  - apply Hv.
  - exists []. by rewrite app_nil_r, (sv_log _ _ Hv).
Qed.

Lemma pulled_progress t b s s' : pulled t b s s' → progress s s'.
Proof.
  intros Hp. split.
  - apply Hp.
  - apply Hp.
  - intros t'. by rewrite (pl_states _ _ _ _ Hp).
  - intros t'. by rewrite (pl_states _ _ _ _ Hp).
  - intros t'. rewrite (pl_blocks _ _ _ _ Hp). by destruct (decide (t = t')) as [<-|].
  - intros t'. rewrite (pl_blocks _ _ _ _ Hp). by destruct (decide (t = t')) as [<-|].
  - intros t'. by rewrite (pl_states _ _ _ _ Hp).
  - intros t'. by rewrite (pl_states _ _ _ _ Hp).
  - intros t'. destruct (pl_roots _ _ _ _ Hp) as (n & it & Hroot & _ & ->).
    rewrite lookup_insert. destruct (decide (t = t')) as [<-|].
    + rewrite Hroot. exists (S (position it)). split; [done|lia].
    + destruct (root_tasks s !! t') as [[n' [src p]]|]; [|done]. by exists p.
  - apply Hp.
  - exists []. by rewrite app_nil_r, (pl_log _ _ _ _ Hp).
Qed.

Lemma handed_progress t b s s' : handed t b s s' → progress s s'.
Proof.
  intros Hh. destruct (hd_blocks _ _ _ _ Hh) as (rest & _ & Hb).
  split.
  - apply Hh.
  - apply Hh.
  - intros t'. rewrite (hd_states _ _ _ _ Hh). by destruct (decide (t = t')) as [<-|].
  - intros t'. rewrite (hd_states _ _ _ _ Hh). by destruct (decide (t = t')) as [<-|].
  - intros t'. rewrite Hb. by destruct (decide (t = t')) as [<-|].
  - intros t'. rewrite Hb. by destruct (decide (t = t')) as [<-|].
  - intros t'. rewrite (hd_states _ _ _ _ Hh). by destruct (decide (t = t')) as [<-|].
  - intros t'. rewrite (hd_states _ _ _ _ Hh). by destruct (decide (t = t')) as [<-|].
  - intros t'. rewrite (hd_roots _ _ _ _ Hh).
    destruct (root_tasks s !! t') as [[n' [src p]]|]; [|done]. by exists p.
  - apply Hh.
  - destruct (hd_log _ _ _ _ Hh) as [->| ->].
    + exists []. by rewrite app_nil_r.
    + eexists. split; [done|]. apply Forall_singleton. by eexists _, _.
Qed.

Lemma released_progress b m s s' : released b s s' m → progress s s'.
Proof.
  intros Hr. split.
  - apply Hr.
  - apply Hr.
  - intros t. rewrite (rel_states _ _ _ _ Hr). by destruct (decide _) as [<-|].
  - intros t. rewrite (rel_states _ _ _ _ Hr). by destruct (decide _) as [<-|].
  - intros t. rewrite (rel_completed _ _ _ _ Hr). destruct (decide _); set_solver.
  - intros t. by rewrite (rel_failed _ _ _ _ Hr).
  - intros t. rewrite (rel_states _ _ _ _ Hr).
    destruct (decide _) as [<-|]; tfields; lia.
  - intros t. rewrite (rel_states _ _ _ _ Hr).
    destruct (decide _) as [<-|]; tfields; lia.
  - intros t. rewrite (rel_roots _ _ _ _ Hr).
    destruct (root_tasks s !! t) as [[n' [src p]]|]; [|done]. by exists p.
  - apply Hr.
  - exists []. by rewrite app_nil_r, (rel_log _ _ _ _ Hr).
Qed.

Lemma failed_state_progress b s : progress s (failed_state b s).
Proof.
  split; try done.
  - intros t. rewrite failed_state_states. by destruct (decide _) as [<-|].
  - intros t. rewrite failed_state_states. by destruct (decide _) as [<-|].
  - intros t. rewrite failed_state_blocks. by destruct (decide _) as [<-|].
  - intros t. rewrite failed_state_blocks. destruct (decide _) as [<-|]; tfields; set_solver.
  - intros t. rewrite failed_state_states. destruct (decide _) as [<-|]; tfields; lia.
  - intros t. rewrite failed_state_states. destruct (decide _) as [<-|]; tfields; lia.
  - intros t. change (root_tasks (failed_state b s)) with (root_tasks s).
    destruct (root_tasks s !! t) as [[n' [src p]]|]; [|done]. by exists p.
  - exists []. by rewrite app_nil_r.
Qed.

Lemma effect_progress s s' : effect s s' → progress s s'.
Proof.
  induction 1 as [s s' Hv|t b s s' Hp|t b s s' Hh|b m s s' _ Hrel|b s s' _ Hv|].
  - by apply same_view_progress.
  - by eapply pulled_progress.
  - by eapply handed_progress.
  - by eapply released_progress.
  - eapply progress_trans; [apply failed_state_progress|by apply same_view_progress].
  - by eapply progress_trans.
Qed.

Lemma size_add_le (x : BlockId) (X : gset BlockId) :
  (size ({[x]} ∪ X) ≤ S (size X))%nat.
Proof.
  destruct (decide (x ∈ X)).
  - replace ({[x]} ∪ X) with X by set_solver. lia.
  - rewrite size_union by set_solver. rewrite size_singleton. lia.
Qed.

Lemma size_remove (x : BlockId) (X : gset BlockId) :
  x ∈ X → S (size (X ∖ {[x]})) = size X.
Proof.
  intros Hx. rewrite size_difference by set_solver. rewrite size_singleton.
  assert (size X ≠ 0%nat); [|lia].
  intros H0. apply size_empty_inv in H0. set_solver.
Qed.

Lemma same_view_steady s s' : same_view s s' → steady s → steady s'.
Proof.
  intros Hv [Hnt [Hp Hc Hf] Hu HI]. split.
  - apply (never_truthy_cache s); [apply Hv|done].
  - split; intros t; rewrite (sv_states _ _ Hv), (sv_blocks _ _ Hv); auto.
  - intros t. rewrite (sv_states _ _ Hv). intros [] %Hu.
    split; by rewrite ?(sv_states _ _ Hv), ?(sv_blocks _ _ Hv).
  - by apply (same_view_keeps_Inv s s').
Qed.

Lemma pulled_steady t b s s' : pulled t b s s' → steady s → steady s'.
Proof.
  intros Hp [Hnt [Hpc Hc Hf] Hu HI].
  assert (∀ t', processing_blocks (blocks_of s' t') = processing_blocks (blocks_of s t')
                ∧ completed_blocks (blocks_of s' t') = completed_blocks (blocks_of s t')
                ∧ failed_blocks (blocks_of s' t') = failed_blocks (blocks_of s t'))
    as Hb.
  { intros t'. rewrite (pl_blocks _ _ _ _ Hp). by destruct (decide (t = t')) as [<-|]. }
  split.
  - apply (never_truthy_cache s); [|done]. intros t'.
    unfold cache_of. by rewrite (pl_cache _ _ _ _ Hp).
  - split; intros t'; destruct (Hb t') as (Hb1 & Hb2 & Hb3);
      rewrite ?Hb1, ?Hb2, ?Hb3, (pl_states _ _ _ _ Hp); auto.
  - intros t'. rewrite (pl_states _ _ _ _ Hp). intros [] %Hu.
    destruct (Hb t') as (Hb1 & Hb2 & Hb3).
    split; by rewrite ?(pl_states _ _ _ _ Hp), ?Hb1, ?Hb2, ?Hb3.
  - apply (Inv_ext s); [apply Hp| |done]. intros t'. apply Hb.
Qed.

Lemma handed_steady t b s s' : handed t b s s' → steady s → steady s'.
Proof.
  intros Hh [Hnt [Hpc Hc Hf] Hu HI].
  destruct (hd_blocks _ _ _ _ Hh) as (rest & _ & Hb).
  pose proof (hd_states _ _ _ _ Hh) as Hs.
  split.
  - intros t'. destruct (hd_cache _ _ _ _ Hh t') as [->|[_ ->]]; [apply Hnt|done].
  - split; intros t'; rewrite Hb, Hs; destruct (decide (t = t')) as [<-|]; tfields; auto.
    pose proof (size_add_le (Block.block_id b) (processing_blocks (blocks_of s t))).
    specialize (Hpc t). lia.
  - intros t'. rewrite Hs. destruct (decide (t = t')) as [<-|Hne]; [done|].
    intros [] %Hu. split; rewrite ?Hs, ?Hb, ?decide_False by done; done.
  - apply (Inv_ext s); [apply Hh| |done]. intros t'. rewrite Hb.
    by destruct (decide (t = t')) as [<-|].
Qed.

Lemma released_steady b m s s' :
  Block.block_id b ∈ processing_blocks (blocks_of s (Block.task_id b)) →
  released b s s' m → steady s → steady s'.
Proof.
  intros Hin Hr [Hnt [Hpc Hc Hf] Hu HI].
  pose proof (rel_states _ _ _ _ Hr) as Hs.
  split.
  - apply (never_truthy_cache s); [|done]. intros t'.
    unfold cache_of. by rewrite (rel_cache _ _ _ _ Hr).
  - split; intros t; rewrite Hs.
    + rewrite (rel_processing _ _ _ _ Hr).
      destruct (decide (Block.task_id b = t)) as [<-|]; tfields; [|auto].
      pose proof (size_remove _ _ Hin). specialize (Hpc (Block.task_id b)). lia.
    + rewrite (rel_completed _ _ _ _ Hr).
      destruct (decide (Block.task_id b = t)) as [<-|]; tfields; [|auto].
      pose proof (size_add_le (Block.block_id b)
                    (completed_blocks (blocks_of s (Block.task_id b)))).
      specialize (Hc (Block.task_id b)). lia.
    + rewrite (rel_failed _ _ _ _ Hr).
      destruct (decide (Block.task_id b = t)) as [<-|]; tfields; auto.
  - intros t. rewrite Hs. destruct (decide (Block.task_id b = t)) as [<-|Hne].
    + tfields. intros Hst. apply Hu in Hst as []. set_solver.
    + intros [] %Hu.
      split; rewrite ?Hs, ?(rel_processing _ _ _ _ Hr), ?(rel_completed _ _ _ _ Hr),
        ?(rel_failed _ _ _ _ Hr), ?decide_False by done; done.
  - by apply (released_Inv b s s' m).
Qed.

Lemma failed_state_steady b s :
  Block.block_id b ∈ processing_blocks (blocks_of s (Block.task_id b)) →
  steady s → steady (failed_state b s).
Proof.
  intros Hin [Hnt [Hpc Hc Hf] Hu HI].
  split.
  - done.
  - split; intros t; rewrite failed_state_states, failed_state_blocks;
      destruct (decide (Block.task_id b = t)) as [<-|]; tfields; auto.
    + pose proof (size_remove _ _ Hin). specialize (Hpc (Block.task_id b)). lia.
    + pose proof (size_add_le (Block.block_id b)
                    (failed_blocks (blocks_of s (Block.task_id b)))).
      specialize (Hf (Block.task_id b)). lia.
  - intros t. rewrite failed_state_states.
    destruct (decide (Block.task_id b = t)) as [<-|Hne].
    + tfields. intros Hst. apply Hu in Hst as []. set_solver.
    + intros [] %Hu.
      split; rewrite ?failed_state_states, ?failed_state_blocks, ?decide_False by done;
        done.
  - apply (Inv_ext s); [reflexivity| |done]. intros t. rewrite failed_state_blocks.
    by destruct (decide _) as [<-|].
Qed.

Lemma effect_steady s s' : effect s s' → steady s → steady s'.
Proof.
  induction 1 as [s s' Hv|t b s s' Hp|t b s s' Hh|b m s s' Hin Hrel|b s s' Hin Hv|];
    intros Hs.
  - by eapply same_view_steady.
  - by eapply pulled_steady.
  - by eapply handed_steady.
  - by eapply released_steady.
  - eapply same_view_steady; [done|]. by apply failed_state_steady.
  - auto.
Qed.

(** The frontier never loses a member. *)
Lemma effect_surface s s' :
  effect s s' → steady s → completed_surface s ⊆ completed_surface s'.
Proof.
  induction 1 as [s s' Hv|t b s s' Hp|t b s s' Hh|b m s s' Hin Hrel|b s s' Hin Hv|
                  s1 s2 s3 H12 IH12 H23 IH23]; intros Hs.
  - by rewrite (sv_surface _ _ Hv).
  - by rewrite (pl_surface _ _ _ _ Hp).
  - by rewrite (hd_surface _ _ _ _ Hh).
  - destruct (rel_surface _ _ _ _ Hrel) as [_ Hid]. intros k Hk.
    destruct (inv_surface_completed _ (st_Inv _ Hs) k Hk) as (i & -> & _).
    apply Hid. set_solver.
  - by rewrite (sv_surface _ _ Hv).
  - etrans; [by apply IH12|]. apply IH23. by eapply effect_steady.
Qed.

(** ** The constructor as a whole *)

Lemma __init___run G tasks :
  Forall (λ x, Task.requires x = []) (first_occurrences ∅ tasks) →
  __init__ G tasks =
  Ret (set_last_prechecked ∅
         (set_completed_surface ∅
            (register_all tasks (set_root_tasks (roots G) (blank G))))).
Proof.
  intros Hall. unfold __init__. rewrite __init___body_run.
  rewrite bind_run, __init_loop_run; [done|].
  fields. cbn [blank task_map]. by rewrite dom_empty_L.
Qed.

Lemma __init___raise G tasks :
  Exists (λ x, Task.requires x ≠ []) (first_occurrences ∅ tasks) →
  __init__ G tasks = Raise AttributeError.
Proof.
  intros Hex. unfold __init__. rewrite __init___body_run. rewrite bind_run.
  pose proof (__init_loop_raise tasks (set_root_tasks (roots G) (blank G))) as Hr.
  destruct (for_each tasks __init_task _) as [o s1]. cbn [fst] in Hr.
  rewrite Hr; [done|]. fields. cbn [blank task_map]. by rewrite dom_empty_L.
Qed.

Lemma __init___full G tasks s0 :
  __init__ G tasks = Ret s0 →
  Forall (λ x, Task.requires x = []) (first_occurrences ∅ tasks)
  ∧ dependency_graph s0 = G
  ∧ root_tasks s0 = roots G
  ∧ task_blocks s0 = ∅
  ∧ completed_surface s0 = ∅
  ∧ last_prechecked s0 = ∅
  ∧ log s0 = []
  ∧ pre_check_calls s0 = []
  ∧ (∀ t, task_map s0 !! t = first_with_id t tasks)
  ∧ (∀ t, state_of s0 t = seeded_state G tasks t).
Proof.
  intros Hinit.
  destruct (first_occurrences_requirements ∅ tasks) as [Hall|Hex].
  2: { by rewrite __init___raise in Hinit. }
  split; [done|]. rewrite __init___run in Hinit by done. injection Hinit as <-.
  destruct (register_all_registered tasks (set_root_tasks (roots G) (blank G)))
    as [Hg Hb Hr Hsf Hc Hl Hcl Hm Hst].
  assert (∀ t, state_of (register_all tasks (set_root_tasks (roots G) (blank G))) t =
               seeded_state G tasks t) as Hseed.
  { intros t. rewrite Hst. unfold seeded_state, root_count, state_of.
    cbn [set_root_tasks blank task_map task_states root_tasks dependency_graph].
    rewrite !lookup_empty. cbn [default from_option id].
    destruct (decide (t ∈ Task.task_id <$> tasks)).
    - rewrite decide_True by done. by destruct (roots G !! t) as [[n it]|].
    - by rewrite decide_False by (by intros []). }
  unfold state_of in *.
  destruct (register_all tasks (set_root_tasks (roots G) (blank G))).
  cbn in Hg, Hb, Hr, Hsf, Hc, Hl, Hcl, Hm, Hseed. fields.
  repeat split; try done.
Qed.

Lemma __init___steady G tasks s : __init__ G tasks = Ret s → steady s.
Proof.
  intros Hinit.
  pose proof (reachable_Inv G tasks s (reach_init G tasks s Hinit)) as HI.
  pose proof (reachable_never_truthy G tasks s (reach_init G tasks s Hinit)) as Hnt.
  apply __init___full in Hinit as (_ & _ & _ & Hb & _ & _ & _ & _ & _ & Hs).
  assert (∀ t, blocks_of s t = TaskBlocks_new) as Hbt.
  { intros t. unfold blocks_of. by rewrite Hb, lookup_empty. }
  assert (∀ t, processing_count (state_of s t) = 0
               ∧ completed_count (state_of s t) = 0
               ∧ failed_count (state_of s t) = 0) as Hz.
  { intros t. rewrite Hs. unfold seeded_state. by destruct (decide _). }
  split; [done| |  |done].
  - split; intros t; rewrite Hbt; destruct (Hz t) as (Hz1 & Hz2 & Hz3);
      by rewrite ?Hz1, ?Hz2, ?Hz3.
  - intros t _. destruct (Hz t) as (? & ? & ?). split; by rewrite ?Hbt.
Qed.

Lemma reachable_steady G tasks s : reachable G tasks s → steady s.
Proof.
  induction 1 as [s Hinit|c s _ IH].
  - by eapply __init___steady.
  - eapply effect_steady; [|done]. apply after_effect, IH.
Qed.

Lemma run_calls_snoc calls c s : run_calls (calls ++ [c]) s = after c (run_calls calls s).
Proof. unfold run_calls. by rewrite foldl_snoc. Qed.

Lemma run_calls_reachable G tasks calls s :
  reachable G tasks s → reachable G tasks (run_calls calls s).
Proof.
  intros Hs. induction calls as [|c calls IH] using rev_ind; [done|].
  rewrite run_calls_snoc. by apply reach_call.
Qed.

Lemma run_calls_effect G tasks calls s :
  reachable G tasks s → effect s (run_calls calls s).
Proof.
  intros Hs. induction calls as [|c calls IH] using rev_ind.
  - apply eff_none, same_view_refl.
  - rewrite run_calls_snoc. eapply eff_trans; [done|].
    eapply reachable_effect, run_calls_reachable, Hs.
Qed.

(** Every reachable state is the result of a run from the constructed
    scheduler. *)
Lemma reachable_run_calls G tasks s :
  reachable G tasks s →
  ∃ s0 calls, __init__ G tasks = Ret s0 ∧ s = run_calls calls s0.
Proof.
  induction 1 as [s Hinit|c s _ (s0 & calls & Hinit & ->)].
  - by exists s, [].
  - exists s0, (calls ++ [c]). by rewrite run_calls_snoc.
Qed.

(** ** [has_next], called again *)

Lemma touch_blocks_lookup t s : is_Some (task_blocks (touch_blocks t s) !! t).
Proof. unfold touch_blocks. fields. by rewrite lookup_insert_eq. Qed.

Lemma has_next_true_again t s s1 :
  has_next t s = (Ret true, s1) → has_next t s1 = (Ret true, s1).
Proof.
  destruct (ready_queue (blocks_of s t)) as [|b rest] eqn:Hq.
  - destruct (decide (ready_count (state_of s t) > 0)) as [Hrc|Hrc].
    + destruct (root_tasks s !! t) as [[n it]|] eqn:Hroot.
      * destruct (source it (position it)) as [b|] eqn:Hsrc.
        -- rewrite (has_next_pull_run t s n it b) by done. intros [= <-].
           by apply has_next_pulled_again.
        -- by rewrite (has_next_exhausted_run t s n it).
      * by rewrite has_next_no_source_run.
    + by rewrite has_next_idle_run.
  - rewrite has_next_queued_run by (by rewrite Hq). intros [= <-].
    rewrite has_next_queued_run by (by rewrite blocks_of_touch, Hq).
    by rewrite touch_blocks_id by apply touch_blocks_lookup.
Qed.

Lemma touched_blocks_of t s t' :
  blocks_of (touch_states t (touch_blocks t s)) t' = blocks_of s t'.
Proof. by rewrite blocks_of_touch_states, blocks_of_touch. Qed.

Lemma touched_state_of t s t' :
  state_of (touch_states t (touch_blocks t s)) t' = state_of s t'.
Proof. by rewrite state_of_touch, state_of_touch_blocks. Qed.

(** ** Reachable states, seen from the constructed scheduler *)

Lemma reachable_from_init G tasks s :
  reachable G tasks s → ∃ s0, __init__ G tasks = Ret s0 ∧ effect s0 s.
Proof.
  intros (s0 & calls & Hinit & ->) %reachable_run_calls.
  exists s0. split; [done|]. eapply run_calls_effect, reach_init, Hinit.
Qed.

Lemma reachable_sources G tasks s t :
  reachable G tasks s →
  match roots G !! t with
  | Some (n, it) =>
      ∃ p, root_tasks s !! t = Some (n, mkIter (source it) p) ∧ (position it ≤ p)%nat
  | None => root_tasks s !! t = None
  end.
Proof.
  intros (s0 & Hinit & Heff) %reachable_from_init.
  apply __init___full in Hinit as (_ & _ & Hr & _).
  pose proof (pg_sources _ _ (effect_progress _ _ Heff) t) as Hp.
  by rewrite Hr in Hp.
Qed.

Lemma reachable_root G tasks s t :
  reachable G tasks s → seeded G tasks t > 0 →
  ∃ n it, root_tasks s !! t = Some (n, it).
Proof.
  intros Hreach Hpos. pose proof (reachable_sources G tasks s t Hreach) as Hs.
  unfold seeded, root_count in Hpos.
  destruct (decide _); [|lia].
  destruct (roots G !! t) as [[n it]|]; [|lia].
  destruct Hs as (p & Hs & _). eauto.
Qed.

(** ** [acquire_block] where no cached answer is True *)

Lemma acquire_block_fuel fuel t s :
  never_truthy s → acquire_block (S fuel) t s = acquire_block 1 t s.
Proof.
  intros Hnt.
  assert (∀ s b rest, never_truthy s → ready_queue (blocks_of s t) = b :: rest →
                      acquire_block (S fuel) t s = acquire_block 1 t s) as Hqueued.
  { intros s' b rest Hnt' Hq. destruct (differs (cache_of s' t).1 b) eqn:Hd.
    - by rewrite !(acquire_block_fresh_run _ t b rest).
    - by rewrite !(acquire_block_cached_run _ t b rest). }
  destruct (ready_queue (blocks_of s t)) as [|b rest] eqn:Hq; [|by eapply Hqueued].
  destruct (decide (ready_count (state_of s t) > 0)) as [Hrc|Hrc].
  - destruct (root_tasks s !! t) as [[n it]|] eqn:Hroot.
    + destruct (source it (position it)) as [b|] eqn:Hsrc.
      * pose proof (pulled_state_pulled t n it b s Hq Hrc Hroot Hsrc) as Hp.
        rewrite !(acquire_block_after_has_next _ t s (pulled_state t n it b s))
          by (by apply has_next_pull_run || by apply has_next_pulled_again).
        apply (Hqueued _ b []).
        -- apply (never_truthy_cache s); [|done]. intros t'.
           unfold cache_of. by rewrite (pl_cache _ _ _ _ Hp).
        -- by rewrite (pl_blocks _ _ _ _ Hp), decide_True.
      * cbn [acquire_block]. by rewrite !bind_run, (has_next_exhausted_run t s n it).
    + cbn [acquire_block]. by rewrite !bind_run, has_next_no_source_run.
  - cbn [acquire_block]. by rewrite !bind_run, has_next_idle_run.
Qed.

(** The cases of [acquire_block] in a state with no True cached answer. *)
Lemma acquire_block_queued fuel t s b rest :
  never_truthy s →
  ready_queue (blocks_of s t) = b :: rest →
  ∃ s', acquire_block (S fuel) t s = (Ret (Some b), s') ∧ handed t b s s'.
Proof.
  intros Hnt Hq.
  destruct (acquire_block_queued_handed fuel t b rest s Hnt Hq) as [H1 H2].
  exists (acquire_block (S fuel) t s).2. split; [|done].
  by destruct (acquire_block (S fuel) t s) as [o s']; cbn [fst snd] in *; subst.
Qed.

Lemma acquire_block_idle fuel t s :
  ready_queue (blocks_of s t) = [] →
  ¬ ready_count (state_of s t) > 0 →
  acquire_block (S fuel) t s = (Ret None, touch_states t (touch_blocks t s)).
Proof. intros Hq Hrc. cbn [acquire_block]. by rewrite bind_run, has_next_idle_run. Qed.

Lemma acquire_block_exhausted fuel t s n it :
  ready_queue (blocks_of s t) = [] →
  ready_count (state_of s t) > 0 →
  root_tasks s !! t = Some (n, it) →
  source it (position it) = None →
  acquire_block (S fuel) t s =
  (Raise NotImplementedError, touch_states t (touch_blocks t s)).
Proof.
  intros Hq Hrc Hroot Hsrc. cbn [acquire_block].
  by rewrite bind_run, (has_next_exhausted_run t s n it).
Qed.

Lemma acquire_block_pulled fuel t s n it b :
  never_truthy s →
  ready_queue (blocks_of s t) = [] →
  ready_count (state_of s t) > 0 →
  root_tasks s !! t = Some (n, it) →
  source it (position it) = Some b →
  ∃ s1 s', acquire_block (S fuel) t s = (Ret (Some b), s')
           ∧ pulled t b s s1 ∧ handed t b s1 s'.
Proof.
  intros Hnt Hq Hrc Hroot Hsrc.
  pose proof (pulled_state_pulled t n it b s Hq Hrc Hroot Hsrc) as Hp.
  rewrite (acquire_block_after_has_next _ t s (pulled_state t n it b s))
    by (by apply has_next_pull_run || by apply has_next_pulled_again).
  destruct (acquire_block_queued fuel t (pulled_state t n it b s) b [])
    as (s' & Hrun & Hh).
  - apply (never_truthy_cache s); [|done]. intros t'.
    unfold cache_of. by rewrite (pl_cache _ _ _ _ Hp).
  - by rewrite (pl_blocks _ _ _ _ Hp), decide_True.
  - by exists (pulled_state t n it b s), s'.
Qed.

(** ** The steps of [has_next] and [acquire_block] *)

Lemma has_next_steps t s :
  same_view s (has_next t s).2 ∨ ∃ b, pulled t b s (has_next t s).2.
Proof.
  destruct (ready_queue (blocks_of s t)) as [|b rest] eqn:Hq.
  - destruct (decide (ready_count (state_of s t) > 0)) as [Hrc|Hrc].
    + destruct (root_tasks s !! t) as [[n it]|] eqn:Hroot.
      * destruct (source it (position it)) as [b|] eqn:Hsrc.
        -- right. exists b. rewrite (has_next_pull_run t s n it b) by done.
           by apply pulled_state_pulled.
        -- left. rewrite (has_next_exhausted_run t s n it) by done.
           apply same_view_touched.
      * left. rewrite has_next_no_source_run by done. apply same_view_touched.
    + left. rewrite has_next_idle_run by done. apply same_view_touched.
  - left. rewrite has_next_queued_run by (by rewrite Hq). apply same_view_touch_blocks.
Qed.

Lemma acquire_block_steps fuel t s :
  never_truthy s →
  same_view s (acquire_block fuel t s).2
  ∨ ∃ b s1, (same_view s s1 ∨ pulled t b s s1) ∧ handed t b s1 (acquire_block fuel t s).2.
Proof.
  intros Hnt. destruct fuel as [|fuel]; [left; apply same_view_refl|].
  destruct (ready_queue (blocks_of s t)) as [|b rest] eqn:Hq.
  - destruct (decide (ready_count (state_of s t) > 0)) as [Hrc|Hrc].
    + destruct (root_tasks s !! t) as [[n it]|] eqn:Hroot.
      * destruct (source it (position it)) as [b|] eqn:Hsrc.
        -- right.
           destruct (acquire_block_pulled fuel t s n it b) as (s1 & s' & -> & Hp & Hh);
             try done.
           exists b, s1. by split; [right|].
        -- left. rewrite (acquire_block_exhausted fuel t s n it) by done.
           apply same_view_touched.
      * left. cbn [acquire_block]. rewrite bind_run, has_next_no_source_run by done.
        apply same_view_touched.
    + left. rewrite acquire_block_idle by done. apply same_view_touched.
  - right. destruct (acquire_block_queued fuel t s b rest) as (s' & -> & Hh); try done.
    exists b, s. split; [left; apply same_view_refl|done].
Qed.

(** When [acquire_block] returns a block, the block was handed out, after
    a pull from the root source when the queue was empty. *)
Lemma acquire_block_some fuel t s b s' :
  never_truthy s →
  acquire_block (S fuel) t s = (Ret (Some b), s') →
  (∃ rest, ready_queue (blocks_of s t) = b :: rest ∧ handed t b s s')
  ∨ (ready_queue (blocks_of s t) = [] ∧ ready_count (state_of s t) > 0
     ∧ ∃ s1, pulled t b s s1 ∧ handed t b s1 s').
Proof.
  intros Hnt Hrun.
  destruct (ready_queue (blocks_of s t)) as [|b' rest] eqn:Hq.
  - right. destruct (decide (ready_count (state_of s t) > 0)) as [Hrc|Hrc].
    + destruct (root_tasks s !! t) as [[n it]|] eqn:Hroot.
      * destruct (source it (position it)) as [b'|] eqn:Hsrc.
        -- destruct (acquire_block_pulled fuel t s n it b') as (s1 & s2 & Hr & Hp & Hh);
             try done.
           rewrite Hr in Hrun. injection Hrun as -> ->. eauto.
        -- by rewrite (acquire_block_exhausted fuel t s n it) in Hrun.
      * cbn [acquire_block] in Hrun.
        by rewrite bind_run, has_next_no_source_run in Hrun.
    + by rewrite acquire_block_idle in Hrun.
  - left. destruct (acquire_block_queued fuel t s b' rest) as (s2 & Hr & Hh); try done.
    rewrite Hr in Hrun. injection Hrun as -> ->. eauto.
Qed.

Lemma released_surface b m s s' :
  Inv s → released b s s' m →
  completed_surface s' = {[KId (Block.block_id b)]} ∪ completed_surface s.
Proof.
  intros HI Hrel. destruct (rel_surface _ _ _ _ Hrel) as [Hsub Hid].
  apply set_eq. intros k. split; [apply Hsub|]. intros Hk.
  assert (∃ i, k = KId i) as [i ->]; [|by apply Hid].
  apply elem_of_union in Hk as [->%elem_of_singleton|Hk]; [by eexists|].
  destruct (inv_surface_completed _ HI k Hk) as (i & -> & _). by eexists.
Qed.

Lemma for_each_first_occurrences tasks : ∀ s,
  for_each tasks __init_task s =
  for_each (first_occurrences (dom (task_map s)) tasks) __init_task s.
Proof.
  induction tasks as [|x rest IH]; intros s; [done|].
  cbn [for_each first_occurrences].
  destruct (decide (Task.task_id x ∈ dom (task_map s))) as [Hin|Hout].
  - apply elem_of_dom in Hin as [y Hy].
    rewrite bind_run, __init_task_known_run by (by rewrite Hy). apply IH.
  - apply not_elem_of_dom in Hout. cbn [for_each].
    rewrite !bind_run, __init_task_new_run by done.
    destruct (Task.requires x); [|done].
    by rewrite IH, register_dom.
Qed.

(** * Further properties of the code *)

(** ** The constructor *)

(** X1.  [Scheduler(tasks)] returns exactly when none of the tasks it
    registers (of the tasks that share an id, the first) declares an
    upstream task through [requires()]; as soon as one does, the
    constructor raises [AttributeError], because [__init_task] calls
    [self.add], which the class does not define. *)
Theorem constructor_raises_on_requirements G tasks :
  (Forall (λ x, Task.requires x = []) (first_occurrences ∅ tasks)
   ∧ ∃ s, __init__ G tasks = Ret s)
  ∨ (Exists (λ x, Task.requires x ≠ []) (first_occurrences ∅ tasks)
     ∧ __init__ G tasks = Raise AttributeError).
Proof.
  destruct (first_occurrences_requirements ∅ tasks) as [Hall|Hex].
  - left. split; [done|]. eexists. by apply __init___run.
  - right. split; [done|]. by apply __init___raise.
Qed.

(** X2.  The scheduler the constructor returns: the graph and the root
    sources are those of the dependency graph; under each id the task map
    holds the first task given with that id; a registered task starts as
    not started, with the block count of the graph as [total_block_count],
    the count of its root source as [ready_count] (0 when it is not a root)
    and every other counter 0; an id that was not given has the default
    state; there are no per-task collections, no frontier, no cached
    pre-check and no log record. *)
Theorem constructed_scheduler G tasks s0 :
  __init__ G tasks = Ret s0 →
  dependency_graph s0 = G
  ∧ root_tasks s0 = roots G
  ∧ task_blocks s0 = ∅
  ∧ completed_surface s0 = ∅
  ∧ last_prechecked s0 = ∅
  ∧ log s0 = []
  ∧ pre_check_calls s0 = []
  ∧ (∀ t, task_map s0 !! t = first_with_id t tasks)
  ∧ (∀ t, state_of s0 t =
          if decide (t ∈ Task.task_id <$> tasks)
          then mkTaskState false (root_count (roots G) t) (num_blocks G t) 0 0 0 0
          else TaskState_new).
Proof.
  intros Hinit.
  apply __init___full in Hinit
    as (_ & Hg & Hr & Hb & Hsf & Hc & Hl & Hcl & Hm & Hs).
  repeat split; try done.
Qed.

(** X2, at an input: the chain of three tasks. *)
Lemma constructed_scheduler_witness :
  dependency_graph Chain.s0 = Chain.graph
  ∧ root_tasks Chain.s0 = roots Chain.graph
  ∧ task_blocks Chain.s0 = ∅
  ∧ completed_surface Chain.s0 = ∅
  ∧ last_prechecked Chain.s0 = ∅
  ∧ log Chain.s0 = []
  ∧ pre_check_calls Chain.s0 = []
  ∧ (∀ t, task_map Chain.s0 !! t = first_with_id t Chain.tasks)
  ∧ (∀ t, state_of Chain.s0 t =
          if decide (t ∈ Task.task_id <$> Chain.tasks)
          then mkTaskState false (root_count (roots Chain.graph) t)
                 (num_blocks Chain.graph t) 0 0 0 0
          else TaskState_new).
Proof.
  apply (constructed_scheduler Chain.graph Chain.tasks Chain.s0).
  vm_compute. reflexivity.
Defined.

(** X3.  A task whose id has already been given is ignored by the
    constructor, together with its requirements: building over [tasks] is
    building over the first task of each id. *)
Theorem constructor_ignores_repeated_ids G tasks :
  __init__ G tasks = __init__ G (first_occurrences ∅ tasks).
Proof.
  unfold __init__. rewrite !__init___body_run, !bind_run.
  rewrite (for_each_first_occurrences tasks).
  cbn [set_root_tasks blank task_map]. by rewrite dom_empty_L.
Qed.

(** ** [has_next] *)

(** X4.  What [has_next] answers.  It never fails to terminate; when it
    returns, the answer says whether the ready queue of the task is
    non-empty after the call, and the call either left every view of the
    scheduler as it was or pulled exactly one block from the root source of
    the task into its empty queue; when it raises, the exception is
    [KeyError] or [NotImplementedError] and every view is as before. *)
Theorem has_next_answer t s :
  match has_next t s with
  | (Ret r, s') =>
      r = bool_decide (ready_queue (blocks_of s' t) ≠ [])
      ∧ (same_view s s' ∨ ∃ b, r = true ∧ pulled t b s s')
  | (Raise e, s') => (e = KeyError ∨ e = NotImplementedError) ∧ same_view s s'
  | (Diverge, _) => False
  end.
Proof.
  destruct (ready_queue (blocks_of s t)) as [|b rest] eqn:Hq.
  - destruct (decide (ready_count (state_of s t) > 0)) as [Hrc|Hrc].
    + destruct (root_tasks s !! t) as [[n it]|] eqn:Hroot.
      * destruct (source it (position it)) as [b|] eqn:Hsrc.
        -- rewrite (has_next_pull_run t s n it b) by done.
           pose proof (pulled_state_pulled t n it b s Hq Hrc Hroot Hsrc) as Hp.
           split; [|by eauto].
           by rewrite (pl_blocks _ _ _ _ Hp), decide_True.
        -- rewrite (has_next_exhausted_run t s n it) by done.
           split; [by right|apply same_view_touched].
      * rewrite has_next_no_source_run by done.
        split; [by left|apply same_view_touched].
    + rewrite has_next_idle_run by done.
      split; [|left; apply same_view_touched].
      by rewrite touched_blocks_of, Hq.
  - rewrite has_next_queued_run by (by rewrite Hq).
    split; [|left; apply same_view_touch_blocks].
    by rewrite blocks_of_touch, Hq.
Qed.

(** X5.  Asking [has_next] again gives the same outcome and changes no
    view: a caller may poll it without consuming the root source. *)
Theorem has_next_again t s :
  (has_next t (has_next t s).2).1 = (has_next t s).1
  ∧ same_view (has_next t s).2 (has_next t (has_next t s).2).2.
Proof.
  destruct (ready_queue (blocks_of s t)) as [|b rest] eqn:Hq.
  - destruct (decide (ready_count (state_of s t) > 0)) as [Hrc|Hrc].
    + destruct (root_tasks s !! t) as [[n it]|] eqn:Hroot.
      * destruct (source it (position it)) as [b|] eqn:Hsrc.
        -- rewrite (has_next_pull_run t s n it b) by done. cbn [fst snd].
           rewrite has_next_pulled_again by done. split; [done|apply same_view_refl].
        -- rewrite (has_next_exhausted_run t s n it) by done. cbn [fst snd].
           rewrite (has_next_exhausted_run t _ n it)
             by (by rewrite ?touched_blocks_of, ?touched_state_of).
           split; [done|apply same_view_touched].
      * rewrite (has_next_no_source_run t s) by done. cbn [fst snd].
        rewrite has_next_no_source_run
          by (by rewrite ?touched_blocks_of, ?touched_state_of).
        split; [done|apply same_view_touched].
    + rewrite (has_next_idle_run t s) by done. cbn [fst snd].
      rewrite has_next_idle_run by (by rewrite ?touched_blocks_of, ?touched_state_of).
      split; [done|apply same_view_touched].
  - rewrite (has_next_queued_run t s) by (by rewrite Hq). cbn [fst snd].
    rewrite has_next_queued_run by (by rewrite blocks_of_touch, Hq).
    split; [done|apply same_view_touch_blocks].
Qed.

(** X6.  [has_next] followed by [acquire_block] is [acquire_block]: after
    [has_next] has answered True, [acquire_block] returns what it would have
    returned without the question, and leaves the same scheduler. *)
Theorem has_next_then_acquire_block fuel t s s1 :
  has_next t s = (Ret true, s1) →
  acquire_block (S fuel) t s1 = acquire_block (S fuel) t s.
Proof.
  intros H1. symmetry. apply acquire_block_after_has_next; [done|].
  by eapply has_next_true_again.
Qed.

(** X6, at an input: the first block of the chain. *)
Lemma has_next_then_acquire_block_witness :
  acquire_block 1 "A" (has_next "A" Chain.s0).2 = acquire_block 1 "A" Chain.s0.
Proof.
  apply (has_next_then_acquire_block 0 "A" Chain.s0).
  vm_compute. reflexivity.
Defined.

(** ** [acquire_block] in the driving loop *)

(** X7.  What [acquire_block] does in a reachable state.  It never calls
    itself (one unit of fuel is as good as any), never raises [IndexError]
    or [KeyError], and its outcome is decided by the ready queue of the
    task, the [ready_count] the constructor gave it and the root source:
    the head of a non-empty queue is returned; with an empty queue, None is
    returned when the seeded [ready_count] is not positive, the next block
    of the root source when there is one, and [NotImplementedError] is
    raised when the source is exhausted.  Without a block, every view is as
    before. *)
Theorem acquire_block_outcome G tasks s fuel t :
  reachable G tasks s →
  acquire_block (S fuel) t s = acquire_block 1 t s
  ∧ match acquire_block (S fuel) t s with
    | (Ret None, s') =>
        ready_queue (blocks_of s t) = [] ∧ seeded G tasks t ≤ 0 ∧ same_view s s'
    | (Ret (Some b), s') =>
        head (ready_queue (blocks_of s t)) = Some b
        ∨ (ready_queue (blocks_of s t) = [] ∧ seeded G tasks t > 0
           ∧ ∃ n it, root_tasks s !! t = Some (n, it)
                     ∧ source it (position it) = Some b)
    | (Raise e, s') =>
        e = NotImplementedError
        ∧ ready_queue (blocks_of s t) = [] ∧ seeded G tasks t > 0
        ∧ (∃ n it, root_tasks s !! t = Some (n, it) ∧ source it (position it) = None)
        ∧ same_view s s'
    | (Diverge, _) => False
    end.
Proof.
  intros Hreach. pose proof (reachable_never_truthy _ _ _ Hreach) as Hnt.
  split; [by apply acquire_block_fuel|].
  destruct (reachable_unchanged _ _ _ Hreach) as [_ Hrc].
  destruct (Hrc t) as (Hseed & _). rewrite <- Hseed.
  destruct (ready_queue (blocks_of s t)) as [|b rest] eqn:Hq.
  - destruct (decide (ready_count (state_of s t) > 0)) as [Hpos|Hpos].
    + destruct (reachable_root G tasks s t Hreach) as (n & it & Hroot); [lia|].
      destruct (source it (position it)) as [b|] eqn:Hsrc.
      * destruct (acquire_block_pulled fuel t s n it b) as (s1 & s' & -> & _);
          try done.
        right. repeat split; try done. by exists n, it.
      * rewrite (acquire_block_exhausted fuel t s n it) by done.
        repeat split; try done; [by exists n, it|apply same_view_touched..].
    + rewrite acquire_block_idle by done.
      repeat split; try lia; apply same_view_touched.
  - destruct (acquire_block_queued fuel t s b rest) as (s' & -> & _); try done.
    by left.
Qed.

(** X7, at an input: the first call on the root task of the chain. *)
Lemma acquire_block_outcome_witness :
  acquire_block 3 "A" Chain.s0 = acquire_block 1 "A" Chain.s0
  ∧ match acquire_block 3 "A" Chain.s0 with
    | (Ret None, s') =>
        ready_queue (blocks_of Chain.s0 "A") = []
        ∧ seeded Chain.graph Chain.tasks "A" ≤ 0 ∧ same_view Chain.s0 s'
    | (Ret (Some b), s') =>
        head (ready_queue (blocks_of Chain.s0 "A")) = Some b
        ∨ (ready_queue (blocks_of Chain.s0 "A") = []
           ∧ seeded Chain.graph Chain.tasks "A" > 0
           ∧ ∃ n it, root_tasks Chain.s0 !! "A" = Some (n, it)
                     ∧ source it (position it) = Some b)
    | (Raise e, s') =>
        e = NotImplementedError
        ∧ ready_queue (blocks_of Chain.s0 "A") = []
        ∧ seeded Chain.graph Chain.tasks "A" > 0
        ∧ (∃ n it, root_tasks Chain.s0 !! "A" = Some (n, it)
                   ∧ source it (position it) = None)
        ∧ same_view Chain.s0 s'
    | (Diverge, _) => False
    end.
Proof.
  apply (acquire_block_outcome Chain.graph Chain.tasks Chain.s0 2 "A").
  exact chain_reachable_s0.
Defined.

(** X8.  What a returned block leaves behind, in a reachable state: the
    id of the block is in the processing set of the task, the task is
    started, its [processing_count] is one more than before and its ready
    queue is the old one without its head; the completed and failed
    bookkeeping of the task, and everything of every other task, are as
    before. *)
Theorem acquired_block_is_processing G tasks s fuel t b s' :
  reachable G tasks s →
  acquire_block (S fuel) t s = (Ret (Some b), s') →
  blocks_of s' t =
    set_processing_blocks ({[Block.block_id b]} ∪ processing_blocks (blocks_of s t))
      (set_ready_queue (tail (ready_queue (blocks_of s t))) (blocks_of s t))
  ∧ state_of s' t =
      set_processing_count (processing_count (state_of s t) + 1)
        (set_started true (state_of s t))
  ∧ ∀ t', t' ≠ t → blocks_of s' t' = blocks_of s t' ∧ state_of s' t' = state_of s t'.
Proof.
  intros Hreach Hrun. pose proof (reachable_never_truthy _ _ _ Hreach) as Hnt.
  destruct (acquire_block_some fuel t s b s' Hnt Hrun)
    as [(rest & Hq & Hh)|(Hq & _ & s1 & Hp & Hh)].
  - destruct (hd_blocks _ _ _ _ Hh) as (rest' & Hq' & Hb).
    rewrite Hq in Hq'. injection Hq' as <-.
    repeat split.
    + by rewrite Hb, decide_True, Hq.
    + by rewrite (hd_states _ _ _ _ Hh), decide_True.
    + by rewrite Hb, decide_False.
    + by rewrite (hd_states _ _ _ _ Hh), decide_False.
  - destruct (hd_blocks _ _ _ _ Hh) as (rest' & Hq' & Hb).
    rewrite (pl_blocks _ _ _ _ Hp), decide_True in Hq' by done.
    injection Hq' as <-.
    repeat split.
    + rewrite Hb, decide_True, (pl_blocks _ _ _ _ Hp), decide_True, Hq by done.
      by destruct (blocks_of s t).
    + by rewrite (hd_states _ _ _ _ Hh), decide_True, (pl_states _ _ _ _ Hp).
    + by rewrite Hb, decide_False, (pl_blocks _ _ _ _ Hp), decide_False.
    + by rewrite (hd_states _ _ _ _ Hh), decide_False, (pl_states _ _ _ _ Hp).
Qed.

(** X8, at an input: the second block of the chain's root task. *)
Lemma acquired_block_is_processing_witness :
  blocks_of Chain.s3 "A" =
    set_processing_blocks
      ({[Block.block_id Chain.a1]} ∪ processing_blocks (blocks_of Chain.s2 "A"))
      (set_ready_queue (tail (ready_queue (blocks_of Chain.s2 "A")))
         (blocks_of Chain.s2 "A"))
  ∧ state_of Chain.s3 "A" =
      set_processing_count (processing_count (state_of Chain.s2 "A") + 1)
        (set_started true (state_of Chain.s2 "A"))
  ∧ ∀ t', t' ≠ "A" →
          blocks_of Chain.s3 t' = blocks_of Chain.s2 t'
          ∧ state_of Chain.s3 t' = state_of Chain.s2 t'.
Proof.
  apply (acquired_block_is_processing Chain.graph Chain.tasks Chain.s2 0 "A" Chain.a1).
  - exact chain_reachable_s2.
  - vm_compute. reflexivity.
Defined.

(** ** What holds in every reachable state *)

(** X9.  The pre-check of a task is never called.  In every reachable state
    the record of pre-check calls is empty, every log record is the error
    record of an [AttributeError] raised by [precheck] (so the debug record
    of a skipped block is never written), and no cached pre-check answer is
    True: the branch of [acquire_block] that skips a block is never
    taken. *)
Theorem pre_check_is_never_called G tasks s :
  reachable G tasks s →
  pre_check_calls s = []
  ∧ Forall is_attribute_error (log s)
  ∧ ∀ t, (cache_of s t).2 = None ∨ (cache_of s t).2 = Some false.
Proof.
  intros Hreach. pose proof (reachable_never_truthy _ _ _ Hreach) as Hnt.
  destruct (reachable_from_init _ _ _ Hreach) as (s0 & Hinit & Heff).
  apply __init___full in Hinit as (_ & _ & _ & _ & _ & _ & Hl & Hcl & _).
  pose proof (effect_progress _ _ Heff) as Hp.
  repeat split.
  - by rewrite (pg_calls _ _ Hp).
  - destruct (pg_log _ _ Hp) as (l & -> & Hfl). by rewrite Hl.
  - intros t. specialize (Hnt t).
    destruct (cache_of s t).2 as [[]|]; [done|by right|by left].
Qed.

(** X9, at an input: the chain after two blocks of A, whose pre-check
    would report every block as done. *)
Lemma pre_check_is_never_called_witness :
  pre_check_calls Chain.s4 = []
  ∧ Forall is_attribute_error (log Chain.s4)
  ∧ ∀ t, (cache_of Chain.s4 t).2 = None ∨ (cache_of Chain.s4 t).2 = Some false.
Proof.
  apply (pre_check_is_never_called Chain.graph Chain.tasks Chain.s4).
  exact chain_reachable_s4.
Defined.

(** X10.  The counters never lag behind the sets they count: in every
    reachable state, for every task, [processing_count], [completed_count]
    and [failed_count] are at least the sizes of the processing, completed
    and failed sets, so none of them is ever negative. *)
Theorem counters_bound_the_sets G tasks s t :
  reachable G tasks s →
  0 ≤ Z.of_nat (size (processing_blocks (blocks_of s t))) ≤ processing_count (state_of s t)
  ∧ 0 ≤ Z.of_nat (size (completed_blocks (blocks_of s t))) ≤ completed_count (state_of s t)
  ∧ 0 ≤ Z.of_nat (size (failed_blocks (blocks_of s t))) ≤ failed_count (state_of s t).
Proof.
  intros Hreach. destruct (st_counted _ (reachable_steady _ _ _ Hreach)) as [Hp Hc Hf].
  specialize (Hp t). specialize (Hc t). specialize (Hf t). lia.
Qed.

(** X10, at an input: task A of the chain with one block completed and
    one being processed. *)
Lemma counters_bound_the_sets_witness :
  0 ≤ Z.of_nat (size (processing_blocks (blocks_of Chain.s3 "A")))
    ≤ processing_count (state_of Chain.s3 "A")
  ∧ 0 ≤ Z.of_nat (size (completed_blocks (blocks_of Chain.s3 "A")))
      ≤ completed_count (state_of Chain.s3 "A")
  ∧ 0 ≤ Z.of_nat (size (failed_blocks (blocks_of Chain.s3 "A")))
      ≤ failed_count (state_of Chain.s3 "A").
Proof.
  apply (counters_bound_the_sets Chain.graph Chain.tasks Chain.s3 "A").
  exact chain_reachable_s3.
Defined.

(** X11.  A task that is not started has had no block handed out: in every
    reachable state, [started] being False, the processing, completed and
    failed sets of the task are empty and the three counters are 0. *)
Theorem not_started_is_untouched G tasks s t :
  reachable G tasks s →
  started (state_of s t) = false →
  processing_count (state_of s t) = 0
  ∧ completed_count (state_of s t) = 0
  ∧ failed_count (state_of s t) = 0
  ∧ processing_blocks (blocks_of s t) = ∅
  ∧ completed_blocks (blocks_of s t) = ∅
  ∧ failed_blocks (blocks_of s t) = ∅.
Proof.
  intros Hreach Hst.
  by destruct (st_untouched _ (reachable_steady _ _ _ Hreach) t Hst).
Qed.

(** X11, at an input: task B of the chain, whose block is queued but has
    not been acquired. *)
Lemma not_started_is_untouched_witness :
  processing_count (state_of Chain.s4 "B") = 0
  ∧ completed_count (state_of Chain.s4 "B") = 0
  ∧ failed_count (state_of Chain.s4 "B") = 0
  ∧ processing_blocks (blocks_of Chain.s4 "B") = ∅
  ∧ completed_blocks (blocks_of Chain.s4 "B") = ∅
  ∧ failed_blocks (blocks_of Chain.s4 "B") = ∅.
Proof.
  apply (not_started_is_untouched Chain.graph Chain.tasks Chain.s4 "B").
  - exact chain_reachable_s4.
  - vm_compute. reflexivity.
Defined.

(** X12.  The frontier changes only by gaining the id of a released block.
    From a reachable state, a call leaves [completed_surface] as it is,
    unless it is [release_block] of a block in state SUCCESS that is being
    processed, which adds exactly the id of that block: the removal in
    [update_complete_surface] never removes anything. *)
Theorem frontier_only_gains_released_ids G tasks s c :
  reachable G tasks s →
  completed_surface (after c s) = completed_surface s
  ∨ ∃ fuel b,
      c = CallReleaseBlock fuel b
      ∧ Block.status b = SUCCESS
      ∧ Block.block_id b ∈ processing_blocks (blocks_of s (Block.task_id b))
      ∧ completed_surface (after c s) = {[KId (Block.block_id b)]} ∪ completed_surface s.
Proof.
  intros Hreach. pose proof (reachable_steady _ _ _ Hreach) as [Hnt _ _ HI].
  destruct c as [t|fuel t|fuel b]; cbn [after].
  - left. destruct (has_next_steps t s) as [Hv|(b & Hp)].
    + apply Hv.
    + apply Hp.
  - left. destruct (acquire_block_steps fuel t s Hnt) as [Hv|(b & s1 & Hs1 & Hh)].
    + apply Hv.
    + rewrite (hd_surface _ _ _ _ Hh). destruct Hs1 as [Hv|Hp]; [apply Hv|apply Hp].
  - destruct (decide (Block.block_id b ∈ processing_blocks (blocks_of s (Block.task_id b))))
      as [Hin|Hout]; destruct (Block.status b) eqn:Hst.
    all: try (left; by rewrite release_block_other_run by (by rewrite Hst)).
    all: try (left; by rewrite release_block_missing_run by (rewrite ?Hst; auto)).
    + right. exists fuel, b.
      destruct (release_block_success_run fuel b s Hst Hin) as (m & s' & -> & Hrel).
      repeat split; try done. by eapply released_surface.
    + left. by rewrite release_block_failed_run.
Qed.

(** X12, at an input: the release of the first block of the chain. *)
Lemma frontier_only_gains_released_ids_witness :
  completed_surface
    (after (CallReleaseBlock 1 (Block.with_status SUCCESS Chain.a0)) Chain.s1)
  = completed_surface Chain.s1
  ∨ ∃ fuel b,
      CallReleaseBlock 1 (Block.with_status SUCCESS Chain.a0) = CallReleaseBlock fuel b
      ∧ Block.status b = SUCCESS
      ∧ Block.block_id b ∈ processing_blocks (blocks_of Chain.s1 (Block.task_id b))
      ∧ completed_surface
          (after (CallReleaseBlock 1 (Block.with_status SUCCESS Chain.a0)) Chain.s1)
        = {[KId (Block.block_id b)]} ∪ completed_surface Chain.s1.
Proof.
  apply (frontier_only_gains_released_ids Chain.graph Chain.tasks Chain.s1).
  exact chain_reachable_s1.
Defined.

(** X13.  Completion and failure are permanent.  Along any sequence of
    calls from a reachable state, the frontier, the completed set and the
    failed set of every task only grow, [completed_count] and
    [failed_count] never decrease, and a started task stays started. *)
Theorem completion_is_permanent G tasks s calls :
  reachable G tasks s →
  completed_surface s ⊆ completed_surface (run_calls calls s)
  ∧ ∀ t,
      completed_blocks (blocks_of s t) ⊆ completed_blocks (blocks_of (run_calls calls s) t)
      ∧ failed_blocks (blocks_of s t) ⊆ failed_blocks (blocks_of (run_calls calls s) t)
      ∧ completed_count (state_of s t) ≤ completed_count (state_of (run_calls calls s) t)
      ∧ failed_count (state_of s t) ≤ failed_count (state_of (run_calls calls s) t)
      ∧ (started (state_of s t) = true →
         started (state_of (run_calls calls s) t) = true).
Proof.
  intros Hreach. pose proof (run_calls_effect G tasks calls s Hreach) as Heff.
  split.
  - apply effect_surface; [done|]. by eapply reachable_steady.
  - intros t. destruct (effect_progress _ _ Heff). repeat split; auto.
Qed.

(** X13, at an input: from the chain after its first release, through the
    acquisition and the release of the second block. *)
Lemma completion_is_permanent_witness :
  completed_surface Chain.s2
    ⊆ completed_surface
        (run_calls [CallAcquireBlock 1 "A";
                    CallReleaseBlock 1 (Block.with_status SUCCESS Chain.a1)] Chain.s2)
  ∧ ∀ t,
      completed_blocks (blocks_of Chain.s2 t)
        ⊆ completed_blocks
            (blocks_of
               (run_calls [CallAcquireBlock 1 "A";
                           CallReleaseBlock 1 (Block.with_status SUCCESS Chain.a1)]
                  Chain.s2) t)
      ∧ failed_blocks (blocks_of Chain.s2 t)
          ⊆ failed_blocks
              (blocks_of
                 (run_calls [CallAcquireBlock 1 "A";
                             CallReleaseBlock 1 (Block.with_status SUCCESS Chain.a1)]
                    Chain.s2) t)
      ∧ completed_count (state_of Chain.s2 t)
          ≤ completed_count
              (state_of
                 (run_calls [CallAcquireBlock 1 "A";
                             CallReleaseBlock 1 (Block.with_status SUCCESS Chain.a1)]
                    Chain.s2) t)
      ∧ failed_count (state_of Chain.s2 t)
          ≤ failed_count
              (state_of
                 (run_calls [CallAcquireBlock 1 "A";
                             CallReleaseBlock 1 (Block.with_status SUCCESS Chain.a1)]
                    Chain.s2) t)
      ∧ (started (state_of Chain.s2 t) = true →
         started
           (state_of
              (run_calls [CallAcquireBlock 1 "A";
                          CallReleaseBlock 1 (Block.with_status SUCCESS Chain.a1)]
                 Chain.s2) t) = true).
Proof.
  apply (completion_is_permanent Chain.graph Chain.tasks Chain.s2).
  exact chain_reachable_s2.
Defined.

(** X14.  What the driving loop never writes: in every reachable state the
    graph is the one the scheduler was built with, the task map holds under
    each id the first task given with it, and the [total_block_count] of a
    task is the block count of the graph when the task was given, 0
    otherwise. *)
Theorem registration_is_fixed G tasks s :
  reachable G tasks s →
  dependency_graph s = G
  ∧ (∀ t, task_map s !! t = first_with_id t tasks)
  ∧ (∀ t, total_block_count (state_of s t) =
          if decide (t ∈ Task.task_id <$> tasks) then num_blocks G t else 0).
Proof.
  intros Hreach.
  destruct (reachable_from_init _ _ _ Hreach) as (s0 & Hinit & Heff).
  apply __init___full in Hinit as (_ & Hg & _ & _ & _ & _ & _ & _ & Hm & Hs).
  destruct (effect_progress _ _ Heff) as [Hg' Hm' Ht' _ _ _ _ _ _ _ _].
  repeat split.
  - by rewrite Hg'.
  - intros t. by rewrite Hm'.
  - intros t. rewrite Ht', Hs. unfold seeded_state. by destruct (decide _).
Qed.

(** X14, at an input: the chain after four calls. *)
Lemma registration_is_fixed_witness :
  dependency_graph Chain.s4 = Chain.graph
  ∧ (∀ t, task_map Chain.s4 !! t = first_with_id t Chain.tasks)
  ∧ (∀ t, total_block_count (state_of Chain.s4 t) =
          if decide (t ∈ Task.task_id <$> Chain.tasks)
          then num_blocks Chain.graph t else 0).
Proof.
  apply (registration_is_fixed Chain.graph Chain.tasks Chain.s4).
  exact chain_reachable_s4.
Defined.

(** X15.  The root sources only advance.  In every reachable state the
    root descriptors are those of the graph, each with its declared count
    and its source, read from a position that is at least the initial one;
    no descriptor is added or dropped, and [has_next] never raises
    [KeyError]. *)
Theorem root_sources_only_advance G tasks s t :
  reachable G tasks s →
  match roots G !! t with
  | Some (n, it) =>
      ∃ p, root_tasks s !! t = Some (n, mkIter (source it) p) ∧ (position it ≤ p)%nat
  | None => root_tasks s !! t = None
  end
  ∧ (has_next t s).1 ≠ Raise KeyError.
Proof.
  intros Hreach. split; [by eapply reachable_sources|].
  destruct (reachable_unchanged _ _ _ Hreach) as [_ Hrc].
  destruct (Hrc t) as (Hseed & _).
  destruct (ready_queue (blocks_of s t)) as [|b rest] eqn:Hq.
  - destruct (decide (ready_count (state_of s t) > 0)) as [Hpos|Hpos].
    + destruct (reachable_root G tasks s t Hreach) as (n & it & Hroot); [lia|].
      destruct (source it (position it)) as [b|] eqn:Hsrc.
      * by rewrite (has_next_pull_run t s n it b).
      * by rewrite (has_next_exhausted_run t s n it).
    + by rewrite has_next_idle_run.
  - by rewrite has_next_queued_run by (by rewrite Hq).
Qed.

(** X15, at an input: the root task of the chain after both its blocks
    have been pulled. *)
Lemma root_sources_only_advance_witness :
  match roots Chain.graph !! "A" with
  | Some (n, it) =>
      ∃ p, root_tasks Chain.s4 !! "A" = Some (n, mkIter (source it) p)
           ∧ (position it ≤ p)%nat
  | None => root_tasks Chain.s4 !! "A" = None
  end
  ∧ (has_next "A" Chain.s4).1 ≠ Raise KeyError.
Proof.
  apply (root_sources_only_advance Chain.graph Chain.tasks Chain.s4 "A").
  exact chain_reachable_s4.
Defined.

(** ** [release_block] *)

(** X16.  The outcomes of [release_block], in any state.  The fuel of the
    failure cascade plays no part.  A block in state SUCCESS or FAILED whose
    id is not in the processing set of its task raises [KeyError]; a block
    in state SUCCESS that is being processed returns a mapping; a block in
    state FAILED that is being processed raises [AttributeError]; a block in
    any other state returns None and the scheduler is left exactly as it
    was, whether or not the block is being processed. *)
Theorem release_block_outcome fuel b s :
  release_block fuel b s = release_block 0 b s
  ∧ match Block.status b with
    | SUCCESS =>
        if decide (Block.block_id b ∈ processing_blocks (blocks_of s (Block.task_id b)))
        then ∃ m s', release_block fuel b s = (Ret (Some m), s') ∧ released b s s' m
        else (release_block fuel b s).1 = Raise KeyError
             ∧ same_view s (release_block fuel b s).2
    | FAILED =>
        if decide (Block.block_id b ∈ processing_blocks (blocks_of s (Block.task_id b)))
        then (release_block fuel b s).1 = Raise AttributeError
             ∧ same_view (failed_state b s) (release_block fuel b s).2
        else (release_block fuel b s).1 = Raise KeyError
             ∧ same_view s (release_block fuel b s).2
    | PENDING | PROCESSING => release_block fuel b s = (Ret None, s)
    end.
Proof.
  split.
  - destruct (decide (Block.block_id b ∈ processing_blocks (blocks_of s (Block.task_id b))))
      as [Hin|Hout]; destruct (Block.status b) eqn:Hst.
    all: try (by rewrite !release_block_other_run by (by rewrite Hst)).
    all: try (by rewrite !release_block_missing_run by (rewrite ?Hst; auto)).
    + unfold release_block. rewrite !decide_True by done. done.
    + by rewrite !release_block_failed_run.
  - destruct (Block.status b) eqn:Hst.
    + by rewrite release_block_other_run by (by rewrite Hst).
    + by rewrite release_block_other_run by (by rewrite Hst).
    + destruct (decide _) as [Hin|Hout].
      * by apply release_block_success_run.
      * rewrite release_block_missing_run by auto.
        split; [done|apply same_view_touch_blocks].
    + destruct (decide _) as [Hin|Hout].
      * rewrite release_block_failed_run by done.
        split; [done|apply same_view_touch_blocks].
      * rewrite release_block_missing_run by auto.
        split; [done|apply same_view_touch_blocks].
Qed.

(** X17.  A block cannot be released twice.  After [release_block] has been
    called on a block in state SUCCESS or FAILED, whatever the outcome, a
    further [release_block] of a block with the same task and id, in state
    SUCCESS or FAILED, raises [KeyError] and changes no view. *)
Theorem second_release_raises fuel fuel' b b' s :
  Block.status b = SUCCESS ∨ Block.status b = FAILED →
  Block.status b' = SUCCESS ∨ Block.status b' = FAILED →
  Block.task_id b' = Block.task_id b →
  Block.block_id b' = Block.block_id b →
  (release_block fuel' b' (release_block fuel b s).2).1 = Raise KeyError
  ∧ same_view (release_block fuel b s).2
      (release_block fuel' b' (release_block fuel b s).2).2.
Proof.
  intros Hst Hst' Ht Hi.
  assert (Block.block_id b ∉
          processing_blocks (blocks_of (release_block fuel b s).2 (Block.task_id b)))
    as Hgone.
  { destruct (decide (Block.block_id b
                        ∈ processing_blocks (blocks_of s (Block.task_id b))))
      as [Hin|Hout].
    - destruct Hst as [Hst|Hst].
      + destruct (release_block_success_run fuel b s Hst Hin) as (m & s' & -> & Hrel).
        cbn [snd]. rewrite (rel_processing _ _ _ _ Hrel), decide_True by done.
        set_solver.
      + rewrite release_block_failed_run by done. cbn [snd].
        rewrite blocks_of_touch, failed_state_blocks, decide_True by done. tfields.
        set_solver.
    - rewrite release_block_missing_run by done. cbn [snd].
      by rewrite blocks_of_touch. }
  rewrite release_block_missing_run by (by rewrite ?Ht, ?Hi).
  split; [done|apply same_view_touch_blocks].
Qed.

(** X17, at an input: the first block of the chain, released twice. *)
Lemma second_release_raises_witness :
  (release_block 1 (Block.with_status SUCCESS Chain.a0)
     (release_block 1 (Block.with_status SUCCESS Chain.a0) Chain.s1).2).1
  = Raise KeyError
  ∧ same_view (release_block 1 (Block.with_status SUCCESS Chain.a0) Chain.s1).2
      (release_block 1 (Block.with_status SUCCESS Chain.a0)
         (release_block 1 (Block.with_status SUCCESS Chain.a0) Chain.s1).2).2.
Proof.
  apply (second_release_raises 1 1 (Block.with_status SUCCESS Chain.a0)
           (Block.with_status SUCCESS Chain.a0) Chain.s1).
  - left. reflexivity.
  - left. reflexivity.
  - reflexivity.
  - reflexivity.
Defined.

(** X18.  Acquire, then release.  In a reachable state, a block returned by
    [acquire_block] for its own task can be released as SUCCESS: the call
    returns a mapping, the [processing_count] of the task is back to what it
    was before the block was acquired, its [completed_count] is one more,
    and the id of the block is in the completed set of the task and in the
    frontier, and no longer in the processing set. *)
Theorem acquire_then_release G tasks s fuel fuel' t b s1 :
  reachable G tasks s →
  acquire_block (S fuel) t s = (Ret (Some b), s1) →
  Block.task_id b = t →
  ∃ m s2,
    release_block fuel' (Block.with_status SUCCESS b) s1 = (Ret (Some m), s2)
    ∧ processing_count (state_of s2 t) = processing_count (state_of s t)
    ∧ completed_count (state_of s2 t) = completed_count (state_of s t) + 1
    ∧ Block.block_id b ∈ completed_blocks (blocks_of s2 t)
    ∧ (Block.block_id b ∉ processing_blocks (blocks_of s2 t))
    ∧ KId (Block.block_id b) ∈ completed_surface s2.
Proof.
  intros Hreach Hrun Ht. pose proof (reachable_never_truthy _ _ _ Hreach) as Hnt.
  assert (state_of s1 t =
          set_processing_count (processing_count (state_of s t) + 1)
            (set_started true (state_of s t))
          ∧ Block.block_id b ∈ processing_blocks (blocks_of s1 t)) as [Hs1 Hin].
  { destruct (acquire_block_some fuel t s b s1 Hnt Hrun)
      as [(rest & Hq & Hh)|(Hq & _ & s' & Hp & Hh)];
      destruct (hd_blocks _ _ _ _ Hh) as (rest' & _ & Hb).
    - rewrite (hd_states _ _ _ _ Hh), Hb, !decide_True by done. tfields.
      split; [done|set_solver].
    - rewrite (hd_states _ _ _ _ Hh), Hb, !decide_True, (pl_states _ _ _ _ Hp) by done.
      tfields. split; [done|set_solver]. }
  set (b' := Block.with_status SUCCESS b).
  assert (Block.task_id b' = t) as Ht' by done.
  assert (Block.block_id b' = Block.block_id b) as Hi' by done.
  destruct (release_block_success_run fuel' b' s1) as (m & s2 & Hrel & Hr);
    [done|by rewrite Ht', Hi'|].
  exists m, s2. split; [done|].
  rewrite (rel_states _ _ _ _ Hr), (rel_completed _ _ _ _ Hr),
    (rel_processing _ _ _ _ Hr), !decide_True, Hs1, Hi' by done.
  tfields. repeat split; [lia|set_solver|set_solver|].
  destruct (rel_surface _ _ _ _ Hr) as [_ Hid]. apply Hid. set_solver.
Qed.

(** X18, at an input: the single block of the leaf. *)
Lemma acquire_then_release_witness :
  ∃ m s2,
    release_block 1 (Block.with_status SUCCESS Leaf.l0) Leaf.s1 = (Ret (Some m), s2)
    ∧ processing_count (state_of s2 "L") = processing_count (state_of Leaf.s0 "L")
    ∧ completed_count (state_of s2 "L") = completed_count (state_of Leaf.s0 "L") + 1
    ∧ Block.block_id Leaf.l0 ∈ completed_blocks (blocks_of s2 "L")
    ∧ (Block.block_id Leaf.l0 ∉ processing_blocks (blocks_of s2 "L"))
    ∧ KId (Block.block_id Leaf.l0) ∈ completed_surface s2.
Proof.
  apply (acquire_then_release Leaf.graph Leaf.tasks Leaf.s0 0 1 "L" Leaf.l0 Leaf.s1).
  - apply reach_init, leaf_init_s0.
  - vm_compute. reflexivity.
  - reflexivity.
Defined.

(** ** [TaskState.__str__] *)

(** X19.  The printed form of a [TaskState] shows [started] and
    [ready_count] and nothing else: two states print alike exactly when
    they agree on these two attributes, whatever their other counters; and
    [repr] is [str]. *)
Theorem TaskState_str_shows_started_and_ready_count ts ts' :
  (TaskState_str ts = TaskState_str ts'
   ↔ started ts = started ts' ∧ ready_count ts = ready_count ts')
  ∧ TaskState_repr ts = TaskState_str ts.
Proof.
  split; [|done]. unfold TaskState_str. split.
  - destruct (started ts), (started ts'); cbn [str_bool]; intros H;
      try discriminate H; injection H as H;
      (split; [done|]); by apply (inj pretty).
  - by intros [-> ->].
Qed.

(** Two printed forms. *)
Lemma TaskState_str_example :
  TaskState_str (mkTaskState true 2 5 1 0 0 1) = "True, 2"
  ∧ TaskState_str (mkTaskState false (-3) 0 0 0 0 0) = "False, -3".
Proof. split; vm_compute; reflexivity. Qed.

(** ** The ready queues *)

Lemma upstream_completed_mono G s s' d :
  (∀ t, completed_blocks (blocks_of s t) ⊆ completed_blocks (blocks_of s' t)) →
  upstream_completed G s d → upstream_completed G s' d.
Proof.
  intros Hsub Hup. eapply Forall_impl; [exact Hup|]. intros up. cbv beta.
  rewrite !is_completed_blocks_of. intros (t & Ht). exists t. by apply Hsub.
Qed.

Lemma queues_safe_step G s s' :
  (∀ t, completed_blocks (blocks_of s t) ⊆ completed_blocks (blocks_of s' t)) →
  (∀ t d, d ∈ ready_queue (blocks_of s' t) →
          d ∈ ready_queue (blocks_of s t)
          ∨ from_root_source G t d
          ∨ (Block.task_id d = t ∧ upstream_completed G s' d)) →
  queues_safe G s → queues_safe G s'.
Proof.
  intros Hsub Hq Hs t d Hd. destruct (Hq t d Hd) as [Hold|Hnew]; [|done].
  destruct (Hs t d Hold) as [|[? Hup]]; [by left|right].
  split; [done|]. by eapply upstream_completed_mono.
Qed.

Lemma same_view_queues_safe G s s' : same_view s s' → queues_safe G s → queues_safe G s'.
Proof.
  intros Hv. apply queues_safe_step.
  - intros t. by rewrite (sv_blocks _ _ Hv).
  - intros t d. rewrite (sv_blocks _ _ Hv). by left.
Qed.

Lemma pulled_queues_safe G tasks t b s s' :
  reachable G tasks s → pulled t b s s' → queues_safe G s → queues_safe G s'.
Proof.
  intros Hreach Hp. apply queues_safe_step.
  - intros t'. rewrite (pl_blocks _ _ _ _ Hp). by destruct (decide (t = t')) as [<-|].
  - intros t' d. rewrite (pl_blocks _ _ _ _ Hp).
    destruct (decide (t = t')) as [<-|]; [|by left].
    tfields. intros ->%list_elem_of_singleton. right. left.
    destruct (pl_roots _ _ _ _ Hp) as (n & it & Hroot & Hsrc & _).
    pose proof (reachable_sources G tasks s t Hreach) as Hs.
    destruct (roots G !! t) as [[n0 it0]|] eqn:HG; [|by rewrite Hs in Hroot].
    destruct Hs as (p & Hs & _). rewrite Hs in Hroot. injection Hroot as <- <-.
    by exists n0, it0, p.
Qed.

Lemma handed_queues_safe G t b s s' : handed t b s s' → queues_safe G s → queues_safe G s'.
Proof.
  intros Hh. destruct (hd_blocks _ _ _ _ Hh) as (rest & Hq & Hb).
  apply queues_safe_step.
  - intros t'. rewrite Hb. by destruct (decide (t = t')) as [<-|].
  - intros t' d. rewrite Hb. destruct (decide (t = t')) as [<-|]; [|by left].
    tfields. rewrite Hq. intros Hd. left. by apply list_elem_of_further.
Qed.

Lemma released_queues_safe G b m s s' :
  dependency_graph s = G → Inv s →
  released b s s' m → queues_safe G s → queues_safe G s'.
Proof.
  intros HG HI Hrel. apply queues_safe_step.
  - intros t. rewrite (rel_completed _ _ _ _ Hrel). destruct (decide _); set_solver.
  - intros t d. rewrite (rel_queue _ _ _ _ Hrel).
    intros [Hd|Hd]%elem_of_app; [by left|]. right. right.
    apply list_elem_of_filter in Hd as [[Ht Hr] _]. split; [done|].
    apply is_ready_upstream_completed; [|by rewrite (rel_graph _ _ _ _ Hrel)|done].
    by eapply released_Inv.
Qed.

Lemma failed_state_queues_safe G b s : queues_safe G s → queues_safe G (failed_state b s).
Proof.
  apply queues_safe_step.
  - intros t. rewrite failed_state_blocks. by destruct (decide _) as [<-|].
  - intros t d. rewrite failed_state_blocks. left. by destruct (decide _) as [<-|].
Qed.

Lemma reachable_queues_safe G tasks s : reachable G tasks s → queues_safe G s.
Proof.
  induction 1 as [s Hinit|c s Hreach IH].
  - apply __init___full in Hinit as (_ & _ & _ & Hb & _).
    intros t d. unfold blocks_of. rewrite Hb, lookup_empty. cbn. set_solver.
  - pose proof (reachable_steady _ _ _ Hreach) as [Hnt _ _ HI].
    destruct (reachable_unchanged _ _ _ Hreach) as [HG _].
    destruct c as [t|fuel t|fuel b]; cbn [after].
    + destruct (has_next_steps t s) as [Hv|(b & Hp)].
      * by eapply same_view_queues_safe.
      * by eapply pulled_queues_safe.
    + destruct (acquire_block_steps fuel t s Hnt) as [Hv|(b & s1 & Hs1 & Hh)].
      * by eapply same_view_queues_safe.
      * eapply handed_queues_safe; [done|]. destruct Hs1 as [Hv|Hp].
        -- by eapply same_view_queues_safe.
        -- by eapply pulled_queues_safe.
    + destruct (decide (Block.block_id b
                          ∈ processing_blocks (blocks_of s (Block.task_id b))))
        as [Hin|Hout]; destruct (Block.status b) eqn:Hst.
      all: try (by rewrite release_block_other_run by (by rewrite Hst)).
      all: try (rewrite release_block_missing_run by (rewrite ?Hst; auto);
                eapply same_view_queues_safe; [apply same_view_touch_blocks|done]).
      * destruct (release_block_success_run fuel b s Hst Hin) as (m & s' & -> & Hrel).
        by eapply released_queues_safe.
      * rewrite release_block_failed_run by done.
        eapply same_view_queues_safe; [apply same_view_touch_blocks|].
        by apply failed_state_queues_safe.
Qed.

(** X20.  No block is handed out before its dependencies.  In every
    reachable state, each block waiting in the ready queue of a task came
    from the root source of that task in the graph, or is a block of the
    task all of whose immediate upstream blocks are completed; and the
    same holds of every block [acquire_block] returns, in the state it
    leaves. *)
Theorem handed_out_blocks_are_ready G tasks s :
  reachable G tasks s →
  (∀ t d, d ∈ ready_queue (blocks_of s t) →
          from_root_source G t d
          ∨ (Block.task_id d = t ∧ upstream_completed G s d))
  ∧ (∀ fuel t b s',
       acquire_block (S fuel) t s = (Ret (Some b), s') →
       from_root_source G t b
       ∨ (Block.task_id b = t ∧ upstream_completed G s' b)).
Proof.
  intros Hreach. pose proof (reachable_queues_safe _ _ _ Hreach) as Hsafe.
  split; [exact Hsafe|]. intros fuel t b s' Hrun.
  pose proof (reachable_never_truthy _ _ _ Hreach) as Hnt.
  destruct (acquire_block_some fuel t s b s' Hnt Hrun)
    as [(rest & Hq & Hh)|(Hq & _ & s1 & Hp & Hh)].
  - destruct (Hsafe t b) as [|[Ht Hup]]; [rewrite Hq; by left|by left|right].
    split; [done|]. eapply upstream_completed_mono; [|done].
    intros t'. destruct (hd_blocks _ _ _ _ Hh) as (rest' & _ & Hb).
    rewrite Hb. by destruct (decide (t = t')) as [<-|].
  - left. destruct (pl_roots _ _ _ _ Hp) as (n & it & Hroot & Hsrc & _).
    pose proof (reachable_sources G tasks s t Hreach) as Hs.
    destruct (roots G !! t) as [[n0 it0]|] eqn:HG; [|by rewrite Hs in Hroot].
    destruct Hs as (p & Hs & _). rewrite Hs in Hroot. injection Hroot as <- <-.
    by exists n0, it0, p.
Qed.

(** X20, at an input: the chain with B's block queued after both blocks of
    A have been released. *)
Lemma handed_out_blocks_are_ready_witness :
  (∀ t d, d ∈ ready_queue (blocks_of Chain.s4 t) →
          from_root_source Chain.graph t d
          ∨ (Block.task_id d = t ∧ upstream_completed Chain.graph Chain.s4 d))
  ∧ (∀ fuel t b s',
       acquire_block (S fuel) t Chain.s4 = (Ret (Some b), s') →
       from_root_source Chain.graph t b
       ∨ (Block.task_id b = t ∧ upstream_completed Chain.graph s' b)).
Proof.
  apply (handed_out_blocks_are_ready Chain.graph Chain.tasks Chain.s4).
  exact chain_reachable_s4.
Defined.

(** X21.  The mapping returned by a successful [release_block], in any
    state: its keys are exactly the tasks whose ready queue grew, and the
    state it holds for a task is the state of that task when the call
    returns, the released block's own included. *)
Theorem returned_states_are_current fuel b s :
  Block.status b = SUCCESS →
  Block.block_id b ∈ processing_blocks (blocks_of s (Block.task_id b)) →
  ∃ m s', release_block fuel b s = (Ret (Some m), s')
    ∧ (∀ t, is_Some (m !! t)
            ↔ (length (ready_queue (blocks_of s t))
               < length (ready_queue (blocks_of s' t)))%nat)
    ∧ (∀ t ts, m !! t = Some ts → ts = state_of s' t).
Proof.
  intros Hst Hin.
  destruct (release_block_success_run fuel b s Hst Hin) as (m & s' & Hrun & Hrel).
  exists m, s'. split; [done|]. split.
  - intros t. rewrite (rel_queue _ _ _ _ Hrel), (rel_mapping _ _ _ _ Hrel), length_app.
    destruct (decide (Exists _ _)) as [Hex|Hex].
    + split; [intros _|by eauto].
      apply Exists_exists in Hex as (d & Hd & HP).
      assert (d ∈ filter (λ d, Block.task_id d = t ∧ is_ready s' d)
                    (downstream (dependency_graph s) (KId (Block.block_id b))))
        as Hf by (by apply list_elem_of_filter).
      destruct (filter _ _); [by apply elem_of_nil in Hf|]. simpl. lia.
    + split; [by intros [? ?]|]. intros Hlen. destruct Hex.
      destruct (filter _ _) as [|d l] eqn:Hf; [simpl in Hlen; lia|].
      assert (d ∈ d :: l) as Hd by left. rewrite <- Hf in Hd.
      apply list_elem_of_filter in Hd as [HP Hd]. apply Exists_exists. eauto.
  - intros t ts. rewrite (rel_mapping _ _ _ _ Hrel).
    destruct (decide _); [|done]. by intros [= <-].
Qed.

(** X21, at an input: the release that frees B's block in the chain. *)
Lemma returned_states_are_current_witness :
  ∃ m s', release_block 1 (Block.with_status SUCCESS Chain.a1) Chain.s3
          = (Ret (Some m), s')
    ∧ (∀ t, is_Some (m !! t)
            ↔ (length (ready_queue (blocks_of Chain.s3 t))
               < length (ready_queue (blocks_of s' t)))%nat)
    ∧ (∀ t ts, m !! t = Some ts → ts = state_of s' t).
Proof.
  apply (returned_states_are_current 1 (Block.with_status SUCCESS Chain.a1) Chain.s3).
  - reflexivity.
  - vm_compute. reflexivity.
Defined.
